(** * CodetoPromptGenerator MCP server: search gate, file sandbox, context cache

    A shallow embedding of the parts of [mcp-server/src] that gate pattern
    search ([tools/search.ts]), file reads and the context cache (the resource
    handlers, in their two revisions), with the properties stated about them.

    JavaScript strings are sequences of UTF-16 code units, numbers that the
    code only uses as integers (lengths, sizes, millisecond timestamps) are
    [N] or [Z], a [Map] is an association list in insertion order, and every
    call that leaves the process (file system, clock, providers, the regular
    expression engine for user patterns, the digest) is a field of an
    explicit environment record.

    The same is done, further down, for the project tree
    ([tools/projectStructure.ts]), the git context ([tools/gitContext.ts]),
    the dependency graph ([tools/codeGraph.ts]), the file selection
    ([tools/smartSelection.ts]) and the project structure resource. *)

From Stdlib Require Import String Ascii DecimalString.
From Stdlib Require Import List NArith ZArith Bool Lia.
From Stdlib Require Import Permutation Sorted.
Import ListNotations.

Set Implicit Arguments.

(** ** JavaScript strings *)

Module JS.

(** A string value: its UTF-16 code units, so that [length] is [.length]. *)
Abbreviation jsstring := (list N) (only parsing).

Definition jsstring_eq_dec : forall a b : jsstring, {a = b} + {a <> b} :=
  list_eq_dec N.eq_dec.

Definition eqb (a b : jsstring) : bool :=
  if jsstring_eq_dec a b then true else false.

(** Literals of the source, written in ASCII. *)
Definition str (s : string) : jsstring :=
  map N_of_ascii (list_ascii_of_string s).

(** [s.startsWith(p)] *)
Fixpoint startsWith (s p : jsstring) {struct p} : bool :=
  match p with
  | [] => true
  | c :: p' =>
      match s with
      | [] => false
      | d :: s' => N.eqb d c && startsWith s' p'
      end
  end.

(** [s.endsWith(p)] *)
Definition endsWith (s p : jsstring) : bool :=
  startsWith (rev s) (rev p).

(** [LineTerminator]: LF, CR, LS, PS. *)
Definition is_line_terminator (c : N) : bool :=
  N.eqb c 10 || N.eqb c 13 || N.eqb c 8232 || N.eqb c 8233.

(** [WhiteSpace] and [LineTerminator], the code units [trim] strips. *)
Definition is_trim_space (c : N) : bool :=
  N.eqb c 9 || N.eqb c 11 || N.eqb c 12 || N.eqb c 32 || N.eqb c 160
  || N.eqb c 5760 || (N.leb 8192 c && N.leb c 8202) || N.eqb c 8239
  || N.eqb c 8287 || N.eqb c 12288 || N.eqb c 65279 || is_line_terminator c.

(** [!s.trim()]: nothing is left after trimming. *)
Definition trim_is_empty (s : jsstring) : bool := forallb is_trim_space s.

(** [c.repeat(n)] for a one-unit string. *)
Definition repeat_unit (c : N) (n : nat) : jsstring := List.repeat c n.

(** [s.split(sep)] for a one-unit separator: never empty. *)
Fixpoint split_on (sep : N) (s : jsstring) : list jsstring :=
  match s with
  | [] => [[]]
  | c :: s' =>
      if N.eqb c sep then [] :: split_on sep s'
      else match split_on sep s' with
           | [] => [[c]]
           | l :: ls => (c :: l) :: ls
           end
  end.

(** [parts.join(sep)] *)
Fixpoint join (sep : jsstring) (parts : list jsstring) : jsstring :=
  match parts with
  | [] => []
  | [p] => p
  | p :: ps => p ++ sep ++ join sep ps
  end.

(** [a.slice(from, to)] on an array, both bounds in range order. *)
Definition slice {A} (from to : nat) (l : list A) : list A :=
  firstn (to - from) (skipn from l).

(** [String(n)] for a natural number: its decimal digits. *)
Definition decimal (n : N) : jsstring :=
  str (NilZero.string_of_uint (N.to_uint n)).

(** What a call can do: return, throw an [Error] with a message, or never
    come back. *)
Inductive outcome (A : Type) : Type :=
| Returned : A -> outcome A
| Thrown : jsstring -> outcome A
| Diverged : outcome A.
Arguments Thrown {A} _.
Arguments Diverged {A}.

(** [catch (error) { throw new Error(prefix + error.message) }] *)
Definition rethrow {A} (prefix : jsstring) (o : outcome A) : outcome A :=
  match o with
  | Thrown m => Thrown (prefix ++ m)
  | other => other
  end.

(** [Promise.all]: the values when every promise is fulfilled. When some
    promise is rejected the whole is rejected at once with the reason of
    the promise that is rejected first in time, which the order of the
    list does not decide: [race] stands for that order and picks one of
    the reasons. *)
Definition rejections {A} (results : list (outcome A)) : list jsstring :=
  flat_map (fun r => match r with Thrown m => [m] | _ => [] end) results.

Fixpoint fulfilled {A} (results : list (outcome A)) : option (list A) :=
  match results with
  | [] => Some []
  | Returned a :: results' => option_map (cons a) (fulfilled results')
  | _ :: _ => None
  end.

Definition promise_all {A} (race : list jsstring -> nat) (results : list (outcome A))
  : outcome (list A) :=
  match rejections results with
  | m :: ms => Thrown (nth (race (m :: ms)) (m :: ms) m)
  | [] =>
      match fulfilled results with
      | Some values => Returned values
      | None => Diverged
      end
  end.

End JS.

Import JS.

(** ** Regular expressions of the safety gate

    The four detector literals of [isRegexSafe] use characters, [.], [*],
    concatenation and one capture group. [RegExp.prototype.test] on a
    literal without flags asks whether some substring belongs to the
    language, which the derivative matcher below decides. *)

Module Regex.

Inductive re : Type :=
| Void : re
| Eps : re
| Chr : N -> re
| Dot : re
| Cat : re -> re -> re
| Alt : re -> re -> re
| Star : re -> re
| Group : re -> re.

Fixpoint nullable (r : re) : bool :=
  match r with
  | Void => false
  | Eps => true
  | Chr _ => false
  | Dot => false
  | Cat a b => nullable a && nullable b
  | Alt a b => nullable a || nullable b
  | Star _ => true
  | Group a => nullable a
  end.

Fixpoint deriv (c : N) (r : re) : re :=
  match r with
  | Void => Void
  | Eps => Void
  | Chr d => if N.eqb c d then Eps else Void
  | Dot => if is_line_terminator c then Void else Eps
  | Cat a b =>
      if nullable a then Alt (Cat (deriv c a) b) (deriv c b)
      else Cat (deriv c a) b
  | Alt a b => Alt (deriv c a) (deriv c b)
  | Star a => Cat (deriv c a) (Star a)
  | Group a => deriv c a
  end.

(** Some prefix of [s] is matched by [r]. *)
Fixpoint match_prefix (r : re) (s : jsstring) : bool :=
  nullable r ||
  match s with
  | [] => false
  | c :: s' => match_prefix (deriv c r) s'
  end.

(** [r.test(s)] for a literal without flags: a match starting anywhere. *)
Fixpoint test (r : re) (s : jsstring) : bool :=
  match_prefix r s ||
  match s with
  | [] => false
  | _ :: s' => test r s'
  end.

(** The language of an expression. *)
Inductive matches : re -> jsstring -> Prop :=
| m_eps : matches Eps []
| m_chr c : matches (Chr c) [c]
| m_dot c : is_line_terminator c = false -> matches Dot [c]
| m_cat a b s t : matches a s -> matches b t -> matches (Cat a b) (s ++ t)
| m_alt_l a b s : matches a s -> matches (Alt a b) s
| m_alt_r a b s : matches b s -> matches (Alt a b) s
| m_star_nil a : matches (Star a) []
| m_star_cons a s t : matches a s -> matches (Star a) t -> matches (Star a) (s ++ t)
| m_group a s : matches a s -> matches (Group a) s.

(** A run the dot may cross: no line terminator in it. *)
Definition one_line (s : jsstring) : Prop :=
  Forall (fun c => is_line_terminator c = false) s.

End Regex.

(** ** [tools/search.ts] (the revision with the safety gate) *)

Module Search.
Import Regex.

Definition c_lparen : N := 40.
Definition c_rparen : N := 41.
Definition c_star : N := 42.
Definition c_plus : N := 43.

(** The literal: an opening parenthesis, any run without line terminators,
    the inner quantifier [q], any such run, a closing parenthesis (all of it
    one capture group), then the outer quantifier [r]. *)
Definition nested (q r : N) : re :=
  Cat (Group (Cat (Chr c_lparen)
             (Cat (Star Dot)
             (Cat (Chr q)
             (Cat (Star Dot) (Chr c_rparen))))))
      (Chr r).

Definition dangerous : list re :=
  [ nested c_plus c_plus;    (* inner plus, outer plus *)
    nested c_star c_star;    (* inner star, outer star *)
    nested c_plus c_star;    (* inner plus, outer star *)
    nested c_star c_plus ].  (* inner star, outer plus *)

Definition is_quantifier (c : N) : Prop := c = c_plus \/ c = c_star.

Definition maxLength_default : nat := 200.

Definition isRegexSafe (pattern : jsstring) (maxLength : nat) : bool :=
  if Nat.eqb (length pattern) 0 || Nat.ltb maxLength (length pattern)
  then false
  else negb (existsb (fun regex => test regex pattern) dangerous).

Inductive searchType : Type := TText | TRegex | TSemantic.

Record SearchArgs : Type := {
  projectPath : jsstring;
  query : jsstring;
  searchType_arg : option searchType;   (* default: text *)
  filePattern : option jsstring
}.

Record SearchResult : Type := {
  file : jsstring;
  line : nat;
  column : nat;
  match_text : jsstring;
  context : jsstring
}.

(** The world outside: file system, [glob] with the ignore filter, [path],
    and the engine behind [new RegExp(src, 'gi')] for caller patterns. A
    left injection is the message of the error the call throws. *)
Record Env : Type := {
  isAbsolute : jsstring -> bool;
  stat_isDirectory : jsstring -> jsstring + bool;
  getMatchingFiles : jsstring -> option jsstring -> jsstring + list jsstring;
  readFile : jsstring -> jsstring + jsstring;
  relative : jsstring -> jsstring -> jsstring;
  regexp_syntax_error : jsstring -> option jsstring;     (* Some: SyntaxError *)
  regexp_exec : jsstring -> jsstring -> nat -> option (nat * jsstring)
    (* source, subject, lastIndex -> match.index, match[0] *)
}.

Definition msg_unsafe : jsstring := str "Potentially unsafe regex pattern detected".
Definition msg_invalid (m : jsstring) : jsstring := str "Invalid regex pattern: " ++ m.

(** [query.replace(/[.*+?^${}()|[\]\\]/g, '\\$&')] *)
Definition is_special (c : N) : bool :=
  existsb (N.eqb c) [46; 42; 43; 63; 94; 36; 123; 125; 40; 41; 124; 91; 93; 92]%N.

Definition escape_query (q : jsstring) : jsstring :=
  flat_map (fun c => if is_special c then [92%N; c] else [c]) q.

(** The [while ((match = regex.exec(line)) !== null)] loop of one line. With
    the [g] flag [exec] resumes at [lastIndex] and leaves it at the end of
    the match, so a pattern that keeps matching the empty string never
    leaves the loop: the fuel runs out. *)
Fixpoint exec_loop (E : Env) (fuel : nat) (src subject : jsstring) (lastIndex : nat)
  : option (list (nat * jsstring)) :=
  match fuel with
  | O => None
  | S fuel' =>
      match regexp_exec E src subject lastIndex with
      | None => Some []
      | Some (index, m) =>
          match exec_loop E fuel' src subject (index + length m) with
          | None => None
          | Some rest => Some ((index, m) :: rest)
          end
      end
  end.

(** The [for] loop over the lines, from line index [i]. *)
Fixpoint scan_lines (E : Env) (fuel : nat) (src filePath : jsstring)
    (lines : list jsstring) (rest : list jsstring) (i : nat)
  : option (list SearchResult) :=
  match rest with
  | [] => Some []
  | l :: rest' =>
      match exec_loop E fuel src l 0 with
      | None => None
      | Some ms =>
          let here :=
            map (fun im : nat * jsstring =>
                   {| file := filePath;
                      line := i + 1;
                      column := fst im + 1;
                      match_text := snd im;
                      context := join [10%N]
                        (slice (Nat.max 0 (i - 2)) (Nat.min (length lines) (i + 3)) lines) |})
                ms in
          match scan_lines E fuel src filePath lines rest' (S i) with
          | None => None
          | Some more => Some (here ++ more)
          end
      end
  end.

(** What was handed to the [RegExp] constructor during a call. *)
Definition compiled := list jsstring.

(** The body of the [try] block of [searchInFile]. *)
Definition searchInFile_try (E : Env) (fuel : nat)
    (filePath query_ : jsstring) (ty : searchType)
  : outcome (list SearchResult) * compiled :=
  match readFile E filePath with
  | inl m => (Thrown m, [])
  | inr content =>
      let lines := split_on 10 content in
      let run src :=
        match scan_lines E fuel src filePath lines lines 0 with
        | None => (Diverged, [src])
        | Some rs => (Returned rs, [src])
        end in
      match ty with
      | TRegex =>
          if negb (isRegexSafe query_ maxLength_default)
          then (Thrown msg_unsafe, [])
          else
            match regexp_syntax_error E query_ with
            | None => run query_
            | Some m => (Thrown (msg_invalid m), [query_])
            end
      | _ => run (escape_query query_)
      end
  end.

(** [searchInFile]: the [catch] swallows whatever the body threw (nothing
    has been pushed to [results] when it throws) and the function returns
    [results]. *)
Definition searchInFile (E : Env) (fuel : nat)
    (filePath query_ : jsstring) (ty : searchType)
  : outcome (list SearchResult) * compiled :=
  match searchInFile_try E fuel filePath query_ ty with
  | (Thrown _, log) => (Returned [], log)
  | other => other
  end.

(** [Promise.all(files.map(file => searchInFile(file, query, ty)))] *)
Fixpoint search_files (E : Env) (fuel : nat) (files : list jsstring)
    (query_ : jsstring) (ty : searchType)
  : outcome (list (list SearchResult)) * compiled :=
  match files with
  | [] => (Returned [], [])
  | f :: files' =>
      let '(o, log) := searchInFile E fuel f query_ ty in
      let '(os, logs) := search_files E fuel files' query_ ty in
      (match o, os with
       | Returned rs, Returned rss => Returned (rs :: rss)
       | Diverged, _ => Diverged
       | _, Diverged => Diverged
       | Thrown m, _ => Thrown m
       | _, Thrown m => Thrown m
       end, log ++ logs)
  end.

Record Summary : Type := {
  totalMatches : nat;
  filesSearched : nat;
  filesWithMatches : nat;
  truncated : bool
}.

(** The object that is serialised into the reply. *)
Record Response : Type := {
  resp_query : jsstring;
  resp_searchType : searchType;
  results : list SearchResult;
  summary : Summary
}.

Definition maxResults : nat := 100.

Definition failed_prefix : jsstring := str "Failed to search codebase: ".

(** The body of the [try] block of [searchCodebase]. *)
Definition searchCodebase_try (E : Env) (fuel : nat) (args : SearchArgs)
  : outcome Response * compiled :=
  let ty := match searchType_arg args with Some t => t | None => TText end in
  match projectPath args with
  | [] => (Thrown (str "projectPath is required"), [])
  | _ =>
  if negb (isAbsolute E (projectPath args))
  then (Thrown (str "projectPath must be an absolute path"), [])
  else
  match stat_isDirectory E (projectPath args) with
  | inl m => (Thrown m, [])
  | inr false => (Thrown (str "projectPath must be a directory"), [])
  | inr true =>
  if Nat.eqb (length (query args)) 0 || trim_is_empty (query args)
  then (Thrown (str "query is required"), [])
  else
  match getMatchingFiles E (projectPath args) (filePattern args) with
  | inl m => (Thrown m, [])
  | inr files =>
      let '(o, log) :=
        match ty with
        | TText | TRegex => search_files E fuel files (query args) ty
        | TSemantic => search_files E fuel files (query args) TText
        end in
      match o with
      | Diverged => (Diverged, log)
      | Thrown m => (Thrown m, log)
      | Returned fileResults =>
          let allResults :=
            map (fun r => {| file := relative E (projectPath args) (file r);
                             line := line r;
                             column := column r;
                             match_text := match_text r;
                             context := context r |})
                (concat fileResults) in
          let limitedResults := slice 0 maxResults allResults in
          (Returned
             {| resp_query := query args;
                resp_searchType := ty;
                results := limitedResults;
                summary :=
                  {| totalMatches := length allResults;
                     filesSearched := length files;
                     filesWithMatches :=
                       length (nodup jsstring_eq_dec (map file limitedResults));
                     truncated := Nat.ltb maxResults (length allResults) |} |},
           log)
      end
  end
  end
  end.

(** [searchCodebase]: whatever the body throws is thrown again under the
    operation's prefix. *)
Definition searchCodebase (E : Env) (fuel : nat) (args : SearchArgs)
  : outcome Response * compiled :=
  let '(o, log) := searchCodebase_try E fuel args in
  (rethrow failed_prefix o, log).

End Search.

(** ** The file resource (resource handlers, revision with the sandbox) *)

Module FileResource.

(** What [new URL(uri)] yields, as far as the handler looks at it. *)
Record URL : Type := {
  hostname : jsstring;
  pathname : jsstring;
  root_param : option jsstring       (* searchParams.get('root'); None: null *)
}.

Record Stats : Type := {
  isFile : bool;
  size : N;
  mtime_iso : jsstring               (* mtime.toISOString() *)
}.

(** The platform: URL parsing, [path], [fs]. A left injection is the
    message of the error the call throws. *)
Record Sys : Type := {
  parse_url : jsstring -> jsstring + URL;
  decodeURIComponent : jsstring -> jsstring + jsstring;
  win32 : bool;                      (* process.platform === 'win32' *)
  sep : N;                           (* path.sep, one code unit *)
  resolve : jsstring -> jsstring;
  realpath : jsstring -> jsstring + jsstring;
  stat : jsstring -> jsstring + Stats;
  readFile : jsstring -> jsstring + jsstring;
  extname_lower : jsstring -> jsstring;  (* path.extname(p).toLowerCase() *)
  race : list jsstring -> nat            (* which of several rejections is first *)
}.

Record Contents : Type := {
  uri : jsstring;
  mimeType : jsstring;
  text : jsstring;
  meta_size : N;
  meta_modified : jsstring;
  meta_extension : jsstring
}.

Definition MAX_BYTES : N := 2 * 1024 * 1024.

Definition msg_host : jsstring :=
  str "Invalid resource host; expected project://file/{path}".
Definition msg_path_required : jsstring := str "File path is required".
Definition msg_denied : jsstring :=
  str "Access denied: file is outside of the allowed project root".
Definition msg_not_file : jsstring := str "Requested path is not a file".
Definition msg_too_large (sz : N) : jsstring :=
  str "File too large (" ++ decimal sz ++ str " bytes). Max allowed is "
    ++ decimal MAX_BYTES ++ str " bytes".
Definition failed_prefix : jsstring := str "Failed to read file: ".

Definition is_ascii_letter (c : N) : bool :=
  (N.leb 65 c && N.leb c 90) || (N.leb 97 c && N.leb c 122).

(** A slash, a drive letter, a colon, a slash: the test that makes the
    handler drop the leading slash on Windows. *)
Definition drive_path (p : jsstring) : bool :=
  match p with
  | s1 :: l :: c :: s2 :: _ =>
      N.eqb s1 47 && is_ascii_letter l && N.eqb c 58 && N.eqb s2 47
  | _ => false
  end.

(** [realRoot.endsWith(path.sep) ? realRoot : realRoot + path.sep] *)
Definition normalizedRoot (S : Sys) (realRoot : jsstring) : jsstring :=
  if endsWith realRoot [sep S] then realRoot else realRoot ++ [sep S].

(** The negation of the condition under which the handler throws the
    access error. *)
Definition inside_root (S : Sys) (realRoot realTarget : jsstring) : bool :=
  JS.eqb realTarget realRoot || startsWith realTarget (normalizedRoot S realRoot).

(** The [if (root) { ... }] block: [Returned tt] when control falls
    through. Both [realpath] calls are started together and awaited with
    [Promise.all]; when both fail, the message is that of the one that
    fails first, which [race] picks. *)
Definition check_root (S : Sys) (filePath : jsstring) (root : option jsstring)
  : outcome unit :=
  match root with
  | None => Returned tt
  | Some [] => Returned tt                             (* '' is falsy *)
  | Some r =>
      match realpath S r, realpath S filePath with
      | inl m_root, inl m_target =>
          Thrown (nth (race S [m_root; m_target]) [m_root; m_target] m_root)
      | inl m, inr _ => Thrown m
      | inr _, inl m => Thrown m
      | inr realRoot, inr realTarget =>
          if inside_root S realRoot realTarget then Returned tt
          else Thrown msg_denied
      end
  end.

(** From [fs.stat] to the reply. *)
Definition read_checked (S : Sys) (uri_ filePath : jsstring) : outcome Contents :=
  match stat S filePath with
  | inl m => Thrown m
  | inr stats =>
      if negb (isFile stats) then Thrown msg_not_file
      else if N.ltb MAX_BYTES (size stats) then Thrown (msg_too_large (size stats))
      else
        match readFile S filePath with
        | inl m => Thrown m
        | inr content =>
            let ext := extname_lower S filePath in
            Returned
              {| uri := uri_;
                 mimeType := if JS.eqb ext (str ".json")
                             then str "application/json" else str "text/plain";
                 text := content;
                 meta_size := size stats;
                 meta_modified := mtime_iso stats;
                 meta_extension := ext |}
        end
  end.

(** The path the handler works on, after decoding, the Windows drive fix
    and [path.resolve]. *)
Definition target_path (S : Sys) (url : URL) : outcome jsstring :=
  if negb (JS.eqb (hostname url) (str "file")) then Thrown msg_host
  else
    match decodeURIComponent S (pathname url) with
    | inl m => Thrown m
    | inr [] => Thrown msg_path_required
    | inr filePath =>
        let filePath :=
          if win32 S && drive_path filePath then skipn 1 filePath else filePath in
        Returned (resolve S filePath)
    end.

(** The body of the [try] block of [getFileResource]. *)
Definition getFileResource_try (S : Sys) (uri_ : jsstring) : outcome Contents :=
  match parse_url S uri_ with
  | inl m => Thrown m
  | inr url =>
      match target_path S url with
      | Thrown m => Thrown m
      | Diverged => Diverged
      | Returned filePath =>
          match check_root S filePath (root_param url) with
          | Thrown m => Thrown m
          | Diverged => Diverged
          | Returned _ => read_checked S uri_ filePath
          end
      end
  end.

Definition getFileResource (S : Sys) (uri_ : jsstring) : outcome Contents :=
  rethrow failed_prefix (getFileResource_try S uri_).

End FileResource.

(** ** The context cache (resource handlers, both revisions) *)

Module ContextCache.

(** *** JSON values and objects *)

#[warnings="-register-all"]
Inductive json : Type :=
| JNull : json
| JBool : bool -> json
| JNum : Z -> json
| JStr : jsstring -> json
| JArr : list json -> json
| JObj : list (jsstring * json) -> json.

(** An object: its own properties in creation order. *)
Definition object := list (jsstring * json).

Fixpoint obj_get (o : object) (k : jsstring) : option json :=
  match o with
  | [] => None
  | (k', v) :: o' => if JS.eqb k' k then Some v else obj_get o' k
  end.

(** [o[k] = v]: an existing property keeps its place, a new one goes last. *)
Fixpoint obj_set (o : object) (k : jsstring) (v : json) : object :=
  match o with
  | [] => [(k, v)]
  | (k', v') :: o' =>
      if JS.eqb k' k then (k', v) :: o' else (k', v') :: obj_set o' k v
  end.

(** *** [JSON.stringify] of the key parameters *)

Local Open Scope N_scope.

Definition hex_digit (d : N) : N := if N.ltb d 10 then 48 + d else 87 + d.

(** Backslash, [u], four lower-case hexadecimal digits. *)
Definition unicode_escape (c : N) : jsstring :=
  [92; 117; hex_digit (c / 4096 mod 16); hex_digit (c / 256 mod 16);
   hex_digit (c / 16 mod 16); hex_digit (c mod 16)].

(** The two-character escapes: backspace, tab, line feed, form feed,
    carriage return, the double quote and the backslash. *)
Definition short_escape (c : N) : option N :=
  if N.eqb c 8 then Some 98
  else if N.eqb c 9 then Some 116
  else if N.eqb c 10 then Some 110
  else if N.eqb c 12 then Some 102
  else if N.eqb c 13 then Some 114
  else if N.eqb c 34 then Some 34
  else if N.eqb c 92 then Some 92
  else None.

Definition is_lead (c : N) : bool := N.leb 55296 c && N.leb c 56319.
Definition is_trail (c : N) : bool := N.leb 56320 c && N.leb c 57343.

(** [QuoteJSONString] without the enclosing quotes: a surrogate pair goes
    out as it is, a lone surrogate and a control character are escaped. *)
Fixpoint quote_body (s : jsstring) : jsstring :=
  match s with
  | [] => []
  | c :: s' =>
      match short_escape c with
      | Some e => 92 :: e :: quote_body s'
      | None =>
          if N.ltb c 32 then unicode_escape c ++ quote_body s'
          else if is_lead c then
            match s' with
            | d :: s'' =>
                if is_trail d then c :: d :: quote_body s''
                else unicode_escape c ++ quote_body s'
            | [] => unicode_escape c
            end
          else if is_trail c then unicode_escape c ++ quote_body s'
          else c :: quote_body s'
      end
  end.

Definition quote (s : jsstring) : jsstring := 34 :: quote_body s ++ [34].





Local Close Scope N_scope.

(** The descriptor [{ projectPath, taskDescription }]; [None] is
    [undefined], a property [JSON.stringify] leaves out. *)
Definition params : Type := (jsstring * option jsstring)%type.

(** [JSON.stringify] of an object whose values are strings: the members,
    key and value quoted, joined by commas between braces. *)
Definition stringify_members (members : list (jsstring * jsstring)) : jsstring :=
  str "{"
  ++ join (str ",") (map (fun kv => quote (fst kv) ++ str ":" ++ quote (snd kv)) members)
  ++ str "}".

Definition stringify_params (p : params) : jsstring :=
  stringify_members
    ((str "projectPath", fst p)
     :: match snd p with
        | Some t => [(str "taskDescription", t)]
        | None => []
        end).




(** *** The environment *)

(** The digest ([createHash(alg).update(s).digest('hex')], SHA-256 in the
    later revision and MD5 in the earlier one) and the three providers,
    each already composed with the [JSON.parse] of its reply; a left
    injection is [String(error)] of what the call or the parse throws. *)
Record Env : Type := {
  digest : jsstring -> jsstring;
  getProjectStructure : jsstring -> Z -> jsstring + json;
  getGitContext : jsstring -> bool -> Z -> jsstring + json;
  smartFileSelection : jsstring -> jsstring -> Z -> jsstring + json
}.

(** The clock readings of one call. *)
Record Times : Type := {
  now_lookup : Z;            (* Date.now() in the freshness test *)
  generated_iso : jsstring;  (* new Date().toISOString() *)
  now_store : Z              (* Date.now() when the entry is stored *)
}.

Definition generateContextHash (E : Env) (p : params) : jsstring :=
  digest E (stringify_params p).

(** *** The [Map] *)

Record entry : Type := { timestamp : Z; data : object }.

(** [contextCache]: keys in insertion order. *)
Definition cache := list (jsstring * entry).

Definition CACHE_TTL : Z := 5 * 60 * 1000.
Definition capacity : nat := 50.

Fixpoint map_get (c : cache) (k : jsstring) : option entry :=
  match c with
  | [] => None
  | (k', e) :: c' => if JS.eqb k' k then Some e else map_get c' k
  end.

(** [Map.prototype.set]: a present key keeps its position. *)
Fixpoint map_set (c : cache) (k : jsstring) (e : entry) : cache :=
  match c with
  | [] => [(k, e)]
  | (k', e') :: c' =>
      if JS.eqb k' k then (k', e) :: c' else (k', e') :: map_set c' k e
  end.

Fixpoint map_delete (c : cache) (k : jsstring) : cache :=
  match c with
  | [] => []
  | (k', e') :: c' =>
      if JS.eqb k' k then c' else (k', e') :: map_delete c' k
  end.

Definition map_size (c : cache) : nat := length c.

Definition keys (c : cache) : list jsstring := map fst c.

(** A [Map] holds a key once. *)
Fixpoint distinct (l : list jsstring) : bool :=
  match l with
  | [] => true
  | k :: l' => negb (existsb (JS.eqb k) l') && distinct l'
  end.

Definition well_formed (c : cache) : bool := distinct (keys c).

(** [cached && Date.now() - cached.timestamp < CACHE_TTL] *)
Definition fresh (now : Z) (cached : option entry) : bool :=
  match cached with
  | Some e => Z.ltb (now - timestamp e) CACHE_TTL
  | None => false
  end.

(** [entries.sort((a, b) => b[1].timestamp - a[1].timestamp)]: the sort of
    the language is stable, so the result is the one of this insertion. *)
Fixpoint insert_desc (x : jsstring * entry) (l : cache) : cache :=
  match l with
  | [] => [x]
  | y :: l' =>
      if Z.ltb (timestamp (snd x)) (timestamp (snd y))
      then y :: insert_desc x l'
      else x :: l
  end.

Fixpoint sort_desc (l : cache) : cache :=
  match l with
  | [] => []
  | x :: l' => insert_desc x (sort_desc l')
  end.

(** The order the comparator asks for: [a] may stand before [b]. *)
Definition newer_first (a b : jsstring * entry) : Prop :=
  (timestamp (snd b) <= timestamp (snd a))%Z.

(** Later revision: delete, in place, what the sorted list holds from
    index 50 on. *)
Definition cleanup_in_place (c : cache) : cache :=
  if Nat.ltb capacity (map_size c)
  then fold_left (fun m kv => map_delete m (fst kv)) (skipn capacity (sort_desc c)) c
  else c.

(** Earlier revision: clear the map and set the first 50 of the sorted
    list again. *)
Definition cleanup_rebuild (c : cache) : cache :=
  if Nat.ltb capacity (map_size c)
  then fold_left (fun m kv => map_set m (fst kv) (snd kv))
                 (firstn capacity (sort_desc c)) []
  else c.

(** What the two clean-ups share: a map within capacity is left alone, a
    larger one is cut down to the 50 entries the sort puts first. *)
Definition keeps_newest (cleanup : cache -> cache) : Prop :=
  (forall c, length c <= capacity -> cleanup c = c) /\
  (forall c, NoDup (keys c) -> capacity < length c ->
             Permutation (cleanup c) (firstn capacity (sort_desc c))).

(** *** [getOrCreateContext] *)

Definition k_generated := str "generated".
Definition k_projectPath := str "projectPath".
Definition k_hash := str "hash".
Definition k_cached := str "cached".
Definition k_structure := str "structure".
Definition k_structureError := str "structureError".
Definition k_git := str "git".
Definition k_relevantFiles := str "relevantFiles".
Definition k_filesError := str "filesError".
Definition k_previousHash := str "previousHash".

(** The three provider steps, each inside its own [try]. *)
Definition add_structure (E : Env) (projectPath : jsstring) (context : object) : object :=
  match getProjectStructure E projectPath 3 with
  | inr v => obj_set context k_structure v
  | inl err => obj_set context k_structureError (JStr err)
  end.

Definition add_git (E : Env) (projectPath : jsstring) (context : object) : object :=
  match getGitContext E projectPath false 5 with
  | inr v => obj_set context k_git v
  | inl _ => obj_set context k_git JNull
  end.

Definition add_files (E : Env) (projectPath : jsstring)
    (taskDescription : option jsstring) (context : object) : object :=
  match taskDescription with
  | None => context
  | Some [] => context                                 (* '' is falsy *)
  | Some task =>
      match smartFileSelection E projectPath task 15 with
      | inr v => obj_set context k_relevantFiles v
      | inl err => obj_set context k_filesError (JStr err)
      end
  end.

(** The context a miss builds. *)
Definition build_context (E : Env) (tm : Times) (hash projectPath : jsstring)
    (taskDescription : option jsstring) : object :=
  add_files E projectPath taskDescription
    (add_git E projectPath
       (add_structure E projectPath
          [(k_generated, JStr (generated_iso tm));
           (k_projectPath, JStr projectPath);
           (k_hash, JStr hash)])).

(** The entry a miss stores. *)
Definition new_entry (E : Env) (tm : Times) (projectPath : jsstring)
    (taskDescription : option jsstring) : entry :=
  {| timestamp := now_store tm;
     data := build_context E tm
               (generateContextHash E (projectPath, taskDescription))
               projectPath taskDescription |}.

(** What a call hands back: the object, the map afterwards, and whether
    the object is the very one the map holds under its hash (a miss) or a
    copy (a hit). *)
Record reply : Type := {
  context : object;
  store : cache;
  is_stored_object : bool
}.

Section WithCleanup.

Variable cleanup : cache -> cache.

Definition getOrCreateContext_with (E : Env) (tm : Times) (c : cache)
    (projectPath : jsstring) (taskDescription : option jsstring) : reply :=
  let hash := generateContextHash E (projectPath, taskDescription) in
  let cached := map_get c hash in
  if fresh (now_lookup tm) cached then
    {| context :=
         obj_set (obj_set (match cached with Some e => data e | None => [] end)
                          k_cached (JBool true))
                 k_hash (JStr hash);
       store := c;
       is_stored_object := false |}
  else
    let stored := new_entry E tm projectPath taskDescription in
    {| context := data stored;
       store := cleanup (map_set c hash stored);
       is_stored_object := true |}.

End WithCleanup.

(** The two revisions of the handlers: the later one deletes in place
    (its digest is SHA-256), the earlier one rebuilds the map (MD5). *)
Inductive revision : Type := InPlace | Rebuild.

Definition cleanup_of (rev : revision) : cache -> cache :=
  match rev with
  | InPlace => cleanup_in_place
  | Rebuild => cleanup_rebuild
  end.

Definition getOrCreateContext (rev : revision) :=
  getOrCreateContext_with (cleanup_of rev).

(** *** [getContextResource] *)

(** What the handler reads off the URI: the path component without its
    leading slashes, and the [path] and [task] parameters. *)
Record ContextRequest : Type := {
  providedHash : option jsstring;
  path_param : option jsstring;
  task_param : option jsstring
}.

(** [x || undefined] *)
Definition or_undefined (x : option jsstring) : option jsstring :=
  match x with
  | Some [] => None
  | other => other
  end.

(** An assignment to a property of the object stored under [k]. *)
Fixpoint set_stored_property (c : cache) (k field : jsstring) (v : json) : cache :=
  match c with
  | [] => []
  | (k', e) :: c' =>
      if JS.eqb k' k
      then (k', {| timestamp := timestamp e; data := obj_set (data e) field v |}) :: c'
      else (k', e) :: set_stored_property c' k field v
  end.

Definition msg_path_required : jsstring :=
  str "Project path is required (use ?path=/your/project)".
Definition failed_prefix : jsstring := str "Failed to get context: ".

(** The later revision answers from the map when the supplied hash is
    fresh there; otherwise it calls [getOrCreateContext] and, when the
    supplied hash is not the computed one, writes [previousHash] into the
    object it got back. After a miss that object is the one the map holds,
    so the assignment shows in the map as well. The earlier revision only
    calls [getOrCreateContext]. The object handed back is what the reply
    serialises; [now_route] is the clock reading of the handler's own
    freshness test. *)
Definition getContextResource (rev : revision) (E : Env) (now_route : Z)
    (tm : Times) (c : cache) (req : ContextRequest) : outcome object * cache :=
  match or_undefined (path_param req) with
  | None => (Thrown (failed_prefix ++ msg_path_required), c)
  | Some projectPath =>
      let supplied :=
        match rev with
        | InPlace => or_undefined (providedHash req)
        | Rebuild => None
        end in
      let direct :=
        match supplied with
        | Some h => if fresh now_route (map_get c h) then map_get c h else None
        | None => None
        end in
      match direct with
      | Some cached => (Returned (obj_set (data cached) k_cached (JBool true)), c)
      | None =>
          let r := getOrCreateContext rev E tm c projectPath
                     (or_undefined (task_param req)) in
          let hash := generateContextHash E
                        (projectPath, or_undefined (task_param req)) in
          match supplied with
          | Some h =>
              if JS.eqb h hash then (Returned (context r), store r)
              else
                (Returned (obj_set (context r) k_previousHash (JStr h)),
                 if is_stored_object r
                 then set_stored_property (store r) hash k_previousHash (JStr h)
                 else store r)
          | None => (Returned (context r), store r)
          end
      end
  end.

(** The maps a server can hold: empty at start, then whatever the
    requests leave. *)
Inductive reachable (rev : revision) : cache -> Prop :=
| reach_start : reachable rev []
| reach_request E now_route tm c req :
    reachable rev c ->
    reachable rev (snd (getContextResource rev E now_route tm c req)).

End ContextCache.

(** ** Keys and the digest *)

Module ContextKeys.
Import ContextCache.


End ContextKeys.

(** ** More of [tools/search.ts] *)

Module SearchMore.
Import Regex Search.

(** The source text [searchInFile] hands to the [RegExp] constructor. *)
Definition effective_source (ty : searchType) (query_ : jsstring) : jsstring :=
  match ty with
  | TRegex => query_
  | _ => escape_query query_
  end.

(** An engine whose matches for [src] are never empty, start at or after
    [lastIndex] and end inside the subject. *)
Definition progressing (E : Env) (src : jsstring) : Prop :=
  forall subject i index m,
    regexp_exec E src subject i = Some (index, m) ->
    i <= index /\ m <> [] /\ index + length m <= length subject.

(** *** The revision without the gate

    One [RegExp] object serves all lines and [lastIndex] is not reset
    between them: it is whatever the last [exec] left, and [exec] leaves 0
    when it finds nothing. *)
Fixpoint exec_loop_carry (E : Env) (fuel : nat) (src subject : jsstring)
    (lastIndex : nat) : option (list (nat * jsstring) * nat) :=
  match fuel with
  | O => None
  | S fuel' =>
      match regexp_exec E src subject lastIndex with
      | None => Some ([], 0)
      | Some (index, m) =>
          match exec_loop_carry E fuel' src subject (index + length m) with
          | None => None
          | Some (rest, after) => Some ((index, m) :: rest, after)
          end
      end
  end.

Fixpoint scan_lines_carry (E : Env) (fuel : nat) (src filePath : jsstring)
    (lines : list jsstring) (rest : list jsstring) (i lastIndex : nat)
  : option (list SearchResult) :=
  match rest with
  | [] => Some []
  | l :: rest' =>
      match exec_loop_carry E fuel src l lastIndex with
      | None => None
      | Some (ms, after) =>
          let here :=
            map (fun im : nat * jsstring =>
                   {| file := filePath;
                      line := i + 1;
                      column := fst im + 1;
                      match_text := snd im;
                      context := join [10%N]
                        (slice (Nat.max 0 (i - 2)) (Nat.min (length lines) (i + 3)) lines) |})
                ms in
          match scan_lines_carry E fuel src filePath lines rest' (S i) after with
          | None => None
          | Some more => Some (here ++ more)
          end
      end
  end.

(** [searchInFile] of that revision: the pattern goes to the constructor
    as it comes. *)
Definition searchInFile_ungated (E : Env) (fuel : nat)
    (filePath query_ : jsstring) (ty : searchType)
  : outcome (list SearchResult) * compiled :=
  match readFile E filePath with
  | inl _ => (Returned [], [])
  | inr content =>
      let lines := split_on 10 content in
      let src := effective_source ty query_ in
      let failed :=
        match ty with
        | TRegex => regexp_syntax_error E query_
        | _ => None
        end in
      match failed with
      | Some _ => (Returned [], [src])
      | None =>
          match scan_lines_carry E fuel src filePath lines lines 0 0 with
          | None => (Diverged, [src])
          | Some rs => (Returned rs, [src])
          end
      end
  end.

End SearchMore.

(** ** More about the context cache *)

Module ContextMore.
Import ContextCache.

(** Every entry records, under [hash], the key it is stored under. *)
Definition entries_keyed (c : cache) : Prop :=
  forall k e, In (k, e) c -> obj_get (data e) k_hash = Some (JStr k).

End ContextMore.

(** ** [tools/projectStructure.ts]: the project tree *)

Module StableSort.

(** [list.sort(cmp)] as the stable insertion it amounts to: an element
    moves behind those the comparator puts strictly before it. *)
Section WithComparator.

Context {A : Type} (cmp : A -> A -> Z).

Fixpoint insert (x : A) (l : list A) : list A :=
  match l with
  | [] => [x]
  | y :: l' => if Z.ltb 0 (cmp x y) then y :: insert x l' else x :: l
  end.

Fixpoint sort (l : list A) : list A :=
  match l with
  | [] => []
  | x :: l' => insert x (sort l')
  end.

End WithComparator.

End StableSort.

Module ProjectStructure.

(** What [readdir] and [stat] find on the disk. A directory carries the
    error its [readdir] throws, if any, and its entries; the third kind is
    whatever is neither a directory nor a regular file for [Dirent]
    (symbolic links, sockets). *)
Record Stats : Type := { size : N; mtime_iso : jsstring }.

#[warnings="-register-all"]
Inductive disk_entry : Type :=
| DFile : jsstring -> jsstring + Stats -> disk_entry
| DDir : jsstring -> jsstring + Stats -> option jsstring -> list disk_entry -> disk_entry
| DOther : jsstring -> jsstring + Stats -> disk_entry.

Definition entry_name (e : disk_entry) : jsstring :=
  match e with
  | DFile n _ => n
  | DDir n _ _ _ => n
  | DOther n _ => n
  end.

Definition entry_stat (e : disk_entry) : jsstring + Stats :=
  match e with
  | DFile _ s => s
  | DDir _ s _ _ => s
  | DOther _ s => s
  end.

#[warnings="-register-all"]
Inductive FileNode : Type :=
| FileN : jsstring -> jsstring -> N -> jsstring -> FileNode          (* name path size modified *)
| DirN : jsstring -> jsstring -> list FileNode -> jsstring -> FileNode. (* name path children modified *)

Definition node_name (n : FileNode) : jsstring :=
  match n with FileN a _ _ _ => a | DirN a _ _ _ => a end.

Definition node_path (n : FileNode) : jsstring :=
  match n with FileN _ p _ _ => p | DirN _ p _ _ => p end.

Definition is_directory (n : FileNode) : bool :=
  match n with FileN _ _ _ _ => false | DirN _ _ _ _ => true end.

Definition node_children (n : FileNode) : list FileNode :=
  match n with FileN _ _ _ _ => [] | DirN _ _ c _ => c end.

(** The loop over the entries of one directory: the first entry that
    throws ends it; a skipped entry adds nothing. *)
Fixpoint collect {A B} (f : A -> outcome (option B)) (l : list A) : outcome (list B) :=
  match l with
  | [] => Returned []
  | a :: l' =>
      match f a with
      | Thrown m => Thrown m
      | Diverged => Diverged
      | Returned o =>
          match collect f l' with
          | Returned ns => Returned (match o with Some n => n :: ns | None => ns end)
          | other => other
          end
      end
  end.

Section Walk.

(** [ig.ignores] of the filter [loadGitignore] built, which answers or
    throws for a path it does not accept, [String.prototype.localeCompare],
    and the two options of the call. *)
Variable ignores : jsstring -> jsstring + bool.
Variable localeCompare : jsstring -> jsstring -> Z.
Variable maxDepth : Z.
Variable includeHidden : bool.

(** The comparator of [nodes.sort]. *)
Definition node_compare (a b : FileNode) : Z :=
  if Bool.eqb (is_directory a) (is_directory b)
  then localeCompare (node_name a) (node_name b)
  else if is_directory a then (-1)%Z else 1%Z.

Definition beyond (currentDepth : Z) : bool :=
  negb (Z.eqb maxDepth (-1)) && Z.ltb maxDepth currentDepth.

Definition child_path (relativePath name : jsstring) : jsstring :=
  match relativePath with
  | [] => name
  | _ => relativePath ++ [47%N] ++ name
  end.

(** One turn of the [for] loop, for an entry of the directory whose
    relative path is [relativePath] and which is listed at [currentDepth];
    a directory entry runs [buildFileTree] one level down. *)
Fixpoint visit (e : disk_entry) (relativePath : jsstring) (currentDepth : Z)
  : outcome (option FileNode) :=
  let name := entry_name e in
  if negb includeHidden && startsWith name [46%N] then Returned None
  else
    let entryRelativePath := child_path relativePath name in
    match ignores entryRelativePath with
    | inl m => Thrown m
    | inr true => Returned None
    | inr false =>
      match entry_stat e with
      | inl m => Thrown m
      | inr stats =>
          match e with
          | DFile _ _ =>
              Returned (Some (FileN name entryRelativePath (size stats) (mtime_iso stats)))
          | DOther _ _ => Returned None
          | DDir _ _ readdir_error entries =>
              let children :=
                if beyond (currentDepth + 1) then Returned []
                else
                  match readdir_error with
                  | Some m => Thrown m
                  | None =>
                      match collect (fun c => visit c entryRelativePath (currentDepth + 1))
                                    entries with
                      | Returned nodes => Returned (StableSort.sort node_compare nodes)
                      | other => other
                      end
                  end in
              match children with
              | Returned nodes =>
                  Returned (Some (DirN name entryRelativePath nodes (mtime_iso stats)))
              | Thrown m => Thrown m
              | Diverged => Diverged
              end
          end
      end
    end.

(** [buildFileTree] for a directory with the given [readdir] outcome. *)
Definition buildFileTree (readdir_error : option jsstring) (entries : list disk_entry)
    (relativePath : jsstring) (currentDepth : Z) : outcome (list FileNode) :=
  if beyond currentDepth then Returned []
  else
    match readdir_error with
    | Some m => Thrown m
    | None =>
        match collect (fun c => visit c relativePath currentDepth) entries with
        | Returned nodes => Returned (StableSort.sort node_compare nodes)
        | other => other
        end
    end.

End Walk.

(** [countNodes] *)
Fixpoint countNodes_node (n : FileNode) : nat * nat :=
  match n with
  | FileN _ _ _ _ => (1, 0)
  | DirN _ _ children _ =>
      let inner :=
        fold_left (fun acc c => (fst acc + fst (countNodes_node c),
                                 snd acc + snd (countNodes_node c)))
                  children (0, 0) in
      (fst inner, S (snd inner))
  end.

Definition countNodes (nodes : list FileNode) : nat * nat :=
  fold_left (fun acc c => (fst acc + fst (countNodes_node c),
                           snd acc + snd (countNodes_node c)))
            nodes (0, 0).

(** The file system and the rest, as [getProjectStructure] meets them. *)
Record Env : Type := {
  stat_root : jsstring -> jsstring + disk_entry;
  loadGitignore : jsstring -> jsstring -> jsstring + bool;
  localeCompare_of : jsstring -> jsstring -> Z
}.

Record ProjectStructureArgs : Type := {
  path : jsstring;
  maxDepth_arg : option Z;           (* default: -1 *)
  includeHidden_arg : option bool    (* default: false *)
}.

Record Reply : Type := {
  projectPath : jsstring;
  tree : list FileNode;
  totalFiles : nat;
  totalDirectories : nat;
  maxDepth_shown : option Z          (* None: 'unlimited' *)
}.

Definition failed_prefix : jsstring := str "Failed to get project structure: ".

Definition getProjectStructure_try (E : Env) (args : ProjectStructureArgs)
  : outcome Reply :=
  let maxDepth := match maxDepth_arg args with Some d => d | None => (-1)%Z end in
  let includeHidden := match includeHidden_arg args with Some b => b | None => false end in
  match stat_root E (path args) with
  | inl m => Thrown m
  | inr (DDir _ _ readdir_error entries) =>
      match buildFileTree (loadGitignore E (path args)) (localeCompare_of E)
                          maxDepth includeHidden readdir_error entries [] 0 with
      | Returned nodes =>
          let counts := countNodes nodes in
          Returned {| projectPath := path args;
                      tree := nodes;
                      totalFiles := fst counts;
                      totalDirectories := snd counts;
                      maxDepth_shown :=
                        if Z.eqb maxDepth (-1) then None else Some maxDepth |}
      | Thrown m => Thrown m
      | Diverged => Diverged
      end
  | inr _ => Thrown (str "Path is not a directory")
  end.

Definition getProjectStructure (E : Env) (args : ProjectStructureArgs) : outcome Reply :=
  rethrow failed_prefix (getProjectStructure_try E args).

(** *** Measures of a tree *)

Fixpoint height_node (n : FileNode) : nat :=
  match n with
  | FileN _ _ _ _ => 1
  | DirN _ _ children _ => S (fold_right (fun c h => Nat.max (height_node c) h) 0 children)
  end.

Definition height (nodes : list FileNode) : nat :=
  fold_right (fun c h => Nat.max (height_node c) h) 0 nodes.

Fixpoint size_node (n : FileNode) : nat :=
  match n with
  | FileN _ _ _ _ => 1
  | DirN _ _ children _ => S (fold_right (fun c s => size_node c + s) 0 children)
  end.

Definition tree_size (nodes : list FileNode) : nat :=
  fold_right (fun c s => size_node c + s) 0 nodes.

(** [P] holds of every node, at every level, given the path of the
    directory the node sits in. *)
Fixpoint everywhere (P : jsstring -> FileNode -> Prop) (parent : jsstring)
    (n : FileNode) : Prop :=
  P parent n /\
  match n with
  | FileN _ _ _ _ => True
  | DirN _ p children _ =>
      fold_right (fun c rest => everywhere P p c /\ rest) True children
  end.

Definition everywhere_in (P : jsstring -> FileNode -> Prop) (parent : jsstring)
    (nodes : list FileNode) : Prop :=
  fold_right (fun c rest => everywhere P parent c /\ rest) True nodes.

(** No file stands before a directory. *)
Definition directories_first (nodes : list FileNode) : Prop :=
  StronglySorted (fun a b => is_directory a = false -> is_directory b = false) nodes.

End ProjectStructure.

(** ** More of [String.prototype] *)

Module JSString.
Import JS.

(** [s.trimStart()] *)
Fixpoint trimStart (s : jsstring) : jsstring :=
  match s with
  | [] => []
  | c :: s' => if is_trim_space c then trimStart s' else s
  end.

(** [s.trimEnd()] *)
Definition trimEnd (s : jsstring) : jsstring := rev (trimStart (rev s)).

(** [s.trim()] *)
Definition trim (s : jsstring) : jsstring := trimEnd (trimStart s).

(** [s.includes(p)] *)
Fixpoint includes (s p : jsstring) : bool :=
  startsWith s p || match s with
                    | [] => false
                    | _ :: s' => includes s' p
                    end.

(** [s.substring(0, n)] and [s.substring(n)] for a constant [n]. *)
Definition substring_to (n : nat) (s : jsstring) : jsstring := firstn n s.
Definition substring_from (n : nat) (s : jsstring) : jsstring := skipn n s.

(** A string in a condition: the empty one is falsy. *)
Definition truthy (s : jsstring) : bool :=
  match s with [] => false | _ => true end.

End JSString.

(** ** [tools/gitContext.ts] *)

Module GitContext.
Import JS JSString.

(** The arguments of one [execFile('git', args)]. *)
Definition command := list jsstring.

(** What the tool meets outside: [git], run in a directory with some
    arguments, gives its standard output or fails with a message (a
    non-zero exit, no [git], more output than [maxBuffer]); [parseInt]
    gives an integer or, for [None], [NaN]. Counts are taken as the
    integers they denote, which is what the engine computes with below
    2^53. *)
Record Env : Type := {
  git : jsstring -> command -> jsstring + jsstring;
  parseInt : jsstring -> option Z
}.

(** Calls in sequence, with the commands run so far. *)
Definition M (A : Type) : Type := list command -> outcome A * list command.

Definition ret {A} (a : A) : M A := fun log => (Returned a, log).

Definition throw {A} (m : jsstring) : M A := fun log => (Thrown m, log).

Definition bind {A B} (m : M A) (f : A -> M B) : M B :=
  fun log =>
    match m log with
    | (Returned a, log') => f a log'
    | (Thrown e, log') => (Thrown e, log')
    | (Diverged, log') => (Diverged, log')
    end.

(** [try { m } catch (error) { handler(error.message) }] *)
Definition try_catch {A} (m : M A) (handler : jsstring -> M A) : M A :=
  fun log =>
    match m log with
    | (Thrown e, log') => handler e log'
    | other => other
    end.

Notation "x <- m ;; k" := (bind m (fun x => k))
  (at level 61, m at next level, right associativity).

Definition command_failed : jsstring := str "Git command failed: ".

Definition gitCommand (E : Env) (cwd : jsstring) (args : command) : M jsstring :=
  fun log =>
    match git E cwd args with
    | inr stdout => (Returned (trim stdout), log ++ [args])
    | inl m => (Thrown (command_failed ++ m), log ++ [args])
    end.

Definition cmd_git_dir : command := [str "rev-parse"; str "--git-dir"].

Definition isGitRepo (E : Env) (projectPath : jsstring) : M bool :=
  try_catch (_ <- gitCommand E projectPath cmd_git_dir ;; ret true)
            (fun _ => ret false).

(** *** Recent commits *)

Record GitCommit : Type := {
  hash : jsstring;
  author : jsstring;
  date : jsstring;
  message : jsstring
}.

Definition record_separator : N := 30.   (* \x1e *)
Definition unit_separator : N := 31.     (* \x1f *)

Definition log_format : jsstring := str "%H%x1f%an%x1f%ai%x1f%s%x1e".

Definition cmd_log (count : Z) : command :=
  [str "log"; str "-" ++ decimal (Z.to_N count); str "--pretty=format:" ++ log_format].

(** One turn of the loop over the entries: the first four fields, which
    must all be there and not empty. *)
Definition commit_of_entry (entry : jsstring) : list GitCommit :=
  match split_on unit_separator entry with
  | h :: a :: d :: m :: _ =>
      if truthy h && truthy a && truthy d && truthy m
      then [{| hash := h; author := a; date := d; message := trim m |}]
      else []
  | _ => []
  end.

Definition parse_commits (output : jsstring) : list GitCommit :=
  flat_map commit_of_entry (filter truthy (split_on record_separator output)).

Definition getRecentCommits (E : Env) (projectPath : jsstring) (count : Z)
  : M (list GitCommit) :=
  output <- gitCommand E projectPath (cmd_log count) ;;
  ret (parse_commits output).

(** *** Status *)

Record StatusLists : Type := {
  modified : list jsstring;
  added : list jsstring;
  deleted : list jsstring;
  untracked : list jsstring
}.

Record GitStatus : Type := {
  branch : jsstring;
  ahead : option Z;                  (* None: NaN *)
  behind : option Z;
  lists : StatusLists
}.

Definition no_files : StatusLists :=
  {| modified := []; added := []; deleted := []; untracked := [] |}.

Definition c_M : N := 77.
Definition c_A : N := 65.
Definition c_D : N := 68.

(** One turn of the loop over the status lines. *)
Definition push_status (acc : StatusLists) (line : jsstring) : StatusLists :=
  let status := substring_to 2 line in
  let file := substring_from 3 line in
  if JS.eqb status (str "??") then
    {| modified := modified acc; added := added acc; deleted := deleted acc;
       untracked := untracked acc ++ [file] |}
  else if includes status [c_M] then
    {| modified := modified acc ++ [file]; added := added acc; deleted := deleted acc;
       untracked := untracked acc |}
  else if includes status [c_A] then
    {| modified := modified acc; added := added acc ++ [file]; deleted := deleted acc;
       untracked := untracked acc |}
  else if includes status [c_D] then
    {| modified := modified acc; added := added acc; deleted := deleted acc ++ [file];
       untracked := untracked acc |}
  else acc.

(** [output.split('\n').filter(l => l.trim())] *)
Definition nonblank_lines (output : jsstring) : list jsstring :=
  filter (fun l => truthy (trim l)) (split_on 10 output).

Definition parse_status (statusOutput : jsstring) : StatusLists :=
  fold_left push_status (nonblank_lines statusOutput) no_files.

Definition cmd_branch : command := [str "rev-parse"; str "--abbrev-ref"; str "HEAD"].
Definition cmd_ahead_behind : command :=
  [str "rev-list"; str "--left-right"; str "--count"; str "HEAD...@{upstream}"].
Definition cmd_status : command := [str "status"; str "--porcelain"].

Definition parse_counts (E : Env) (counts : jsstring) : option Z * option Z :=
  match split_on 9 counts with
  | [a; b] => (parseInt E a, parseInt E b)
  | _ => (Some 0%Z, Some 0%Z)
  end.

Definition getGitStatus (E : Env) (projectPath : jsstring) : M GitStatus :=
  branch_ <- gitCommand E projectPath cmd_branch ;;
  ab <- try_catch (counts <- gitCommand E projectPath cmd_ahead_behind ;;
                   ret (parse_counts E counts))
                  (fun _ => ret (Some 0%Z, Some 0%Z)) ;;
  statusOutput <- gitCommand E projectPath cmd_status ;;
  ret {| branch := branch_; ahead := fst ab; behind := snd ab;
         lists := parse_status statusOutput |}.

(** *** Diff *)

Definition cmd_diff_cached : command := [str "diff"; str "--cached"].
Definition cmd_diff : command := [str "diff"].

Definition getGitDiff (E : Env) (projectPath : jsstring) : M jsstring :=
  try_catch
    (stagedDiff <- gitCommand E projectPath cmd_diff_cached ;;
     unstagedDiff <- gitCommand E projectPath cmd_diff ;;
     ret (str "# Staged Changes" ++ [10%N] ++ stagedDiff ++ [10%N; 10%N]
            ++ str "# Unstaged Changes" ++ [10%N] ++ unstagedDiff))
    (fun _ => ret []).

(** *** Changed files *)

Record ChangedFile : Type := { file : jsstring; changes : Z }.

(** [x || 0]: [NaN] and 0 both give 0. *)
Definition or_zero (x : option Z) : Z :=
  match x with Some z => z | None => 0%Z end.

Definition numstat_entry (E : Env) (line : jsstring) : list ChangedFile :=
  match split_on 9 line with
  | a :: d :: f :: _ =>
      [{| file := f; changes := (or_zero (parseInt E a) + or_zero (parseInt E d))%Z |}]
  | _ => []
  end.

(** The comparator of [files.sort]. *)
Definition more_changes_first (a b : ChangedFile) : Z := (changes b - changes a)%Z.

Definition parse_numstat (E : Env) (output : jsstring) : list ChangedFile :=
  StableSort.sort more_changes_first (flat_map (numstat_entry E) (nonblank_lines output)).

Definition cmd_numstat (commitCount : Z) : command :=
  [str "diff"; str "--numstat";
   str "HEAD~" ++ decimal (Z.to_N commitCount) ++ str "..HEAD"].

Definition getChangedFiles (E : Env) (projectPath : jsstring) (commitCount : Z)
  : M (list ChangedFile) :=
  try_catch
    (output <- gitCommand E projectPath (cmd_numstat commitCount) ;;
     ret (parse_numstat E output))
    (fun _ => ret []).

(** *** The tool *)

(** A [commitCount] as it is passed in: an integer, or anything
    [Number.isInteger] refuses (a fraction, [NaN], an infinity, a value
    that is no number). *)
Inductive count_arg : Type :=
| Integer : Z -> count_arg
| NotInteger : count_arg.

Record GitContextArgs : Type := {
  projectPath : jsstring;
  includeDiff : option bool;         (* default: true *)
  commitCount : option count_arg     (* default: 10 *)
}.

Definition MAX_COMMIT_COUNT : Z := 100.

Definition safeCommitCount (args : GitContextArgs) : Z :=
  match commitCount args with
  | None => Z.min (Z.max 10 1) MAX_COMMIT_COUNT
  | Some (Integer n) => Z.min (Z.max n 1) MAX_COMMIT_COUNT
  | Some NotInteger => 10
  end.

Record Reply : Type := {
  repository_branch : jsstring;
  repository_ahead : option Z;
  repository_behind : option Z;
  status : StatusLists;
  recentCommits : list GitCommit;
  changedFiles : list ChangedFile;
  diff : option jsstring;            (* None: undefined, left out of the JSON *)
  totalCommits : nat;
  filesWithChanges : nat;
  untrackedFiles : nat
}.

Definition msg_not_repo : jsstring := str "Not a git repository".
Definition failed_prefix : jsstring := str "Failed to get git context: ".

Definition getGitContext_try (E : Env) (args : GitContextArgs) : M Reply :=
  let cwd := projectPath args in
  let withDiff := match includeDiff args with Some b => b | None => true end in
  let n := safeCommitCount args in
  repo <- isGitRepo E cwd ;;
  if negb repo then throw msg_not_repo
  else
    commits <- getRecentCommits E cwd n ;;
    st <- getGitStatus E cwd ;;
    changed <- getChangedFiles E cwd n ;;
    diff_ <- (if withDiff then getGitDiff E cwd else ret []) ;;
    ret {| repository_branch := branch st;
           repository_ahead := ahead st;
           repository_behind := behind st;
           status := lists st;
           recentCommits := commits;
           changedFiles := slice 0 20 changed;
           diff := if withDiff then Some diff_ else None;
           totalCommits := length commits;
           filesWithChanges := length (modified (lists st)) + length (added (lists st))
                               + length (deleted (lists st));
           untrackedFiles := length (untracked (lists st)) |}.

(** The result of a request and the commands it ran, in order. *)
Definition getGitContext (E : Env) (args : GitContextArgs)
  : outcome Reply * list command :=
  let r := getGitContext_try E args [] in
  (rethrow failed_prefix (fst r), snd r).

(** What the numstat command gave, line by line, before the sort. *)
Definition numstat_items (E : Env) (args : GitContextArgs) : list ChangedFile :=
  match git E (projectPath args) (cmd_numstat (safeCommitCount args)) with
  | inr stdout => flat_map (numstat_entry E) (nonblank_lines (trim stdout))
  | inl _ => []
  end.

(** The commands of a request, in the order in which it runs them. *)
Definition command_sequence (n : Z) : list command :=
  [cmd_git_dir; cmd_log n; cmd_branch; cmd_ahead_behind; cmd_status; cmd_numstat n;
   cmd_diff_cached; cmd_diff].

(** The commands whose failure is not caught on the way. *)
Definition fatal_commands (n : Z) : list command :=
  [cmd_git_dir; cmd_log n; cmd_branch; cmd_status].

End GitContext.

(** ** What [git] prints *)

Module GitOutput.
Import JS GitContext.

(** [git status --porcelain]: per entry the two status letters, a space
    and the path, each line ended by a line feed. *)
Record status_entry : Type := { X : N; Y : N; path_of : jsstring }.

Definition porcelain_line (e : status_entry) : jsstring :=
  X e :: Y e :: 32%N :: path_of e.

Definition porcelain (entries : list status_entry) : jsstring :=
  flat_map (fun e => porcelain_line e ++ [10%N]) entries.

(** The list a status entry belongs to, read off its two letters. *)
Inductive bucket : Type := Untracked | Modified | Added | Deleted.

Definition bucket_of (x y : N) : option bucket :=
  if N.eqb x 63 && N.eqb y 63 then Some Untracked
  else if N.eqb x 77 || N.eqb y 77 then Some Modified
  else if N.eqb x 65 || N.eqb y 65 then Some Added
  else if N.eqb x 68 || N.eqb y 68 then Some Deleted
  else None.

Definition in_bucket (b : bucket) (x y : N) : bool :=
  match bucket_of x y, b with
  | Some Untracked, Untracked | Some Modified, Modified
  | Some Added, Added | Some Deleted, Deleted => true
  | _, _ => false
  end.

Definition files_in (b : bucket) (entries : list status_entry) : list jsstring :=
  map path_of (filter (fun e => in_bucket b (X e) (Y e)) entries).

Definition lists_of (entries : list status_entry) : StatusLists :=
  {| modified := files_in Modified entries;
     added := files_in Added entries;
     deleted := files_in Deleted entries;
     untracked := files_in Untracked entries |}.

(** A path that is not empty, holds no line feed and does not end in
    white space, behind two letters that are no line feeds. *)
Definition plain_entry (e : status_entry) : Prop :=
  ~ In 10%N (porcelain_line e)
  /\ path_of e <> []
  /\ JSString.trimEnd (path_of e) = path_of e.

(** [git log --pretty=format:...] with the format of [getRecentCommits]:
    per commit the four fields, a unit separator between them and a
    record separator behind them; [format:] puts a line feed between the
    commits. *)
Definition log_fields (leading : jsstring) (c : GitCommit) : jsstring :=
  leading ++ hash c ++ [unit_separator] ++ author c ++ [unit_separator] ++ date c
    ++ [unit_separator] ++ message c.

Definition log_record (c : GitCommit) : jsstring :=
  log_fields [] c ++ [record_separator].

Definition log_output (commits : list GitCommit) : jsstring :=
  join [10%N] (map log_record commits).

(** Fields that are not empty and hold neither separator. *)
Definition plain_field (f : jsstring) : Prop :=
  f <> [] /\ ~ In unit_separator f /\ ~ In record_separator f.

Definition plain_commit (c : GitCommit) : Prop :=
  plain_field (hash c) /\ plain_field (author c) /\ plain_field (date c)
  /\ plain_field (message c).

(** A commit as it is reported: the message trimmed, the hash behind
    whatever stood between the record and the one before it. *)
Definition as_reported (leading : jsstring) (c : GitCommit) : GitCommit :=
  {| hash := leading ++ hash c; author := author c; date := date c;
     message := JSString.trim (message c) |}.

Definition commits_reported (commits : list GitCommit) : list GitCommit :=
  match commits with
  | [] => []
  | c :: rest => as_reported [] c :: map (as_reported [10%N]) rest
  end.

End GitOutput.

(** ** [tools/codeGraph.ts] *)

Module CodeGraph.
Import JS JSString.

Inductive import_type : Type := ESM | CommonJS | Python | Unknown.

Record ImportInfo : Type := {
  source : jsstring;
  imported : list jsstring;
  import_kind : import_type
}.

Record FileAnalysis : Type := {
  path : jsstring;
  imports : list ImportInfo;
  exports : list jsstring;
  functions : list jsstring;
  classes : list jsstring
}.

Inductive node_type : Type := TFile | TExternal.

Record Node : Type := { id : jsstring; label : jsstring; type_of : node_type }.

(** An edge; its [type] is always ['import']. *)
Record Edge : Type := { edge_from : jsstring; edge_to : jsstring }.

(** The [nodes] map: keys in insertion order, a key set again keeps its
    place. *)
Definition node_map := list (jsstring * Node).

Fixpoint map_has (m : node_map) (k : jsstring) : bool :=
  match m with
  | [] => false
  | (k', _) :: m' => JS.eqb k' k || map_has m' k
  end.

Fixpoint map_set (m : node_map) (k : jsstring) (v : Node) : node_map :=
  match m with
  | [] => [(k, v)]
  | (k', v') :: m' => if JS.eqb k' k then (k, v) :: m' else (k', v') :: map_set m' k v
  end.

(** [source.replace(/^\.\//, '').replace(/\.js$/, '')] *)
Definition strip_dot_slash (s : jsstring) : jsstring :=
  if startsWith s (str "./") then skipn 2 s else s.

Definition strip_js (s : jsstring) : jsstring :=
  if endsWith s (str ".js") then firstn (length s - 3) s else s.

Definition import_target (s : jsstring) : jsstring := strip_js (strip_dot_slash s).

Definition isRelative (imp : ImportInfo) : bool :=
  startsWith (source imp) (str ".") || startsWith (source imp) (str "/").

Definition file_node (basename : jsstring -> jsstring) (p : jsstring) : Node :=
  {| id := p; label := basename p; type_of := TFile |}.

Definition external_node (s : jsstring) : Node :=
  {| id := s; label := s; type_of := TExternal |}.

(** The first loop: a node for every analysed file. *)
Definition file_nodes (basename : jsstring -> jsstring) (analyses : list FileAnalysis)
  : node_map :=
  fold_left (fun nodes analysis =>
               map_set nodes (path analysis) (file_node basename (path analysis)))
            analyses [].

(** The body of the inner loop of the second pass. *)
Definition add_import (analyses : list FileAnalysis) (includeExternal : bool)
    (analysis : FileAnalysis) (state : node_map * list Edge) (imp : ImportInfo)
  : node_map * list Edge :=
  let (nodes, edges) := state in
  if isRelative imp then
    match find (fun a => includes (path a) (import_target (source imp))) analyses with
    | Some resolved =>
        (nodes, edges ++ [{| edge_from := path analysis; edge_to := path resolved |}])
    | None => state
    end
  else if includeExternal then
    (if map_has nodes (source imp) then nodes
     else map_set nodes (source imp) (external_node (source imp)),
     edges ++ [{| edge_from := path analysis; edge_to := source imp |}])
  else state.

Definition add_imports (analyses : list FileAnalysis) (includeExternal : bool)
    (state : node_map * list Edge) (analysis : FileAnalysis) : node_map * list Edge :=
  fold_left (add_import analyses includeExternal analysis) (imports analysis) state.

Record Graph : Type := { nodes : list Node; edges : list Edge }.

Definition buildDependencyGraph (basename : jsstring -> jsstring)
    (analyses : list FileAnalysis) (includeExternal : bool) : Graph :=
  let final := fold_left (add_imports analyses includeExternal) analyses
                         (file_nodes basename analyses, []) in
  {| nodes := map snd (fst final); edges := snd final |}.

(** The file system, [path], the five scans with regular expressions,
    which are left to the engine, and which of several failing reads is
    the first to fail. *)
Record Env : Type := {
  readFile : jsstring -> jsstring + jsstring;
  extname : jsstring -> jsstring;
  basename : jsstring -> jsstring;
  parseJSImports : jsstring -> list ImportInfo;
  parsePythonImports : jsstring -> list ImportInfo;
  parseJSExports : jsstring -> list jsstring;
  parseFunctions : jsstring -> jsstring -> list jsstring;
  parseClasses : jsstring -> jsstring -> list jsstring;
  race : list jsstring -> nat
}.

Definition js_extensions : list jsstring :=
  [str ".js"; str ".ts"; str ".jsx"; str ".tsx"].

Definition analyzeFile (E : Env) (filePath : jsstring) : outcome FileAnalysis :=
  match readFile E filePath with
  | inl m => Thrown m
  | inr content =>
      let ext := extname E filePath in
      let js := existsb (JS.eqb ext) js_extensions in
      Returned
        {| path := filePath;
           imports := if js then parseJSImports E content
                      else if JS.eqb ext (str ".py") then parsePythonImports E content
                      else [];
           exports := if js then parseJSExports E content else [];
           functions := parseFunctions E content ext;
           classes := parseClasses E content ext |}
  end.

(** [Promise.all(files.map(analyzeFile))]: all the analyses, in the order
    of the files, or the error of the file whose analysis is the first to
    fail. *)
Definition analyze_all (E : Env) (files : list jsstring) : outcome (list FileAnalysis) :=
  promise_all (race E) (map (analyzeFile E) files).

Record CodeGraphArgs : Type := {
  files : list jsstring;
  includeExternalDeps : option bool    (* default: false *)
}.

Record Metrics : Type := {
  totalFiles : nat;
  totalImports : nat;
  totalExports : nat;
  totalFunctions : nat;
  totalClasses : nat;
  externalDependencies : nat
}.

Record Reply : Type := {
  analyses : list FileAnalysis;
  graph : Graph;
  metrics : Metrics
}.

Definition is_external (n : Node) : bool :=
  match type_of n with TExternal => true | TFile => false end.

Definition total {A} (f : FileAnalysis -> list A) (l : list FileAnalysis) : nat :=
  fold_left (fun sum a => sum + length (f a)) l 0.

Definition failed_prefix : jsstring := str "Failed to analyze code graph: ".

Definition analyzeCodeGraph (E : Env) (args : CodeGraphArgs) : outcome Reply :=
  let includeExternal :=
    match includeExternalDeps args with Some b => b | None => false end in
  rethrow failed_prefix
    match analyze_all E (files args) with
    | Returned all =>
        let g := buildDependencyGraph (basename E) all includeExternal in
        Returned
          {| analyses := all;
             graph := g;
             metrics :=
               {| totalFiles := length (files args);
                  totalImports := total imports all;
                  totalExports := total exports all;
                  totalFunctions := total functions all;
                  totalClasses := total classes all;
                  externalDependencies := length (filter is_external (nodes g)) |} |}
    | Thrown m => Thrown m
    | Diverged => Diverged
    end.

(** The sources of the imports that are not relative. *)
Definition external_sources (l : list FileAnalysis) : list jsstring :=
  flat_map (fun a => map source (filter (fun imp => negb (isRelative imp)) (imports a))) l.

(** What holds of the [nodes] map and of the edges all the way through
    the second pass. *)
Section Invariant.

Variable basename_ : jsstring -> jsstring.
Variable all : list FileAnalysis.
Variable includeExternal : bool.

Definition good_nodes (m : node_map) : Prop :=
  NoDup (map fst m)
  /\ forall k n, In (k, n) m ->
       (n = file_node basename_ k /\ In k (map path all))
       \/ (n = external_node k /\ includeExternal = true /\ ~ In k (map path all)
           /\ In k (external_sources all)).

Definition good_state (state : node_map * list Edge) : Prop :=
  good_nodes (fst state)
  /\ (forall p, In p (map path all) -> In p (map fst (fst state)))
  /\ Forall (fun e => In (edge_from e) (map path all)
                      /\ In (edge_to e) (map fst (fst state)))
            (snd state).

End Invariant.

End CodeGraph.

(** ** [tools/smartSelection.ts] *)

Module SmartSelection.
Import JS JSString.

Record Stats : Type := { isDirectory : bool; size : N }.

(** The platform and the two helpers of the file: [getAllFiles] (glob and
    the ignore filter) gives the relative paths or fails;
    [scoreFileRelevance] gives an integer; [race] tells which of several
    failing [stat] calls is the first to fail. *)
Record Env : Type := {
  isAbsolute : jsstring -> bool;
  stat : jsstring -> jsstring + Stats;
  getAllFiles : jsstring -> jsstring + list jsstring;
  scoreFileRelevance : jsstring -> jsstring -> Z;
  path_join : jsstring -> jsstring -> jsstring;
  extname : jsstring -> jsstring;
  race : list jsstring -> nat
}.

(** A [maxFiles] as it is passed in: an integer, or anything
    [Number.isInteger] refuses. *)
Inductive number_arg : Type :=
| Int : Z -> number_arg
| NoInt : number_arg.

Record SmartSelectionArgs : Type := {
  projectPath : jsstring;
  taskDescription : option jsstring;   (* None: undefined *)
  maxFiles : option number_arg         (* default: 20 *)
}.

Record Scored : Type := { scored_path : jsstring; scored_score : Z }.

Record Selected : Type := {
  sel_path : jsstring;
  sel_score : Z;
  sel_size : N;
  sel_extension : jsstring
}.

Record Reply : Type := {
  reply_task : option jsstring;
  selectedFiles : list Selected;
  totalScanned : nat;
  selectedCount : nat;
  totalSize : N
}.

(** The comparator of the sort. *)
Definition higher_score_first (a b : Scored) : Z := (scored_score b - scored_score a)%Z.

(** [allFiles.map(...).filter(...).sort(...).slice(0, maxFiles)] *)
Definition rank (E : Env) (task : jsstring) (limit : Z) (allFiles : list jsstring)
  : list Scored :=
  slice 0 (Z.to_nat limit)
    (StableSort.sort higher_score_first
       (filter (fun item => Z.ltb 0 (scored_score item))
          (map (fun f => {| scored_path := f;
                            scored_score := scoreFileRelevance E f task |})
               allFiles))).

(** One of the promises handed to [Promise.all]. *)
Definition file_info (E : Env) (root : jsstring) (item : Scored) : outcome Selected :=
  match stat E (path_join E root (scored_path item)) with
  | inl m => Thrown m
  | inr stats =>
      Returned {| sel_path := scored_path item;
                  sel_score := scored_score item;
                  sel_size := size stats;
                  sel_extension := extname E (scored_path item) |}
  end.

(** [Promise.all]: all the results, in the order of the items, or the
    error of the item whose [stat] is the first to fail. *)
Definition all_info (E : Env) (root : jsstring) (items : list Scored)
  : outcome (list Selected) :=
  promise_all (race E) (map (file_info E root) items).

Definition msg_path_required : jsstring := str "projectPath is required".
Definition msg_absolute : jsstring := str "projectPath must be an absolute path".
Definition msg_directory : jsstring := str "projectPath must be a directory".
Definition msg_maxFiles : jsstring := str "maxFiles must be a positive integer".
Definition failed_prefix : jsstring := str "Failed to perform smart file selection: ".

(** [maxFiles] when it is a positive integer. *)
Definition limit_of (args : SmartSelectionArgs) : option Z :=
  match maxFiles args with
  | None => Some 20%Z
  | Some (Int n) => if Z.leb n 0 then None else Some n
  | Some NoInt => None
  end.

Definition smartFileSelection_try (E : Env) (args : SmartSelectionArgs) : outcome Reply :=
  match projectPath args with
  | [] => Thrown msg_path_required
  | _ =>
      if negb (isAbsolute E (projectPath args)) then Thrown msg_absolute
      else
        match stat E (projectPath args) with
        | inl m => Thrown m
        | inr stats =>
            if negb (isDirectory stats) then Thrown msg_directory
            else
              match limit_of args with
              | None => Thrown msg_maxFiles
              | Some limit =>
                  let trimmedTask := option_map trim (taskDescription args) in
                  match trimmedTask with
                  | None | Some [] =>
                      Returned {| reply_task := trimmedTask; selectedFiles := [];
                                  totalScanned := 0; selectedCount := 0; totalSize := 0 |}
                  | Some task =>
                      match getAllFiles E (projectPath args) with
                      | inl m => Thrown m
                      | inr allFiles =>
                          match all_info E (projectPath args)
                                  (rank E task limit allFiles) with
                          | Returned selected =>
                              Returned
                                {| reply_task := trimmedTask;
                                   selectedFiles := selected;
                                   totalScanned := length allFiles;
                                   selectedCount := length selected;
                                   totalSize :=
                                     fold_left (fun sum f => (sum + sel_size f)%N)
                                               selected 0%N |}
                          | Thrown m => Thrown m
                          | Diverged => Diverged
                          end
                      end
                  end
              end
        end
  end.

Definition smartFileSelection (E : Env) (args : SmartSelectionArgs) : outcome Reply :=
  rethrow failed_prefix (smartFileSelection_try E args).

(** The task the files are scored against, and the files that were
    listed. *)
Definition task_of (args : SmartSelectionArgs) : jsstring :=
  match taskDescription args with Some t => trim t | None => [] end.

Definition scanned (E : Env) (args : SmartSelectionArgs) : list jsstring :=
  match getAllFiles E (projectPath args) with inr l => l | inl _ => [] end.

End SmartSelection.

(** ** The project structure resource, in its two revisions *)

Module ProjectResource.
Import JS ProjectStructure.

(** [new URL(uri)] and [url.searchParams.get('path')]: an error, or the
    value of the parameter ([None]: [null]). *)
Record Env : Type := {
  parse_path_param : jsstring -> jsstring + option jsstring;
  tool : ProjectStructure.Env
}.

(** The reply; [text] is the reply of the tool, whose JSON text is
    passed on as it is. *)
Record Contents : Type := {
  uri : jsstring;
  mimeType : jsstring;
  text : ProjectStructure.Reply
}.

Definition msg_path_required : jsstring := str "Project path is required".

(** The arguments of the call [getProjectStructure({ path })]. *)
Definition tool_args (projectPath : jsstring) : ProjectStructureArgs :=
  {| path := projectPath; maxDepth_arg := None; includeHidden_arg := None |}.

(** The statements both revisions share. *)
Definition getProjectResource_body (E : Env) (uri_ : jsstring) : outcome Contents :=
  match parse_path_param E uri_ with
  | inl m => Thrown m
  | inr None => Thrown msg_path_required
  | inr (Some []) => Thrown msg_path_required
  | inr (Some projectPath) =>
      match getProjectStructure (tool E) (tool_args projectPath) with
      | Returned result =>
          Returned {| uri := uri_; mimeType := str "application/json"; text := result |}
      | Thrown m => Thrown m
      | Diverged => Diverged
      end
  end.

(** [resources/index.ts]: no [try] around them. *)
Definition getProjectResource_earlier (E : Env) (uri_ : jsstring) : outcome Contents :=
  getProjectResource_body E uri_.

(** The later revision: inside [try], and the [catch] puts the prefix of
    the tool before the message. *)
Definition getProjectResource (E : Env) (uri_ : jsstring) : outcome Contents :=
  rethrow ProjectStructure.failed_prefix (getProjectResource_body E uri_).

End ProjectResource.

(** * Small worlds

    Concrete environments on which the functions above can be run. *)

Module Worlds.

(** A toy engine for literal patterns: it drops the backslashes of
    [escape_query] and looks for the next occurrence from [lastIndex]. *)
Fixpoint unescape (src : jsstring) : jsstring :=
  match src with
  | [] => []
  | c :: rest =>
      if N.eqb c 92 then
        match rest with
        | d :: rest' => d :: unescape rest'
        | [] => []
        end
      else c :: unescape rest
  end.

Fixpoint find_at (pat s : jsstring) (offset : nat) : option nat :=
  match s with
  | [] => match pat with [] => Some offset | _ => None end
  | _ :: s' => if startsWith s pat then Some offset else find_at pat s' (S offset)
  end.

Definition literal_exec (src subject : jsstring) (lastIndex : nat)
  : option (nat * jsstring) :=
  if Nat.ltb (length subject) lastIndex then None
  else match find_at (unescape src) (skipn lastIndex subject) lastIndex with
       | Some i => Some (i, unescape src)
       | None => None
       end.

(** One project directory [/p] with the files given, all readable. *)
Definition search_world (files : list (jsstring * jsstring)) : Search.Env :=
  {| Search.isAbsolute := fun p => startsWith p [47%N];
     Search.stat_isDirectory := fun p =>
       if JS.eqb p (str "/p") then inr true else inl (str "ENOENT");
     Search.getMatchingFiles := fun _ _ => inr (map fst files);
     Search.readFile := fun f =>
       match find (fun kv => JS.eqb (fst kv) f) files with
       | Some kv => inr (snd kv)
       | None => inl (str "ENOENT: no such file or directory")
       end;
     Search.relative := fun from to_ => skipn (S (length from)) to_;
     Search.regexp_syntax_error := fun _ => None;
     Search.regexp_exec := literal_exec |}.

(** A file of one line, [aaa...a], 120 characters. *)
Definition long_file : list (jsstring * jsstring) :=
  [(str "/p/a.txt", repeat_unit 97 120)].


(** A regex search with the textbook nested quantifier. *)
Definition unsafe_request : Search.SearchArgs :=
  {| Search.projectPath := str "/p";
     Search.query := str "(a+)+";
     Search.searchType_arg := Some Search.TRegex;
     Search.filePattern := None |}.

(** A POSIX file system given by its symbolic links (path, where it
    really leads) and its files; the URL parser hands back [url]. *)
Definition lookup {A} (table : list (jsstring * A)) (p : jsstring) : option A :=
  match find (fun kv => JS.eqb (fst kv) p) table with
  | Some kv => Some (snd kv)
  | None => None
  end.

Definition file_world (url : FileResource.URL)
    (links : list (jsstring * jsstring))
    (files : list (jsstring * (FileResource.Stats * jsstring))) : FileResource.Sys :=
  {| FileResource.parse_url := fun _ => inr url;
     FileResource.decodeURIComponent := fun p => inr p;
     FileResource.win32 := false;
     FileResource.sep := 47%N;
     FileResource.resolve := fun p => p;
     FileResource.realpath := fun p =>
       match lookup links p with Some q => inr q | None => inr p end;
     FileResource.stat := fun p =>
       match lookup files p with
       | Some sc => inr (fst sc)
       | None => inl (str "ENOENT: no such file or directory")
       end;
     FileResource.readFile := fun p =>
       match lookup files p with
       | Some sc => inr (snd sc)
       | None => inl (str "ENOENT: no such file or directory")
       end;
     FileResource.extname_lower := fun _ => str ".txt";
     FileResource.race := fun _ => 0 |}.

Definition regular (sz : N) : FileResource.Stats :=
  {| FileResource.isFile := true;
     FileResource.size := sz;
     FileResource.mtime_iso := str "2025-01-01T00:00:00.000Z" |}.

Definition file_url (path : string) (root : option jsstring) : FileResource.URL :=
  {| FileResource.hostname := str "file";
     FileResource.pathname := str path;
     FileResource.root_param := root |}.

(** [/a/b/c] is a small file, [/a/b/big] holds 3 MiB, [/a/b/link] leads
    out of [/a/b], and [/etc/passwd] lies outside. *)
Definition disk : list (jsstring * (FileResource.Stats * jsstring)) :=
  [ (str "/a/b/c", (regular 5, str "hello"));
    (str "/a/b/big", (regular (3 * 1024 * 1024), str "..."));
    (str "/a/b/link", (regular 4, str "root"));
    (str "/etc/passwd", (regular 4, str "root")) ].

Definition links : list (jsstring * jsstring) :=
  [ (str "/a/b/link", str "/etc/passwd") ].

(** Providers of a directory that is not a git repository, and a digest
    that repeats its input. *)
Definition providers : ContextCache.Env :=
  {| ContextCache.digest := fun s => s;
     ContextCache.getProjectStructure := fun _ _ =>
       inr (ContextCache.JObj [(str "tree", ContextCache.JArr [])]);
     ContextCache.getGitContext := fun _ _ _ =>
       inl (str "Error: Failed to get git context: Not a git repository");
     ContextCache.smartFileSelection := fun _ task _ =>
       inr (ContextCache.JArr [ContextCache.JStr task]) |}.

(** Providers that all fail. *)
Definition failing_providers : ContextCache.Env :=
  {| ContextCache.digest := fun s => s;
     ContextCache.getProjectStructure := fun _ _ =>
       inl (str "Error: Failed to get project structure: Path is not a directory");
     ContextCache.getGitContext := fun _ _ _ =>
       inl (str "Error: Failed to get git context: Not a git repository");
     ContextCache.smartFileSelection := fun _ _ _ =>
       inl (str "Error: Failed to select files") |}.

Definition at_time (t : Z) : ContextCache.Times :=
  {| ContextCache.now_lookup := t;
     ContextCache.generated_iso := decimal (Z.to_N t);
     ContextCache.now_store := t |}.

(** A request that brings a hash the map does not know, and the same
    request without a hash. *)
Definition request_with_stale_hash : ContextCache.ContextRequest :=
  {| ContextCache.providedHash := Some (str "0123abcd");
     ContextCache.path_param := Some (str "/p");
     ContextCache.task_param := None |}.

Definition request_without_hash : ContextCache.ContextRequest :=
  {| ContextCache.providedHash := None;
     ContextCache.path_param := Some (str "/p");
     ContextCache.task_param := None |}.

(** Fifty entries, keys "0" to "49", created one millisecond apart from
    1000 on. *)
Definition full_cache : ContextCache.cache :=
  map (fun i => (decimal (N.of_nat i),
                 {| ContextCache.timestamp := 1000 + Z.of_nat i;
                    ContextCache.data := [] |}))
      (seq 0 50).

Definition world_of (path : string) (root : option jsstring) : FileResource.Sys :=
  file_world (file_url path root) links disk.

End Worlds.

Module CacheWorlds.
Import ContextCache.

(** Requests for the contexts of the projects [/p0], [/p1], ... *)
Definition request_for (i : nat) : ContextRequest :=
  {| providedHash := None;
     path_param := Some (str "/p" ++ decimal (N.of_nat i));
     task_param := None |}.

(** The map after one more request, answered at clock reading [now]. *)
Definition serve (rev : revision) (now : Z) (c : cache) (req : ContextRequest) : cache :=
  snd (getContextResource rev Worlds.providers now (Worlds.at_time now) c req).

(** A server that has answered fifty such requests within the millisecond
    1000. *)
Definition busy_cache (rev : revision) : cache :=
  fold_left (serve rev 1000) (map request_for (seq 0 50)) [].

End CacheWorlds.

Module DigestWorlds.
Import ContextCache.

Local Open Scope N_scope.

(** The two digests of the handlers as Node computes them, for
    environments that run the key derivation for real: the string is
    encoded as UTF-8 (a lone surrogate becomes U+FFFD), hashed with
    SHA-256 (FIPS 180-4) or MD5 (RFC 1321), and written in lower-case
    hexadecimal. Words are 32-bit values held in [N]. *)
















(** *** SHA-256 *)









(** *** MD5 *)









End DigestWorlds.

(** * More small worlds *)

Module MoreWorlds.

(** An engine on which every pattern matches the empty string wherever it
    is asked to look, as [a*] does on a line without [a]. *)
Definition empty_matcher (src subject : jsstring) (lastIndex : nat)
  : option (nat * jsstring) :=
  if Nat.ltb (length subject) lastIndex then None else Some (lastIndex, []).

Definition hanging_world : Search.Env :=
  {| Search.isAbsolute := fun p => startsWith p [47%N];
     Search.stat_isDirectory := fun _ => inr true;
     Search.getMatchingFiles := fun _ _ => inr [str "/p/a.txt"];
     Search.readFile := fun _ => inr (str "bbb");
     Search.relative := fun _ to_ => to_;
     Search.regexp_syntax_error := fun _ => None;
     Search.regexp_exec := empty_matcher |}.

Definition star_request : Search.SearchArgs :=
  {| Search.projectPath := str "/p";
     Search.query := str "a*";
     Search.searchType_arg := Some Search.TRegex;
     Search.filePattern := None |}.

Definition two_files : list (jsstring * jsstring) :=
  [(str "/p/a.txt", str "foo bar" ++ 10%N :: str "x foo foo");
   (str "/p/b.txt", str "no match here")].

Definition foo_request : Search.SearchArgs :=
  {| Search.projectPath := str "/p";
     Search.query := str "foo";
     Search.searchType_arg := None;
     Search.filePattern := None |}.

End MoreWorlds.

Module StructureWorlds.
Import ProjectStructure.

Definition st (sz : N) : jsstring + Stats :=
  inr {| size := sz; mtime_iso := str "2025-01-01T00:00:00.000Z" |}.

(** A project: [src/] with [a.ts] and [deep/x.ts], [README.md], a hidden
    [.env], an ignored [node_modules/], and a link. *)
Definition project : disk_entry :=
  DDir (str "p") (st 0) None
    [ DFile (str "README.md") (st 10);
      DFile (str ".env") (st 3);
      DDir (str "node_modules") (st 0) None [DFile (str "x.js") (st 1)];
      DOther (str "link") (st 0);
      DDir (str "src") (st 0) None
        [ DFile (str "a.ts") (st 5);
          DDir (str "deep") (st 0) None [DFile (str "x.ts") (st 7)] ] ].

(** The same project with a dangling link, whose [stat] fails. *)
Definition project_with_dangling_link : disk_entry :=
  DDir (str "p") (st 0) None
    [ DFile (str "README.md") (st 10);
      DOther (str "broken") (inl (str "ENOENT: no such file or directory")) ].

(** Names compared by their first code unit, enough for a total order on
    the names above. *)
Definition by_first_unit (a b : jsstring) : Z :=
  (Z.of_N (hd 0%N a) - Z.of_N (hd 0%N b))%Z.

Definition world (root : disk_entry) : Env :=
  {| stat_root := fun _ => inr root;
     loadGitignore := fun _ p => inr (JS.eqb p (str "node_modules"));
     localeCompare_of := by_first_unit |}.

Definition request (d : option Z) : ProjectStructureArgs :=
  {| path := str "/p"; maxDepth_arg := d; includeHidden_arg := None |}.

End StructureWorlds.

Module GitWorlds.
Import GitContext GitOutput.

(** [parseInt] on what the fixtures hold: the value of the leading
    decimal digits, [NaN] when there is none. *)
Fixpoint leading_digits (s : jsstring) (acc : option Z) : option Z :=
  match s with
  | c :: s' =>
      if N.leb 48 c && N.leb c 57
      then leading_digits s' (Some (10 * match acc with Some a => a | None => 0 end
                                    + Z.of_N (c - 48))%Z)
      else acc
  | [] => acc
  end.

Definition commit_a : GitCommit :=
  {| hash := str "1a2b3c"; author := str "Ann"; date := str "2025-01-02 10:00:00 +0000";
     message := str "fix the parser" |}.

Definition commit_b : GitCommit :=
  {| hash := str "4d5e6f"; author := str "Bob"; date := str "2025-01-01 09:00:00 +0000";
     message := str "first commit" |}.

Definition staged : list status_entry :=
  [ {| X := 77; Y := 32; path_of := str "src/a.ts" |};
    {| X := 32; Y := 68; path_of := str "old.txt" |};
    {| X := 82; Y := 32; path_of := str "x.ts -> y.ts" |};
    {| X := 63; Y := 63; path_of := str "new.txt" |} ].

Definition unstaged : list status_entry :=
  [ {| X := 32; Y := 77; path_of := str "foo.txt" |};
    {| X := 63; Y := 63; path_of := str "new.txt" |} ].

Definition numstat_text : jsstring :=
  str "3" ++ [9%N] ++ str "1" ++ [9%N] ++ str "src/a.ts" ++ [10%N]
  ++ str "-" ++ [9%N] ++ str "-" ++ [9%N] ++ str "img.png" ++ [10%N]
  ++ str "10" ++ [9%N] ++ str "0" ++ [9%N] ++ str "b.ts" ++ [10%N].

(** A repository with two commits and the given status entries. *)
Definition repository (entries : list status_entry) : Env :=
  {| git := fun _ args =>
       match args with
       | first :: second :: _ =>
           if JS.eqb first (str "log") then inr (log_output [commit_a; commit_b])
           else if JS.eqb first (str "status") then inr (porcelain entries)
           else if JS.eqb first (str "rev-list") then inr (str "1" ++ [9%N] ++ str "2" ++ [10%N])
           else if JS.eqb second (str "--abbrev-ref") then inr (str "main" ++ [10%N])
           else if JS.eqb second (str "--git-dir") then inr (str ".git" ++ [10%N])
           else if JS.eqb second (str "--numstat") then inr numstat_text
           else inr []
       | _ => inr []
       end;
     parseInt := fun s => leading_digits s None |}.

(** A directory that is no repository: every command fails. *)
Definition no_repository : Env :=
  {| git := fun _ _ => inl (str "fatal: not a git repository");
     parseInt := fun s => leading_digits s None |}.

Definition request (n : option count_arg) (withDiff : option bool) : GitContextArgs :=
  {| projectPath := str "/p"; includeDiff := withDiff; commitCount := n |}.

End GitWorlds.

Module GraphWorlds.
Import CodeGraph.

(** Two TypeScript files: [/p/src/a.ts] imports [./b.js] and [react],
    [/p/src/b.ts] imports nothing. The scans answer by content. *)
Definition import_of (s : string) : ImportInfo :=
  {| source := str s; imported := [str "default"]; import_kind := ESM |}.

Definition sources : Env :=
  {| readFile := fun p =>
       if JS.eqb p (str "/p/src/a.ts") then inr (str "A")
       else if JS.eqb p (str "/p/src/b.ts") then inr (str "B")
       else inl (str "ENOENT: no such file or directory");
     extname := fun _ => str ".ts";
     basename := fun p => skipn 7 p;
     parseJSImports := fun content =>
       if JS.eqb content (str "A") then [import_of "./b.js"; import_of "react"] else [];
     parsePythonImports := fun _ => [];
     parseJSExports := fun _ => [];
     parseFunctions := fun _ _ => [];
     parseClasses := fun _ _ => [];
     race := fun _ => 0 |}.

Definition request (external : option bool) : CodeGraphArgs :=
  {| files := [str "/p/src/a.ts"; str "/p/src/b.ts"]; includeExternalDeps := external |}.

Definition request_with_missing_file : CodeGraphArgs :=
  {| files := [str "/p/src/a.ts"; str "/p/src/gone.ts"]; includeExternalDeps := None |}.

End GraphWorlds.

Module SelectionWorlds.
Import SmartSelection.

(** Four files, scored by the length of their names minus eight, so that
    [a.ts] scores below zero. *)
Definition project : Env :=
  {| isAbsolute := fun p => JS.startsWith p [47%N];
     stat := fun p => inr {| isDirectory := JS.eqb p (str "/p"); size := 10 |};
     getAllFiles := fun _ =>
       inr [str "a.ts"; str "src/parser.ts"; str "README.md"; str "src/lexer.ts"];
     scoreFileRelevance := fun f _ => (Z.of_nat (length f) - 8)%Z;
     path_join := fun a b => a ++ [47%N] ++ b;
     extname := fun _ => str ".ts";
     race := fun _ => 0 |}.

Definition request (limit : Z) : SmartSelectionArgs :=
  {| projectPath := str "/p";
     taskDescription := Some (str " fix the parser ");
     maxFiles := Some (Int limit) |}.

End SelectionWorlds.

Module ResourceWorlds.
Import ProjectResource.

(** Every URI parses and carries the path [/p]; the disk is that of
    [StructureWorlds]. *)
Definition over (root : ProjectStructure.disk_entry) : Env :=
  {| parse_path_param := fun _ => inr (Some (str "/p"));
     tool := StructureWorlds.world root |}.

Definition structure_uri : jsstring := str "project://structure?path=/p".

End ResourceWorlds.

(** * Properties *)

Unset Implicit Arguments.

(** ** Strings *)

Module JSFacts.

Lemma eqb_eq (a b : jsstring) : JS.eqb a b = true <-> a = b.
Proof.
  unfold JS.eqb. destruct (jsstring_eq_dec a b); split; congruence.
Qed.

Lemma eqb_neq (a b : jsstring) : JS.eqb a b = false <-> a <> b.
Proof.
  unfold JS.eqb. destruct (jsstring_eq_dec a b); split; congruence.
Qed.

Lemma eqb_refl (a : jsstring) : JS.eqb a a = true.
Proof. now apply eqb_eq. Qed.

Lemma startsWith_prefix (s p : jsstring) :
  startsWith s p = true <-> exists t, s = p ++ t.
Proof.
  revert s. induction p as [|c p IH]; intros s; simpl.
  - split; [intros _; now exists s | intros _; reflexivity].
  - destruct s as [|d s].
    + split; [discriminate | intros [t Ht]; discriminate].
    + rewrite andb_true_iff, N.eqb_eq, IH. split.
      * intros [-> [t ->]]. now exists t.
      * intros [t Ht]. injection Ht as -> ->. split; [reflexivity | now exists t].
Qed.

Lemma endsWith_suffix (s p : jsstring) :
  endsWith s p = true <-> exists t, s = t ++ p.
Proof.
  unfold endsWith. rewrite startsWith_prefix. split.
  - intros [t Ht]. exists (rev t).
    rewrite <- (rev_involutive s), Ht, rev_app_distr, rev_involutive. reflexivity.
  - intros [t ->]. exists (rev t). apply rev_app_distr.
Qed.

End JSFacts.

(** ** The derivative matcher decides the language *)

Module RegexFacts.
Import Regex.

Lemma matches_nil_nullable r : matches r [] -> nullable r = true.
Proof.
  intros H. remember (@nil N) as w eqn:Hw. induction H; simpl; try discriminate; auto.
  - apply app_eq_nil in Hw as [-> ->]. rewrite IHmatches1, IHmatches2; auto.
  - rewrite IHmatches; auto.
  - rewrite IHmatches; auto using orb_true_r.
Qed.

Lemma nullable_matches_nil r : nullable r = true -> matches r [].
Proof.
  induction r; simpl; intros H; try discriminate.
  - constructor.
  - apply andb_true_iff in H as [H1 H2].
    change (@nil N) with (@nil N ++ []). constructor; auto.
  - apply orb_true_iff in H as [H|H]; [apply m_alt_l | apply m_alt_r]; auto.
  - constructor.
  - constructor; auto.
Qed.

Lemma matches_deriv c r s : matches r (c :: s) -> matches (deriv c r) s.
Proof.
  intros H. remember (c :: s) as w eqn:Hw. revert s Hw.
  induction H; intros u Hw; simpl; try discriminate.
  - injection Hw as -> <-. rewrite N.eqb_refl. constructor.
  - injection Hw as -> <-. rewrite H. constructor.
  - destruct s as [|x s]; simpl in Hw.
    + subst t. rewrite (matches_nil_nullable _ H). apply m_alt_r. auto.
    + injection Hw as -> <-.
      destruct (nullable a); [apply m_alt_l |]; constructor; auto.
  - apply m_alt_l; auto.
  - apply m_alt_r; auto.
  - destruct s as [|x s]; simpl in Hw.
    + subst t. apply IHmatches2. reflexivity.
    + injection Hw as -> <-. constructor; auto.
  - auto.
Qed.

Lemma deriv_matches c r : forall s, matches (deriv c r) s -> matches r (c :: s).
Proof.
  induction r; simpl; intros s H.
  - inversion H.
  - inversion H.
  - destruct (N.eqb c n) eqn:E; [| inversion H].
    apply N.eqb_eq in E as ->. inversion H; subst. constructor.
  - destruct (is_line_terminator c) eqn:E; [inversion H |].
    inversion H; subst. now constructor.
  - destruct (nullable r1) eqn:E.
    + inversion H as [| | | | ? ? ? H1 | ? ? ? H1 | | |]; subst.
      * inversion H1; subst.
        change (c :: s0 ++ t) with ((c :: s0) ++ t). constructor; auto.
      * change (c :: s) with ([] ++ c :: s). constructor; auto.
        now apply nullable_matches_nil.
    + inversion H; subst.
      change (c :: s0 ++ t) with ((c :: s0) ++ t). constructor; auto.
  - inversion H; subst; [apply m_alt_l | apply m_alt_r]; auto.
  - inversion H; subst.
    change (c :: s0 ++ t) with ((c :: s0) ++ t). constructor; auto.
  - constructor; auto.
Qed.

Lemma match_prefix_spec r s :
  match_prefix r s = true <-> exists m t, s = m ++ t /\ matches r m.
Proof.
  revert r. induction s as [|c s IH]; intros r; simpl.
  - rewrite orb_false_r. split.
    + intros H. exists [], []. split; [reflexivity | now apply nullable_matches_nil].
    + intros (m & t & Hs & Hm). symmetry in Hs. apply app_eq_nil in Hs as [-> _].
      now apply matches_nil_nullable.
  - rewrite orb_true_iff, IH. split.
    + intros [H | (m & t & -> & Hm)].
      * exists [], (c :: s). split; [reflexivity | now apply nullable_matches_nil].
      * exists (c :: m), t. split; [reflexivity | now apply deriv_matches].
    + intros (m & t & Hs & Hm). destruct m as [|x m]; simpl in Hs.
      * left. now apply matches_nil_nullable.
      * injection Hs as <- ->. right. exists m, t.
        split; [reflexivity | now apply matches_deriv].
Qed.

Lemma test_spec r s :
  test r s = true <-> exists pre m post, s = pre ++ m ++ post /\ matches r m.
Proof.
  induction s as [|c s IH]; simpl.
  - rewrite !orb_false_r. split.
    + intros H. exists [], [], []. split; [reflexivity | now apply nullable_matches_nil].
    + intros (pre & m & post & Hs & Hm). symmetry in Hs.
      apply app_eq_nil in Hs as [_ Hs]. apply app_eq_nil in Hs as [-> _].
      now apply matches_nil_nullable.
  - rewrite orb_true_iff, IH.
    change (nullable r || match_prefix (deriv c r) s) with (match_prefix r (c :: s)).
    rewrite match_prefix_spec. split.
    + intros [(m & t & Hs & Hm) | (pre & m & post & -> & Hm)].
      * exists [], m, t. auto.
      * exists (c :: pre), m, post. auto.
    + intros (pre & m & post & Hs & Hm). destruct pre as [|x pre]; simpl in Hs.
      * left. exists m, post. auto.
      * injection Hs as <- ->. right. exists pre, m, post. auto.
Qed.

Lemma star_dot_spec s : matches (Star Dot) s <-> one_line s.
Proof.
  split.
  - intros H. remember (Star Dot) as r eqn:Hr. induction H; try discriminate.
    + constructor.
    + injection Hr as ->. inversion H; subst. constructor; auto.
      apply IHmatches2. reflexivity.
  - induction 1 as [|c s Hc _ IH].
    + constructor.
    + change (c :: s) with ([c] ++ s). constructor; auto. now constructor.
Qed.

End RegexFacts.

(** ** The safety gate *)

Module SearchFacts.
Import Regex RegexFacts Search.

(** What a detector literal matches: a parenthesised one-line run holding
    the inner quantifier character, then the outer one. *)
Lemma nested_spec q r m :
  matches (nested q r) m <->
  exists X Y, one_line X /\ one_line Y /\
              m = c_lparen :: X ++ q :: Y ++ [c_rparen; r].
Proof.
  unfold nested. split.
  - intros H.
    inversion H as [| | |? ? g t Hg Ht| | | | |]; subst; clear H.
    inversion Ht; subst; clear Ht.
    inversion Hg as [| | | | | | | |? ? Hg']; subst; clear Hg.
    inversion Hg' as [| | |? ? s1 t1 H1 H2| | | | |]; subst; clear Hg'.
    inversion H1; subst; clear H1.
    inversion H2 as [| | |? ? s2 t2 H3 H4| | | | |]; subst; clear H2.
    inversion H4 as [| | |? ? s3 t3 H5 H6| | | | |]; subst; clear H4.
    inversion H5; subst; clear H5.
    inversion H6 as [| | |? ? s4 t4 H7 H8| | | | |]; subst; clear H6.
    inversion H8; subst; clear H8.
    exists s2, s4. repeat split; try now apply star_dot_spec.
    simpl. rewrite <- app_assoc. simpl. rewrite <- app_assoc. reflexivity.
  - intros (X & Y & HX & HY & ->).
    replace (c_lparen :: X ++ q :: Y ++ [c_rparen; r])
      with (([c_lparen] ++ X ++ [q] ++ Y ++ [c_rparen]) ++ [r])
      by (simpl; rewrite <- app_assoc; simpl; rewrite <- app_assoc; reflexivity).
    repeat constructor; now apply star_dot_spec.
Qed.

Lemma test_nested q r p :
  test (nested q r) p = true <->
  exists pre X Y post, one_line X /\ one_line Y /\
    p = pre ++ (c_lparen :: X ++ q :: Y ++ [c_rparen; r]) ++ post.
Proof.
  rewrite test_spec. split.
  - intros (pre & m & post & -> & Hm). apply nested_spec in Hm as (X & Y & HX & HY & ->).
    exists pre, X, Y, post. auto.
  - intros (pre & X & Y & post & HX & HY & ->).
    exists pre, (c_lparen :: X ++ q :: Y ++ [c_rparen; r]), post.
    split; [reflexivity |]. apply nested_spec. exists X, Y. auto.
Qed.

Lemma isRegexSafe_true_iff p n :
  isRegexSafe p n = true <->
  1 <= length p <= n /\ forall regex, In regex dangerous -> test regex p = false.
Proof.
  unfold isRegexSafe.
  destruct (Nat.eqb_spec (length p) 0) as [E0|E0]; cbn [orb].
  - split; [discriminate | lia].
  - destruct (Nat.ltb_spec n (length p)) as [El|El].
    + split; [discriminate | lia].
    + rewrite negb_true_iff. split.
      * intros H. split; [lia |]. intros regex Hin.
        destruct (test regex p) eqn:Et; [| reflexivity].
        assert (existsb (fun regex => test regex p) dangerous = true) as Hx
          by (apply existsb_exists; exists regex; split; assumption).
        congruence.
      * intros [_ H]. destruct (existsb _ dangerous) eqn:Ex; [| reflexivity].
        apply existsb_exists in Ex as (regex & Hin & Et).
        rewrite (H regex Hin) in Et. discriminate.
Qed.

Lemma nested_in_dangerous q r :
  is_quantifier q -> is_quantifier r -> In (nested q r) dangerous.
Proof.
  unfold dangerous. intros [-> | ->] [-> | ->]; simpl; auto.
Qed.

(** C6. The gate answers true exactly for the patterns of 1 to 200 code
    units that none of the four detector literals matches; so it answers
    false for the empty pattern and for anything longer than 200, false for
    the nested-quantifier shapes (a group that holds a [+] or [*], followed
    by [+] or [*]), among them "(a+)+", and true for "[a-z]+". *)
Theorem isRegexSafe_spec :
  (forall p,
      isRegexSafe p maxLength_default = true <->
      1 <= length p <= 200 /\
      forall regex, In regex dangerous -> test regex p = false)
  /\ (forall p, length p = 0 \/ 200 < length p ->
                isRegexSafe p maxLength_default = false)
  /\ (forall q r X Y pre post,
         is_quantifier q -> is_quantifier r -> one_line X -> one_line Y ->
         isRegexSafe (pre ++ (c_lparen :: X ++ q :: Y ++ [c_rparen; r]) ++ post)
                     maxLength_default = false)
  /\ isRegexSafe (str "(a+)+") maxLength_default = false
  /\ isRegexSafe (str "(a*)*") maxLength_default = false
  /\ isRegexSafe (str "(a+)*") maxLength_default = false
  /\ isRegexSafe (str "(a*)+") maxLength_default = false
  /\ isRegexSafe (str "[a-z]+") maxLength_default = true
  /\ isRegexSafe (repeat_unit 120 201) maxLength_default = false
  /\ isRegexSafe [] maxLength_default = false.
Proof.
  split; [| split; [| split]].
  - intros p. apply isRegexSafe_true_iff.
  - intros p Hlen. destruct (isRegexSafe p maxLength_default) eqn:E; [| reflexivity].
    apply isRegexSafe_true_iff in E. unfold maxLength_default in E. lia.
  - intros q r X Y pre post Hq Hr HX HY.
    destruct (isRegexSafe _ maxLength_default) eqn:E; [| reflexivity].
    apply isRegexSafe_true_iff in E as [_ E].
    specialize (E _ (nested_in_dangerous _ _ Hq Hr)).
    assert (test (nested q r)
              (pre ++ (c_lparen :: X ++ q :: Y ++ [c_rparen; r]) ++ post) = true) as Ht.
    { apply test_nested. exists pre, X, Y, post. auto. }
    congruence.
  - repeat split; vm_compute; reflexivity.
Qed.

End SearchFacts.

(** ** The search request *)

Module SearchCodebaseFacts.
Import Regex Search.

Lemma searchInFile_unsafe E fuel f q :
  isRegexSafe q maxLength_default = false ->
  searchInFile E fuel f q TRegex = (Returned [], []).
Proof.
  intros H. unfold searchInFile, searchInFile_try.
  destruct (readFile E f); [| rewrite H]; reflexivity.
Qed.

Lemma search_files_unsafe E fuel files q :
  isRegexSafe q maxLength_default = false ->
  search_files E fuel files q TRegex = (Returned (map (fun _ => []) files), []).
Proof.
  intros H. induction files as [|f files IH]; simpl.
  - reflexivity.
  - rewrite (searchInFile_unsafe E fuel f q H), IH. reflexivity.
Qed.

Lemma concat_all_nil {A B} (l : list A) : concat (map (fun _ => @nil B) l) = [].
Proof. induction l; simpl; auto. Qed.

(** A pattern the gate refuses never reaches the [RegExp] constructor, in
    any file of any request. *)
Lemma unsafe_pattern_never_compiled E fuel args :
  searchType_arg args = Some TRegex ->
  isRegexSafe (query args) maxLength_default = false ->
  snd (searchCodebase E fuel args) = [].
Proof.
  intros Hty Hunsafe. unfold searchCodebase, searchCodebase_try. rewrite Hty.
  destruct (projectPath args); [reflexivity |].
  destruct (negb _); [reflexivity |].
  destruct (stat_isDirectory E _) as [m | []]; try reflexivity.
  destruct (_ || _); [reflexivity |].
  destruct (getMatchingFiles E _ _) as [m | files]; [reflexivity |].
  rewrite (search_files_unsafe E fuel files _ Hunsafe). reflexivity.
Qed.

(** Once the request has passed its own argument checks, a refused
    pattern makes every per-file search return nothing, and the request
    returns an ordinary reply with no match: the error thrown for the
    pattern is caught inside [searchInFile]. *)
Lemma unsafe_pattern_swallowed E fuel args files :
  projectPath args <> [] ->
  isAbsolute E (projectPath args) = true ->
  stat_isDirectory E (projectPath args) = inr true ->
  trim_is_empty (query args) = false ->
  getMatchingFiles E (projectPath args) (filePattern args) = inr files ->
  searchType_arg args = Some TRegex ->
  isRegexSafe (query args) maxLength_default = false ->
  searchCodebase E fuel args =
    (Returned {| resp_query := query args;
                 resp_searchType := TRegex;
                 results := [];
                 summary := {| totalMatches := 0;
                               filesSearched := length files;
                               filesWithMatches := 0;
                               truncated := false |} |}, []).
Proof.
  intros Hp Habs Hdir Hq Hfiles Hty Hunsafe.
  unfold searchCodebase, searchCodebase_try. rewrite Hty, Habs, Hdir, Hq, Hfiles.
  destruct (projectPath args) as [|c p]; [congruence |].
  assert (Nat.eqb (length (query args)) 0 = false) as ->.
  { destruct (query args); [discriminate | reflexivity]. }
  cbn [negb orb]. rewrite (search_files_unsafe E fuel files _ Hunsafe).
  cbv beta iota. rewrite concat_all_nil. reflexivity.
Qed.

(** C7, at a concrete request. A regex search for "(a+)+" over a project
    with one readable file: the gate refuses the pattern and nothing is
    compiled, yet the request does not fail. It returns a reply that says
    no match was found in one file searched. *)
Theorem unsafe_regex_search_completes :
  isRegexSafe (query Worlds.unsafe_request) maxLength_default = false /\
  forall fuel,
    searchCodebase (Worlds.search_world Worlds.long_file) fuel Worlds.unsafe_request =
      (Returned {| resp_query := str "(a+)+";
                   resp_searchType := TRegex;
                   results := [];
                   summary := {| totalMatches := 0;
                                 filesSearched := 1;
                                 filesWithMatches := 0;
                                 truncated := false |} |}, []).
Proof.
  split; [vm_compute; reflexivity |]. intros fuel.
  apply (unsafe_pattern_swallowed _ fuel Worlds.unsafe_request
           (map fst Worlds.long_file)); try reflexivity.
  discriminate.
Qed.



End SearchCodebaseFacts.

(** ** The file resource *)

Module FileResourceFacts.
Import JSFacts FileResource.

Lemma inside_root_spec S R T :
  inside_root S R T = true <->
  T = R \/ exists rest, T = normalizedRoot S R ++ rest.
Proof.
  unfold inside_root. rewrite orb_true_iff, eqb_eq, startsWith_prefix. reflexivity.
Qed.

Lemma normalizedRoot_spec S R :
  (endsWith R [sep S] = true -> normalizedRoot S R = R) /\
  (endsWith R [sep S] = false -> normalizedRoot S R = R ++ [sep S]).
Proof.
  unfold normalizedRoot. destruct (endsWith R [sep S]); split; congruence.
Qed.

Lemma check_root_resolved S filePath r R T :
  r <> [] ->
  realpath S r = inr R ->
  realpath S filePath = inr T ->
  check_root S filePath (Some r) =
    if inside_root S R T then Returned tt else Thrown msg_denied.
Proof.
  intros Hr HR HT. unfold check_root. destruct r; [congruence |].
  rewrite HR, HT. reflexivity.
Qed.

Lemma getFileResource_steps S uri_ url filePath :
  parse_url S uri_ = inr url ->
  target_path S url = Returned filePath ->
  getFileResource S uri_ =
    rethrow failed_prefix
      (match check_root S filePath (root_param url) with
       | Returned _ => read_checked S uri_ filePath
       | Thrown m => Thrown m
       | Diverged => Diverged
       end).
Proof.
  intros Hu Ht. unfold getFileResource, getFileResource_try. rewrite Hu, Ht.
  reflexivity.
Qed.

(** C1, as the handler has it. With a non-empty [root] parameter whose
    real path and the target's real path both resolve, the read is let
    through exactly when the real target is the real root or begins with
    the normalised root: the real root itself when it already ends with the
    separator, the real root plus one separator otherwise. When it is not
    let through the request fails with the access error; without a [root]
    parameter (or with an empty one) nothing is checked. *)
Theorem containment_check S uri_ url filePath r R T :
  parse_url S uri_ = inr url ->
  target_path S url = Returned filePath ->
  root_param url = Some r ->
  r <> [] ->
  realpath S r = inr R ->
  realpath S filePath = inr T ->
  (check_root S filePath (Some r) = Returned tt <->
     T = R \/ exists rest, T = normalizedRoot S R ++ rest)
  /\ (endsWith R [sep S] = true -> normalizedRoot S R = R)
  /\ (endsWith R [sep S] = false -> normalizedRoot S R = R ++ [sep S])
  /\ (check_root S filePath (Some r) = Returned tt ->
        getFileResource S uri_ = rethrow failed_prefix (read_checked S uri_ filePath))
  /\ (check_root S filePath (Some r) <> Returned tt ->
        getFileResource S uri_ = Thrown (failed_prefix ++ msg_denied))
  /\ check_root S filePath None = Returned tt
  /\ check_root S filePath (Some []) = Returned tt.
Proof.
  intros Hu Ht Hroot Hr HR HT.
  pose proof (check_root_resolved S filePath r R T Hr HR HT) as Hc.
  pose proof (getFileResource_steps S uri_ url filePath Hu Ht) as Hg.
  rewrite Hroot in Hg. rewrite <- inside_root_spec.
  split; [| split; [| split; [| split; [| split; [| split]]]]].
  - destruct (inside_root S R T); split; congruence.
  - apply normalizedRoot_spec.
  - apply normalizedRoot_spec.
  - intros Hok. rewrite Hg, Hok. reflexivity.
  - intros Hno. rewrite Hg.
    destruct (inside_root S R T); [congruence |]. rewrite Hc. reflexivity.
  - reflexivity.
  - reflexivity.
Qed.

(** Root [/a/b]: [/a/b/c] is let through, [/a/bc] and [/a/c] are not, and
    [/a/b/link], which leads to [/etc/passwd], is refused. *)
Lemma containment_check_witness :
  (FileResource.check_root (Worlds.world_of "/a/b/c" (Some (str "/a/b")))
     (str "/a/b/c") (Some (str "/a/b")) = Returned tt <->
   str "/a/b/c" = str "/a/b" \/
   exists rest, str "/a/b/c" =
     normalizedRoot (Worlds.world_of "/a/b/c" (Some (str "/a/b"))) (str "/a/b") ++ rest)
  /\ getFileResource (Worlds.world_of "/a/b/link" (Some (str "/a/b")))
       (str "project://file/a/b/link?root=/a/b") = Thrown (failed_prefix ++ msg_denied)
  /\ inside_root (Worlds.world_of "/a/b/c" (Some (str "/a/b"))) (str "/a/b") (str "/a/bc") = false
  /\ inside_root (Worlds.world_of "/a/b/c" (Some (str "/a/b"))) (str "/a/b") (str "/a/c") = false
  /\ inside_root (Worlds.world_of "/a/b/c" (Some (str "/a/b"))) (str "/a/b") (str "/a/b") = true.
Proof.
  split; [| split; [| repeat split; vm_compute; reflexivity]].
  - apply (containment_check (Worlds.world_of "/a/b/c" (Some (str "/a/b")))
             (str "project://file/a/b/c?root=/a/b")
             (Worlds.file_url "/a/b/c" (Some (str "/a/b")))
             (str "/a/b/c") (str "/a/b") (str "/a/b") (str "/a/b/c"));
      try reflexivity.
    discriminate.
  - destruct (containment_check (Worlds.world_of "/a/b/link" (Some (str "/a/b")))
                (str "project://file/a/b/link?root=/a/b")
                (Worlds.file_url "/a/b/link" (Some (str "/a/b")))
                (str "/a/b/link") (str "/a/b") (str "/a/b") (str "/etc/passwd")
                eq_refl eq_refl eq_refl ltac:(discriminate) eq_refl eq_refl)
      as (_ & _ & _ & _ & Hdenied & _).
    apply Hdenied. vm_compute. discriminate.
Defined.

(** C1 as stated fails in two places. With the file system root as
    [root], the real root is the separator itself, the target does not
    begin with two separators, and yet the read goes through; and a [root]
    parameter that is supplied but empty switches the check off, so a file
    outside the directory the empty path resolves to is read. *)
Lemma containment_as_stated_fails :
  (let S := Worlds.world_of "/etc/passwd" (Some (str "/")) in
   realpath S (str "/") = inr (str "/")
   /\ realpath S (str "/etc/passwd") = inr (str "/etc/passwd")
   /\ str "/etc/passwd" <> str "/"
   /\ startsWith (str "/etc/passwd") (str "/" ++ [sep S]) = false
   /\ check_root S (str "/etc/passwd") (Some (str "/")) = Returned tt
   /\ exists c, getFileResource S (str "project://file/etc/passwd?root=/") = Returned c)
  /\
  (let S := Worlds.file_world (Worlds.file_url "/etc/passwd" (Some []))
              [([], str "/a/b")] Worlds.disk in
   root_param (Worlds.file_url "/etc/passwd" (Some [])) = Some []
   /\ realpath S [] = inr (str "/a/b")
   /\ realpath S (str "/etc/passwd") = inr (str "/etc/passwd")
   /\ str "/etc/passwd" <> str "/a/b"
   /\ startsWith (str "/etc/passwd") (str "/a/b" ++ [sep S]) = false
   /\ exists c, getFileResource S (str "project://file/etc/passwd?root=") = Returned c).
Proof.
  split; cbv zeta; repeat split; try (vm_compute; reflexivity); try discriminate;
    eexists; vm_compute; reflexivity.
Qed.

Lemma read_checked_cases S uri_ filePath stats :
  stat S filePath = inr stats ->
  (isFile stats = false -> read_checked S uri_ filePath = Thrown msg_not_file)
  /\ (isFile stats = true -> (MAX_BYTES < size stats)%N ->
        read_checked S uri_ filePath = Thrown (msg_too_large (size stats)))
  /\ (isFile stats = true -> (size stats <= MAX_BYTES)%N ->
        read_checked S uri_ filePath =
          match readFile S filePath with
          | inl m => Thrown m
          | inr content =>
              Returned
                {| uri := uri_;
                   mimeType := if JS.eqb (extname_lower S filePath) (str ".json")
                               then str "application/json" else str "text/plain";
                   text := content;
                   meta_size := size stats;
                   meta_modified := mtime_iso stats;
                   meta_extension := extname_lower S filePath |}
          end).
Proof.
  intros Hs. unfold read_checked. rewrite Hs. repeat split.
  - intros ->. reflexivity.
  - intros -> Hgt. apply N.ltb_lt in Hgt. rewrite Hgt. reflexivity.
  - intros -> Hle. apply N.ltb_ge in Hle. rewrite Hle. reflexivity.
Qed.

(** C2. Once the containment step has let the request through and the
    target's [stat] is known: a target that is not a regular file makes the
    request fail with the not-a-file error, a regular file above 2 MiB
    (2097152 bytes) makes it fail with the size error, both without any
    content; a regular file of at most 2 MiB passes both tests, and the
    reply is then whatever reading it gives. *)
Theorem size_and_type_checks S uri_ url filePath stats :
  parse_url S uri_ = inr url ->
  target_path S url = Returned filePath ->
  check_root S filePath (root_param url) = Returned tt ->
  stat S filePath = inr stats ->
  MAX_BYTES = 2097152%N
  /\ (isFile stats = false ->
        getFileResource S uri_ = Thrown (failed_prefix ++ msg_not_file))
  /\ (isFile stats = true -> (MAX_BYTES < size stats)%N ->
        getFileResource S uri_ =
          Thrown (failed_prefix ++ msg_too_large (size stats)))
  /\ (isFile stats = true -> (size stats <= MAX_BYTES)%N ->
        getFileResource S uri_ =
          match readFile S filePath with
          | inl m => Thrown (failed_prefix ++ m)
          | inr content =>
              Returned
                {| uri := uri_;
                   mimeType := if JS.eqb (extname_lower S filePath) (str ".json")
                               then str "application/json" else str "text/plain";
                   text := content;
                   meta_size := size stats;
                   meta_modified := mtime_iso stats;
                   meta_extension := extname_lower S filePath |}
          end).
Proof.
  intros Hu Ht Hc Hs.
  pose proof (getFileResource_steps S uri_ url filePath Hu Ht) as Hg.
  rewrite Hc in Hg.
  destruct (read_checked_cases S uri_ filePath stats Hs) as (H1 & H2 & H3).
  split; [reflexivity |]. repeat split.
  - intros Hf. rewrite Hg, (H1 Hf). reflexivity.
  - intros Hf Hgt. rewrite Hg, (H2 Hf Hgt). reflexivity.
  - intros Hf Hle. rewrite Hg, (H3 Hf Hle).
    destruct (readFile S filePath); reflexivity.
Qed.

(** The 3 MiB file inside the root is refused with the size error; the
    small one beside it is read. *)
Lemma size_and_type_checks_witness :
  getFileResource (Worlds.world_of "/a/b/big" (Some (str "/a/b")))
    (str "project://file/a/b/big?root=/a/b")
  = Thrown (failed_prefix ++ msg_too_large 3145728)
  /\ exists c,
       getFileResource (Worlds.world_of "/a/b/c" (Some (str "/a/b")))
         (str "project://file/a/b/c?root=/a/b") = Returned c
       /\ text c = str "hello".
Proof.
  split.
  - apply (size_and_type_checks (Worlds.world_of "/a/b/big" (Some (str "/a/b")))
             (str "project://file/a/b/big?root=/a/b")
             (Worlds.file_url "/a/b/big" (Some (str "/a/b")))
             (str "/a/b/big") (Worlds.regular 3145728));
      try reflexivity.
  - eexists. split.
    + etransitivity.
      * apply (size_and_type_checks (Worlds.world_of "/a/b/c" (Some (str "/a/b")))
                 (str "project://file/a/b/c?root=/a/b")
                 (Worlds.file_url "/a/b/c" (Some (str "/a/b")))
                 (str "/a/b/c") (Worlds.regular 5));
          try reflexivity. vm_compute. discriminate.
      * vm_compute. reflexivity.
    + reflexivity.
Defined.

End FileResourceFacts.

(** ** The map, the sort and the two clean-ups *)

Module CacheFacts.
Import JSFacts ContextCache.

Local Open Scope Z_scope.

Lemma existsb_eqb_In k (l : list jsstring) :
  existsb (JS.eqb k) l = true <-> In k l.
Proof.
  rewrite existsb_exists. split.
  - intros (x & Hin & Hx). apply eqb_eq in Hx. now subst.
  - intros Hin. exists k. split; [assumption | apply eqb_refl].
Qed.

Lemma distinct_NoDup (l : list jsstring) : distinct l = true <-> NoDup l.
Proof.
  induction l as [|k l IH]; simpl.
  - split; [constructor | reflexivity].
  - rewrite andb_true_iff, negb_true_iff, IH. split.
    + intros [Hk Hl]. constructor; [| assumption].
      intros Hin. apply existsb_eqb_In in Hin. congruence.
    + intros H. inversion H as [|? ? Hk Hl]; subst. split; [| assumption].
      destruct (existsb (JS.eqb k) l) eqn:E; [| reflexivity].
      apply existsb_eqb_In in E. contradiction.
Qed.

Lemma map_get_None c k : map_get c k = None <-> ~ In k (keys c).
Proof.
  induction c as [|[k' e'] c IH]; simpl.
  - tauto.
  - destruct (JS.eqb k' k) eqn:E.
    + apply eqb_eq in E. split; [discriminate | intros H; exfalso; apply H; auto].
    + apply eqb_neq in E. rewrite IH. tauto.
Qed.

Lemma map_get_In c k e :
  NoDup (keys c) -> (map_get c k = Some e <-> In (k, e) c).
Proof.
  induction c as [|[k' e'] c IH]; simpl; intros Hnd.
  - split; [discriminate | tauto].
  - inversion Hnd as [|? ? Hk Hc]; subst.
    destruct (JS.eqb k' k) eqn:E.
    + apply eqb_eq in E. subst k'. split.
      * intros H. injection H as ->. auto.
      * intros [H | H]; [congruence |].
        exfalso. apply Hk. apply (in_map fst) in H. exact H.
    + apply eqb_neq in E. rewrite (IH Hc). split; [auto |].
      intros [H | H]; [congruence | assumption].
Qed.

Lemma map_get_Permutation a b k :
  NoDup (keys a) -> Permutation a b -> map_get a k = map_get b k.
Proof.
  intros Ha Hp.
  assert (NoDup (keys b)) as Hb
    by (apply (Permutation_NoDup (Permutation_map fst Hp)); assumption).
  destruct (map_get a k) as [e|] eqn:Ea.
  - symmetry. apply (map_get_In b k e Hb).
    apply (Permutation_in _ Hp). now apply (map_get_In a k e Ha).
  - symmetry. apply map_get_None. apply map_get_None in Ea.
    intros Hin. apply Ea.
    apply (Permutation_in _ (Permutation_sym (Permutation_map fst Hp))). exact Hin.
Qed.

Lemma map_set_absent c k e : map_get c k = None -> map_set c k e = c ++ [(k, e)].
Proof.
  induction c as [|[k' e'] c IH]; simpl; intros H.
  - reflexivity.
  - destruct (JS.eqb k' k); [discriminate |]. now rewrite IH.
Qed.

Lemma keys_map_set_present c k e :
  map_get c k <> None -> keys (map_set c k e) = keys c.
Proof.
  induction c as [|[k' e'] c IH]; simpl; intros H.
  - congruence.
  - destruct (JS.eqb k' k); simpl; [reflexivity |]. now rewrite IH.
Qed.

Lemma keys_map_set c k e :
  keys (map_set c k e) =
    match map_get c k with Some _ => keys c | None => keys c ++ [k] end.
Proof.
  destruct (map_get c k) eqn:E.
  - apply keys_map_set_present. congruence.
  - rewrite (map_set_absent c k e E). unfold keys. now rewrite map_app.
Qed.

Lemma map_set_NoDup c k e : NoDup (keys c) -> NoDup (keys (map_set c k e)).
Proof.
  intros H. rewrite keys_map_set. destruct (map_get c k) eqn:E; [assumption |].
  apply NoDup_app; [assumption | repeat constructor; simpl; tauto |].
  intros a Ha [<- | []]. apply map_get_None in E. contradiction.
Qed.

Lemma map_set_length c k e :
  length (map_set c k e) =
    match map_get c k with Some _ => length c | None => S (length c) end.
Proof.
  induction c as [|[k' e'] c IH]; simpl.
  - reflexivity.
  - destruct (JS.eqb k' k); simpl; [reflexivity |].
    rewrite IH. destruct (map_get c k); reflexivity.
Qed.

Lemma map_get_set_eq c k e : map_get (map_set c k e) k = Some e.
Proof.
  induction c as [|[k' e'] c IH]; simpl.
  - now rewrite eqb_refl.
  - destruct (JS.eqb k' k) eqn:E; simpl; rewrite E; auto.
Qed.

Lemma map_get_set_ne c k e k' : k <> k' -> map_get (map_set c k e) k' = map_get c k'.
Proof.
  intros Hne. induction c as [|[k0 e0] c IH]; simpl.
  - apply eqb_neq in Hne. now rewrite Hne.
  - destruct (JS.eqb k0 k) eqn:E; simpl.
    + apply eqb_eq in E. subst k0. apply eqb_neq in Hne. now rewrite Hne.
    + destruct (JS.eqb k0 k'); auto.
Qed.

(** Deleting a key of a well-formed map is filtering it out. *)
Lemma map_delete_filter c k :
  NoDup (keys c) ->
  map_delete c k = filter (fun kv => negb (JS.eqb (fst kv) k)) c.
Proof.
  induction c as [|[k' e'] c IH]; simpl; intros Hnd.
  - reflexivity.
  - inversion Hnd as [|? ? Hk Hc]; subst.
    destruct (JS.eqb k' k) eqn:E; simpl.
    + apply eqb_eq in E. subst k'. symmetry. apply forallb_filter_id.
      apply forallb_forall. intros [k1 e1] Hin. simpl.
      apply negb_true_iff, eqb_neq. intros ->. apply Hk.
      apply (in_map fst) in Hin. exact Hin.
    + now rewrite IH.
Qed.

Lemma keys_filter_NoDup (f : jsstring * entry -> bool) c :
  NoDup (keys c) -> NoDup (keys (filter f c)).
Proof.
  induction c as [|x c IH]; simpl; intros Hnd.
  - constructor.
  - inversion Hnd as [|? ? Hk Hc]; subst.
    destruct (f x); simpl; [| auto]. constructor; [| auto].
    intros Hin. apply Hk. unfold keys in *. apply in_map_iff in Hin as (y & Hy & Hin).
    apply filter_In in Hin as [Hin _]. rewrite <- Hy. now apply in_map.
Qed.

Lemma filter_twice {A} (f g : A -> bool) l :
  filter f (filter g l) = filter (fun x => g x && f x) l.
Proof.
  induction l as [|x l IH]; simpl; [reflexivity |].
  destruct (g x); simpl; [destruct (f x) |]; now rewrite IH.
Qed.

(** The deletions of the later revision, as one filter. *)
Lemma delete_all_filter (doomed : cache) : forall c,
  NoDup (keys c) ->
  fold_left (fun m kv => map_delete m (fst kv)) doomed c =
  filter (fun kv => negb (existsb (JS.eqb (fst kv)) (keys doomed))) c.
Proof.
  induction doomed as [|d doomed IH]; intros c Hnd; simpl.
  - symmetry. apply filter_true.
  - rewrite IH by (rewrite map_delete_filter by assumption; now apply keys_filter_NoDup).
    rewrite map_delete_filter by assumption. rewrite filter_twice.
    apply filter_ext. intros [k e]. simpl. now rewrite negb_orb.
Qed.

(** The re-insertions of the earlier revision put the kept entries back in
    the order of the sorted list. *)
Lemma set_all_append (kept : cache) : forall acc,
  NoDup (keys (acc ++ kept)) ->
  fold_left (fun m kv => map_set m (fst kv) (snd kv)) kept acc = acc ++ kept.
Proof.
  induction kept as [|[k e] kept IH]; intros acc Hnd; simpl.
  - now rewrite app_nil_r.
  - assert (map_get acc k = None) as Hk.
    { apply map_get_None. intros Hin. unfold keys in Hnd. rewrite map_app in Hnd.
      simpl in Hnd. apply NoDup_remove_2 in Hnd. apply Hnd.
      apply in_or_app. left. exact Hin. }
    rewrite (map_set_absent acc k e Hk). rewrite IH.
    + now rewrite <- app_assoc.
    + now rewrite <- app_assoc.
Qed.

Lemma filter_none {A} (f : A -> bool) l :
  (forall x, In x l -> f x = false) -> filter f l = [].
Proof.
  induction l as [|x l IH]; simpl; intros H; [reflexivity |].
  rewrite (H x) by now left. apply IH. intros y Hy. apply H. now right.
Qed.

Lemma Permutation_filter_compat {A} (f : A -> bool) l l' :
  Permutation l l' -> Permutation (filter f l) (filter f l').
Proof.
  induction 1 as [|x l l' _ IH|x y l|l l' l'' _ IH1 _ IH2]; simpl.
  - constructor.
  - destruct (f x); [now constructor | assumption].
  - destruct (f x), (f y); try reflexivity. apply perm_swap.
  - now transitivity (filter f l').
Qed.

Lemma NoDup_app_disjoint {A} (l1 l2 : list A) x :
  NoDup (l1 ++ l2) -> In x l1 -> ~ In x l2.
Proof.
  induction l1 as [|a l1 IH]; simpl; intros Hnd Hin; [contradiction |].
  inversion Hnd as [|? ? Ha Hl]; subst. destruct Hin as [-> | Hin].
  - intros H2. apply Ha. apply in_or_app. now right.
  - now apply IH.
Qed.

(** *** The sort *)

Lemma insert_desc_Permutation x l : Permutation (insert_desc x l) (x :: l).
Proof.
  induction l as [|y l IH]; simpl.
  - reflexivity.
  - destruct (timestamp (snd x) <? timestamp (snd y)); [| reflexivity].
    rewrite IH. apply perm_swap.
Qed.

Lemma sort_desc_Permutation l : Permutation (sort_desc l) l.
Proof.
  induction l as [|x l IH]; simpl; [reflexivity |].
  rewrite insert_desc_Permutation. now constructor.
Qed.

Lemma insert_desc_sorted x l :
  StronglySorted newer_first l -> StronglySorted newer_first (insert_desc x l).
Proof.
  induction 1 as [|y l Hl IH Hy]; simpl.
  - repeat constructor.
  - destruct (Z.ltb_spec (timestamp (snd x)) (timestamp (snd y))) as [Hlt | Hge].
    + constructor; [assumption |].
      apply Forall_forall. intros z Hz.
      apply (Permutation_in _ (insert_desc_Permutation x l)) in Hz.
      destruct Hz as [<- | Hz].
      * unfold newer_first. lia.
      * rewrite Forall_forall in Hy. now apply Hy.
    + constructor; [now constructor |].
      constructor; [exact Hge |].
      rewrite Forall_forall in *. intros z Hz. specialize (Hy z Hz).
      unfold newer_first in *. lia.
Qed.

Lemma sort_desc_sorted l : StronglySorted newer_first (sort_desc l).
Proof.
  induction l as [|x l IH]; simpl; [constructor | now apply insert_desc_sorted].
Qed.

(** In a sorted list nothing behind a cut is newer than anything before it. *)
Lemma sorted_cut n : forall l a b,
  StronglySorted newer_first l ->
  In a (firstn n l) -> In b (skipn n l) -> timestamp (snd b) <= timestamp (snd a).
Proof.
  induction n as [|n IH]; intros l a b Hs Ha Hb; simpl in *.
  - contradiction.
  - destruct l as [|x l]; [contradiction |].
    apply StronglySorted_inv in Hs as [Hl Hx]. simpl in *.
    destruct Ha as [<- | Ha].
    + rewrite Forall_forall in Hx. apply Hx.
      rewrite <- (firstn_skipn n l). apply in_or_app. now right.
    + now apply (IH l).
Qed.

Lemma sorted_tail n : forall l a b,
  StronglySorted newer_first l ->
  skipn n l = [b] -> In a l -> timestamp (snd b) <= timestamp (snd a).
Proof.
  intros l a b Hs Hb Ha. rewrite <- (firstn_skipn n l) in Ha.
  apply in_app_or in Ha as [Ha | Ha].
  - apply (sorted_cut n l a b Hs Ha). rewrite Hb. now left.
  - rewrite Hb in Ha. destruct Ha as [<- | []]. lia.
Qed.

End CacheFacts.

(** ** Capacity *)

Module CapacityFacts.
Import JSFacts ContextCache CacheFacts.

Lemma sorted_keys_NoDup c : NoDup (keys c) -> NoDup (keys (sort_desc c)).
Proof.
  intros H. apply (Permutation_NoDup
    (Permutation_map fst (Permutation_sym (sort_desc_Permutation c)))). exact H.
Qed.

(** Above capacity, the later revision keeps the 50 newest entries... *)
Lemma cleanup_in_place_Permutation c :
  NoDup (keys c) -> capacity < length c ->
  Permutation (cleanup_in_place c) (firstn capacity (sort_desc c)).
Proof.
  intros Hnd Hlen. unfold cleanup_in_place, map_size.
  apply Nat.ltb_lt in Hlen. rewrite Hlen.
  rewrite (delete_all_filter _ c Hnd).
  set (s := sort_desc c).
  set (keep := fun kv : jsstring * entry =>
                 negb (existsb (JS.eqb (fst kv)) (keys (skipn capacity s)))).
  rewrite (Permutation_filter_compat keep _ _ (Permutation_sym (sort_desc_Permutation c))).
  fold s. rewrite <- (firstn_skipn capacity s) at 1. rewrite filter_app.
  assert (NoDup (keys (firstn capacity s) ++ keys (skipn capacity s))) as Hs.
  { unfold keys. rewrite <- map_app, firstn_skipn. now apply sorted_keys_NoDup. }
  assert (filter keep (skipn capacity s) = []) as ->.
  { apply filter_none. intros x Hin. unfold keep.
    apply negb_false_iff, existsb_eqb_In. now apply in_map. }
  rewrite app_nil_r. rewrite forallb_filter_id; [reflexivity |].
  apply forallb_forall. intros x Hin. unfold keep.
  apply negb_true_iff. destruct (existsb _ _) eqn:E; [| reflexivity].
  apply existsb_eqb_In in E. exfalso.
  apply (NoDup_app_disjoint _ _ (fst x) Hs); [now apply in_map | exact E].
Qed.

(** ... and the earlier revision keeps the same ones, in sorted order. *)
Lemma cleanup_rebuild_eq c :
  NoDup (keys c) -> capacity < length c ->
  cleanup_rebuild c = firstn capacity (sort_desc c).
Proof.
  intros Hnd Hlen. unfold cleanup_rebuild, map_size.
  apply Nat.ltb_lt in Hlen. rewrite Hlen.
  apply (set_all_append (firstn capacity (sort_desc c)) []). simpl.
  pose proof (sorted_keys_NoDup c Hnd) as Hs.
  rewrite <- (firstn_skipn capacity (sort_desc c)) in Hs.
  unfold keys in *. rewrite map_app in Hs. now apply NoDup_app_remove_r in Hs.
Qed.

Lemma cleanup_small c :
  length c <= capacity -> cleanup_in_place c = c /\ cleanup_rebuild c = c.
Proof.
  intros H. unfold cleanup_in_place, cleanup_rebuild, map_size.
  apply Nat.ltb_ge in H. now rewrite H.
Qed.

Lemma cleanup_in_place_keeps : keeps_newest cleanup_in_place.
Proof.
  split; [intros c H; now apply cleanup_small | apply cleanup_in_place_Permutation].
Qed.

Lemma cleanup_rebuild_keeps : keeps_newest cleanup_rebuild.
Proof.
  split; [intros c H; now apply cleanup_small |].
  intros c Hnd Hlen. now rewrite cleanup_rebuild_eq.
Qed.

Section AnyCleanup.

Variable cleanup : cache -> cache.
Hypothesis Hkeeps : keeps_newest cleanup.

Lemma cleanup_length c : NoDup (keys c) -> length (cleanup c) <= capacity.
Proof.
  intros Hnd. destruct Hkeeps as [Hsmall Hbig].
  destruct (Nat.le_gt_cases (length c) capacity) as [H | H].
  - now rewrite Hsmall.
  - rewrite (Permutation_length (Hbig c Hnd H)), length_firstn. lia.
Qed.

Lemma cleanup_NoDup c : NoDup (keys c) -> NoDup (keys (cleanup c)).
Proof.
  intros Hnd. destruct Hkeeps as [Hsmall Hbig].
  destruct (Nat.le_gt_cases (length c) capacity) as [H | H].
  - now rewrite Hsmall.
  - apply (Permutation_NoDup
      (Permutation_map fst (Permutation_sym (Hbig c Hnd H)))).
    pose proof (sorted_keys_NoDup c Hnd) as Hs.
    rewrite <- (firstn_skipn capacity (sort_desc c)) in Hs.
    unfold keys in *. rewrite map_app in Hs. now apply NoDup_app_remove_r in Hs.
Qed.

(** One entry over capacity: the clean-up drops the last of the sorted
    list, nothing in the map is older than it, and the rest stays. *)
Lemma cleanup_one_over c :
  NoDup (keys c) -> length c = S capacity ->
  exists victim,
    skipn capacity (sort_desc c) = [victim]
    /\ In victim c
    /\ (forall x, In x c -> (timestamp (snd victim) <= timestamp (snd x))%Z)
    /\ Permutation c (victim :: cleanup c)
    /\ length (cleanup c) = capacity
    /\ map_get (cleanup c) (fst victim) = None
    /\ (forall k, k <> fst victim -> map_get (cleanup c) k = map_get c k).
Proof.
  intros Hnd Hlen. destruct Hkeeps as [_ Hbig].
  assert (capacity < length c) as Hgt by lia.
  pose proof (Hbig c Hnd Hgt) as Hperm.
  pose proof (sort_desc_Permutation c) as Hsort.
  assert (length (skipn capacity (sort_desc c)) = 1) as Hl.
  { rewrite length_skipn, (Permutation_length Hsort). lia. }
  destruct (skipn capacity (sort_desc c)) as [|victim [|? ?]] eqn:Hsk;
    try discriminate.
  exists victim.
  assert (Permutation c (victim :: cleanup c)) as Hall.
  { rewrite Hperm. rewrite <- Hsort at 1.
    rewrite <- (firstn_skipn capacity (sort_desc c)) at 1. rewrite Hsk.
    symmetry. apply Permutation_cons_append. }
  assert (NoDup (keys (victim :: cleanup c))) as Hnd'
    by (apply (Permutation_NoDup (Permutation_map fst Hall)); assumption).
  split; [reflexivity |]. split; [| split; [| split; [| split; [| split]]]].
  - apply (Permutation_in _ (Permutation_sym Hall)). now left.
  - intros x Hx. apply (sorted_tail capacity (sort_desc c) x victim).
    + apply sort_desc_sorted.
    + exact Hsk.
    + apply (Permutation_in _ (Permutation_sym Hsort)). exact Hx.
  - exact Hall.
  - rewrite (Permutation_length Hperm), length_firstn, (Permutation_length Hsort). lia.
  - apply map_get_None. simpl in Hnd'. now inversion Hnd'.
  - intros k Hk. rewrite (map_get_Permutation c (victim :: cleanup c) k Hnd Hall).
    simpl. destruct victim as [vk ve]. simpl in *.
    destruct (JS.eqb vk k) eqn:E; [| reflexivity].
    apply eqb_eq in E. congruence.
Qed.

End AnyCleanup.

End CapacityFacts.

Module CapacityTheorems.
Import JSFacts ContextCache CacheFacts CapacityFacts.

Lemma well_formed_NoDup c : well_formed c = true -> NoDup (keys c).
Proof. apply distinct_NoDup. Qed.

Lemma cleanup_of_keeps rev : keeps_newest (cleanup_of rev).
Proof.
  destruct rev; [apply cleanup_in_place_keeps | apply cleanup_rebuild_keeps].
Qed.

Lemma set_stored_property_keys c k field v :
  keys (set_stored_property c k field v) = keys c.
Proof.
  induction c as [|[k' e] c IH]; simpl; [reflexivity |].
  destruct (JS.eqb k' k); simpl; [reflexivity | now rewrite IH].
Qed.

Lemma set_stored_property_length c k field v :
  length (set_stored_property c k field v) = length c.
Proof.
  rewrite <- (length_map fst). fold (keys (set_stored_property c k field v)).
  rewrite set_stored_property_keys. apply length_map.
Qed.

Lemma getOrCreateContext_invariant rev E tm c p t :
  NoDup (keys c) /\ length c <= capacity ->
  NoDup (keys (store (getOrCreateContext rev E tm c p t)))
  /\ length (store (getOrCreateContext rev E tm c p t)) <= capacity.
Proof.
  intros [Hnd Hlen]. unfold getOrCreateContext, getOrCreateContext_with.
  destruct (fresh _ _); cbn [store]; [auto |]. split.
  - apply (cleanup_NoDup _ (cleanup_of_keeps rev)). now apply map_set_NoDup.
  - apply (cleanup_length _ (cleanup_of_keeps rev)). now apply map_set_NoDup.
Qed.

(** Every map a server can reach holds each key once and at most 50
    entries, in both revisions. *)
Lemma reachable_capacity rev :
  forall c, reachable rev c -> NoDup (keys c) /\ length c <= capacity.
Proof.
  intros c Hr. induction Hr as [|E now_route tm c req Hr IH].
  - split; [constructor | unfold capacity; simpl; lia].
  - unfold getContextResource.
    destruct (or_undefined (path_param req)) as [projectPath|]; [| exact IH].
    destruct (match match rev with InPlace => _ | Rebuild => _ end with
              | Some h => _ | None => None end); [exact IH |].
    pose proof (getOrCreateContext_invariant rev E tm c projectPath
                  (or_undefined (task_param req)) IH) as [Hnd Hlen].
    destruct (match rev with InPlace => _ | Rebuild => _ end) as [h|]; [| auto].
    destruct (JS.eqb h _); [auto |]. cbn [snd].
    destruct (is_stored_object _); [| auto].
    rewrite set_stored_property_keys, set_stored_property_length. auto.
Qed.

(** C5. Whatever the map holds, a call of [getOrCreateContext] that
    stores a context (a miss) leaves at most 50 entries behind, clean-up
    included, in both revisions; and no call takes a map of at most 50
    entries beyond 50. When the map held 50 entries and the key is new,
    exactly one entry goes: the last one of the sorted list, the same in
    both revisions, which is an entry of the map or the one just stored
    and which no entry is older than. 50 entries remain; the key of the
    entry that went is no longer there, every other key of the map still
    maps to what it mapped to, and the new key, unless it is the one that
    went, maps to the context just built. *)
Theorem cache_capacity rev E tm c p t :
  well_formed c = true ->
  (fresh (now_lookup tm) (map_get c (generateContextHash E (p, t))) = false ->
   length (store (getOrCreateContext rev E tm c p t)) <= 50)
  /\ (length c <= 50 -> length (store (getOrCreateContext rev E tm c p t)) <= 50)
  /\ (length c = 50 -> map_get c (generateContextHash E (p, t)) = None ->
      exists victim,
        skipn 50 (sort_desc (c ++ [(generateContextHash E (p, t), new_entry E tm p t)]))
          = [victim]
        /\ (In victim c
            \/ victim = (generateContextHash E (p, t), new_entry E tm p t))
        /\ (forall x, In x c -> (timestamp (snd victim) <= timestamp (snd x))%Z)
        /\ (timestamp (snd victim) <= now_store tm)%Z
        /\ Permutation (victim :: store (getOrCreateContext rev E tm c p t))
                       (c ++ [(generateContextHash E (p, t), new_entry E tm p t)])
        /\ length (store (getOrCreateContext rev E tm c p t)) = 50
        /\ map_get (store (getOrCreateContext rev E tm c p t)) (fst victim) = None
        /\ (forall k, k <> fst victim -> k <> generateContextHash E (p, t) ->
              map_get (store (getOrCreateContext rev E tm c p t)) k = map_get c k)
        /\ (fst victim <> generateContextHash E (p, t) ->
              map_get (store (getOrCreateContext rev E tm c p t))
                      (generateContextHash E (p, t))
              = Some (new_entry E tm p t))).
Proof.
  intros Hwf. apply well_formed_NoDup in Hwf.
  set (hash := generateContextHash E (p, t)).
  set (stored := new_entry E tm p t).
  pose proof (map_set_NoDup c hash stored Hwf) as Hnd.
  split; [| split].
  - intros Hmiss. unfold getOrCreateContext, getOrCreateContext_with.
    fold hash. rewrite Hmiss. cbn [store]. fold stored.
    apply (cleanup_length _ (cleanup_of_keeps rev) _ Hnd).
  - intros Hlen. now apply getOrCreateContext_invariant.
  - intros Hlen Hnew.
    unfold getOrCreateContext, getOrCreateContext_with. fold hash. rewrite Hnew.
    cbn [fresh store]. fold stored.
    assert (length (map_set c hash stored) = S capacity) as Hlen'.
    { rewrite map_set_length, Hnew, Hlen. reflexivity. }
    destruct (cleanup_one_over _ (cleanup_of_keeps rev) _ Hnd Hlen')
      as (v & Hv & Hin & Hmin & Hperm & Hl & Hgone & Hrest).
    pose proof (map_set_absent c hash stored Hnew) as Habs.
    rewrite <- Habs.
    exists v. split; [exact Hv |]. split.
    { rewrite Habs in Hin. apply in_app_or in Hin as [Hin | [<- | []]];
        [now left | now right]. }
    split. { intros x Hx. apply Hmin. rewrite Habs. apply in_or_app. now left. }
    split. { apply (Hmin (hash, stored)). rewrite Habs. apply in_or_app. right. now left. }
    split; [now symmetry |]. split; [exact Hl |]. split; [exact Hgone |]. split.
    + intros k Hk Hkh. rewrite (Hrest k Hk). apply map_get_set_ne. congruence.
    + intros Hvh. rewrite (Hrest hash) by congruence. apply map_get_set_eq.
Qed.

(** The full map of 50 entries created from 1000 ms on, and a request for
    a new context at 2000 ms: the entry created at 1000 ms, key "0", goes,
    and the new context is in the map. *)
Lemma cache_capacity_witness :
  length (store (getOrCreateContext InPlace Worlds.providers (Worlds.at_time 2000)
                   Worlds.full_cache (str "/p") None)) <= 50
  /\ length (store (getOrCreateContext Rebuild Worlds.providers (Worlds.at_time 2000)
                   Worlds.full_cache (str "/p") None)) <= 50
  /\ map_get (store (getOrCreateContext InPlace Worlds.providers (Worlds.at_time 2000)
                       Worlds.full_cache (str "/p") None))
             (str "0") = None
  /\ map_get (store (getOrCreateContext InPlace Worlds.providers (Worlds.at_time 2000)
                       Worlds.full_cache (str "/p") None))
             (generateContextHash Worlds.providers (str "/p", None))
     = Some (new_entry Worlds.providers (Worlds.at_time 2000) (str "/p") None).
Proof.
  destruct (cache_capacity InPlace Worlds.providers (Worlds.at_time 2000)
              Worlds.full_cache (str "/p") None eq_refl) as (H1 & _ & _).
  destruct (cache_capacity Rebuild Worlds.providers (Worlds.at_time 2000)
              Worlds.full_cache (str "/p") None eq_refl) as (H2 & _ & _).
  split; [apply H1; reflexivity |]. split; [apply H2; reflexivity |].
  split; vm_compute; reflexivity.
Defined.

End CapacityTheorems.

(** ** Hits, misses and the aggregation *)

Module ContextFacts.
Import JSFacts ContextCache CacheFacts CapacityFacts CapacityTheorems.

Local Open Scope Z_scope.

Lemma obj_get_set_eq o k v : obj_get (obj_set o k v) k = Some v.
Proof.
  induction o as [|[k' v'] o IH]; simpl.
  - now rewrite eqb_refl.
  - destruct (JS.eqb k' k) eqn:E; simpl; rewrite E; auto.
Qed.

Lemma obj_get_set_ne o k v k' : k <> k' -> obj_get (obj_set o k v) k' = obj_get o k'.
Proof.
  intros Hne. induction o as [|[k0 v0] o IH]; simpl.
  - apply eqb_neq in Hne. now rewrite Hne.
  - destruct (JS.eqb k0 k) eqn:E; simpl.
    + apply eqb_eq in E. subst k0. apply eqb_neq in Hne. now rewrite Hne.
    + destruct (JS.eqb k0 k'); auto.
Qed.

Lemma fresh_iff now e :
  fresh now (Some e) = true <-> now - timestamp e < CACHE_TTL.
Proof. unfold fresh. apply Z.ltb_lt. Qed.

Section AnyCleanup.

Variable cleanup : cache -> cache.

Lemma hit_reply E tm c p t e :
  map_get c (generateContextHash E (p, t)) = Some e ->
  now_lookup tm - timestamp e < CACHE_TTL ->
  getOrCreateContext_with cleanup E tm c p t =
    {| context := obj_set (obj_set (data e) k_cached (JBool true))
                          k_hash (JStr (generateContextHash E (p, t)));
       store := c;
       is_stored_object := false |}.
Proof.
  intros Hget Hnew. unfold getOrCreateContext_with. rewrite Hget.
  apply fresh_iff in Hnew. now rewrite Hnew.
Qed.

Lemma miss_reply E tm c p t :
  fresh (now_lookup tm) (map_get c (generateContextHash E (p, t))) = false ->
  getOrCreateContext_with cleanup E tm c p t =
    {| context := data (new_entry E tm p t);
       store := cleanup (map_set c (generateContextHash E (p, t)) (new_entry E tm p t));
       is_stored_object := true |}.
Proof.
  intros Hold. unfold getOrCreateContext_with. now rewrite Hold.
Qed.

Hypothesis Hkeeps : keeps_newest cleanup.

(** The entry just stored outlives the clean-up when there was room, when
    it replaced an entry, or when the map holds something older. *)
Lemma stored_survives c k e :
  NoDup (keys c) -> (length c <= capacity)%nat ->
  ((length c < capacity)%nat \/ map_get c k <> None \/
   exists x, In x c /\ timestamp (snd x) < timestamp e) ->
  map_get (cleanup (map_set c k e)) k = Some e.
Proof.
  intros Hnd Hlen Hcase.
  pose proof (map_set_NoDup c k e Hnd) as Hnd'.
  pose proof (map_set_length c k e) as Hl.
  destruct Hkeeps as [Hsmall _].
  destruct (map_get c k) as [old|] eqn:Hk.
  - rewrite Hsmall by lia. apply map_get_set_eq.
  - destruct (Nat.eq_dec (length c) capacity) as [Hfull | Hroom].
    + destruct Hcase as [Hlt | [Hpresent | (x & Hx & Hts)]]; [lia | congruence |].
      destruct (cleanup_one_over cleanup Hkeeps _ Hnd')
        as (v & _ & Hin & Hmin & _ & _ & _ & Hrest); [lia |].
      assert (fst v <> k) as Hv.
      { intros Hvk. destruct v as [vk ve]. simpl in Hvk. subst vk.
        apply (map_get_In _ k ve Hnd') in Hin.
        rewrite map_get_set_eq in Hin. injection Hin as <-.
        assert (In x (map_set c k e)) as Hx'
          by (rewrite (map_set_absent c k e Hk); apply in_or_app; now left).
        specialize (Hmin x Hx'). simpl in Hmin. lia. }
      rewrite Hrest by congruence. apply map_get_set_eq.
    + rewrite Hsmall by lia. apply map_get_set_eq.
Qed.

End AnyCleanup.

End ContextFacts.

Module ContextTheorems.
Import JSFacts ContextCache CacheFacts CapacityFacts CapacityTheorems ContextFacts.

Local Open Scope Z_scope.

(** C3, as the code has it. On a hit, that is for a key whose entry is
    younger than the TTL, the call returns the stored object's properties
    with [cached] set to true and [hash] set to the key: every other
    property is the stored one, and the map is left as it was. *)
Theorem hit_returns_stored_fields rev E tm c p t e :
  map_get c (generateContextHash E (p, t)) = Some e ->
  now_lookup tm - timestamp e < CACHE_TTL ->
  context (getOrCreateContext rev E tm c p t)
    = obj_set (obj_set (data e) k_cached (JBool true))
              k_hash (JStr (generateContextHash E (p, t)))
  /\ store (getOrCreateContext rev E tm c p t) = c
  /\ (forall f, f <> k_cached -> f <> k_hash ->
        obj_get (context (getOrCreateContext rev E tm c p t)) f = obj_get (data e) f)
  /\ obj_get (context (getOrCreateContext rev E tm c p t)) k_cached = Some (JBool true)
  /\ obj_get (context (getOrCreateContext rev E tm c p t)) k_hash
       = Some (JStr (generateContextHash E (p, t))).
Proof.
  intros Hget Hnew. unfold getOrCreateContext.
  rewrite (hit_reply (cleanup_of rev) E tm c p t e Hget Hnew). cbn [context store].
  split; [reflexivity |]. split; [reflexivity |]. split; [| split].
  - intros f Hc Hh. rewrite obj_get_set_ne by congruence.
    now rewrite obj_get_set_ne by congruence.
  - rewrite obj_get_set_ne by (intros H; vm_compute in H; discriminate H).
    apply obj_get_set_eq.
  - apply obj_get_set_eq.
Qed.

(** A context built at 1000 ms and asked for again at 2000 ms. *)
Lemma hit_returns_stored_fields_witness :
  obj_get (context (getOrCreateContext InPlace Worlds.providers (Worlds.at_time 2000)
                      (store (getOrCreateContext InPlace Worlds.providers
                                (Worlds.at_time 1000) [] (str "/p") None))
                      (str "/p") None))
          k_cached = Some (JBool true)
  /\ obj_get (context (getOrCreateContext InPlace Worlds.providers (Worlds.at_time 2000)
                      (store (getOrCreateContext InPlace Worlds.providers
                                (Worlds.at_time 1000) [] (str "/p") None))
                      (str "/p") None))
          k_git = Some JNull.
Proof.
  destruct (hit_returns_stored_fields InPlace Worlds.providers (Worlds.at_time 2000)
              (store (getOrCreateContext InPlace Worlds.providers
                        (Worlds.at_time 1000) [] (str "/p") None))
              (str "/p") None
              (new_entry Worlds.providers (Worlds.at_time 1000) (str "/p") None)
              eq_refl eq_refl) as (_ & _ & Hsame & Hcached & _).
  split; [exact Hcached |].
  rewrite (Hsame k_git); [reflexivity | |]; intros H; vm_compute in H; discriminate H.
Defined.

(** C3 as stated fails: the object a hit returns is not the stored one.
    The context built at 1000 ms is stored without a [cached] property; the
    hit at 2000 ms returns it with [cached] set to true. *)
Lemma hit_not_identical :
  exists e,
    map_get (store (getOrCreateContext InPlace Worlds.providers
                      (Worlds.at_time 1000) [] (str "/p") None))
            (generateContextHash Worlds.providers (str "/p", None)) = Some e
    /\ data e = context (getOrCreateContext InPlace Worlds.providers
                           (Worlds.at_time 1000) [] (str "/p") None)
    /\ 2000 - timestamp e < CACHE_TTL
    /\ is_stored_object
         (getOrCreateContext InPlace Worlds.providers (Worlds.at_time 2000)
            (store (getOrCreateContext InPlace Worlds.providers
                      (Worlds.at_time 1000) [] (str "/p") None))
            (str "/p") None) = false
    /\ obj_get (data e) k_cached = None
    /\ obj_get (context
         (getOrCreateContext InPlace Worlds.providers (Worlds.at_time 2000)
            (store (getOrCreateContext InPlace Worlds.providers
                      (Worlds.at_time 1000) [] (str "/p") None))
            (str "/p") None)) k_cached = Some (JBool true)
    /\ context
         (getOrCreateContext InPlace Worlds.providers (Worlds.at_time 2000)
            (store (getOrCreateContext InPlace Worlds.providers
                      (Worlds.at_time 1000) [] (str "/p") None))
            (str "/p") None) <> data e.
Proof.
  exists (new_entry Worlds.providers (Worlds.at_time 1000) (str "/p") None).
  repeat split; try (vm_compute; reflexivity).
  intros H. apply (f_equal (fun o => obj_get o k_cached)) in H.
  vm_compute in H. discriminate H.
Qed.

(** C4. An entry found under the key counts as present exactly while the
    clock reading minus its timestamp is below 300000 ms. While it does, the
    call is a hit and the map is not touched. Once it does not, the call is
    a miss: the lookup itself removes nothing, and the entry built by the
    regeneration, stamped with the clock reading at storing time, takes the
    old one's place under the same key. *)
Theorem entry_valid_iff rev E tm c p t e :
  map_get c (generateContextHash E (p, t)) = Some e ->
  CACHE_TTL = 300000
  /\ (fresh (now_lookup tm) (map_get c (generateContextHash E (p, t))) = true
      <-> now_lookup tm - timestamp e < 300000)
  /\ (now_lookup tm - timestamp e < 300000 ->
        is_stored_object (getOrCreateContext rev E tm c p t) = false
        /\ store (getOrCreateContext rev E tm c p t) = c)
  /\ (300000 <= now_lookup tm - timestamp e ->
        is_stored_object (getOrCreateContext rev E tm c p t) = true
        /\ store (getOrCreateContext rev E tm c p t)
             = cleanup_of rev
                 (map_set c (generateContextHash E (p, t)) (new_entry E tm p t))
        /\ length (map_set c (generateContextHash E (p, t)) (new_entry E tm p t))
             = length c
        /\ timestamp (new_entry E tm p t) = now_store tm
        /\ (well_formed c = true -> (length c <= 50)%nat ->
              map_get (store (getOrCreateContext rev E tm c p t))
                      (generateContextHash E (p, t))
                = Some (new_entry E tm p t)
              /\ length (store (getOrCreateContext rev E tm c p t)) = length c)).
Proof.
  intros Hget. split; [reflexivity |]. rewrite Hget. split; [apply fresh_iff |].
  change 300000 with CACHE_TTL. split.
  - intros Hnew. unfold getOrCreateContext.
    rewrite (hit_reply (cleanup_of rev) E tm c p t e Hget Hnew). auto.
  - intros Hold. unfold getOrCreateContext.
    assert (fresh (now_lookup tm) (map_get c (generateContextHash E (p, t))) = false)
      as Hmiss.
    { rewrite Hget. unfold fresh. apply Z.ltb_ge. exact Hold. }
    rewrite (miss_reply (cleanup_of rev) E tm c p t Hmiss). cbn [is_stored_object store].
    assert (length (map_set c (generateContextHash E (p, t)) (new_entry E tm p t))
            = length c) as Hlen
      by (rewrite map_set_length, Hget; reflexivity).
    repeat split; auto.
    + apply (stored_survives _ (cleanup_of_keeps rev)); auto.
      * now apply well_formed_NoDup.
      * right. left. congruence.
    + destruct (cleanup_of_keeps rev) as [Hsmall _]. rewrite Hsmall; [exact Hlen |].
      rewrite Hlen. assumption.
Qed.

(** An entry stored at 1000 ms, looked up at 400000 ms: it has expired,
    and the regeneration stores its successor with timestamp 400000. *)
Lemma entry_valid_iff_witness :
  fresh 400000
    (map_get (store (getOrCreateContext InPlace Worlds.providers
                       (Worlds.at_time 1000) [] (str "/p") None))
             (generateContextHash Worlds.providers (str "/p", None))) = true
  <-> 400000 - 1000 < 300000.
Proof.
  destruct (entry_valid_iff InPlace Worlds.providers (Worlds.at_time 400000)
              (store (getOrCreateContext InPlace Worlds.providers
                        (Worlds.at_time 1000) [] (str "/p") None))
              (str "/p") None
              (new_entry Worlds.providers (Worlds.at_time 1000) (str "/p") None)
              eq_refl) as (_ & Hiff & _).
  exact Hiff.
Defined.

(** The object a miss returns is the stored one: what the handler writes
    into it afterwards is found in the map, and a later hit for a request
    that brought no hash hands it out. *)
Lemma previousHash_reaches_the_map :
  exists reply1 c1 reply2 c2,
    getContextResource InPlace Worlds.providers 1000 (Worlds.at_time 1000) []
      Worlds.request_with_stale_hash = (Returned reply1, c1)
    /\ getContextResource InPlace Worlds.providers 2000 (Worlds.at_time 2000) c1
      Worlds.request_without_hash = (Returned reply2, c2)
    /\ obj_get (data (new_entry Worlds.providers (Worlds.at_time 1000) (str "/p") None))
               k_previousHash = None
    /\ obj_get reply2 k_cached = Some (JBool true)
    /\ obj_get reply2 k_previousHash = Some (JStr (str "0123abcd")).
Proof.
  do 4 eexists. split; [vm_compute; reflexivity |].
  split; [vm_compute; reflexivity |].
  repeat split; vm_compute; reflexivity.
Qed.

End ContextTheorems.

(** ** Partial failures in the aggregation *)

Module AggregationTheorems.
Import JSFacts ContextCache CacheFacts CapacityFacts CapacityTheorems ContextFacts.
Import ContextTheorems.

Local Open Scope Z_scope.

Ltac provider_cases E p t :=
  unfold build_context, add_files, add_git, add_structure;
  destruct (getProjectStructure E p 3) as [serr | sval];
  destruct (getGitContext E p false 5) as [gerr | gval];
  destruct t as [[|c0 task0] |];
  try destruct (smartFileSelection E p (c0 :: task0) 15) as [ferr | fval].

(** C8. On a miss the three providers are each asked inside their own
    [try]: a failing git provider leaves [git] null, a failing structure or
    relevance provider leaves its message under [structureError] or
    [filesError], and each provider that answers has its value in the
    context whatever the others did; the relevance provider is asked only
    for a non-empty task. The call returns that context and has stored it
    under the key; the stored entry is still there after the clean-up
    whenever the map had room, held the key already, or holds an older
    entry. *)
Theorem aggregation_records_failures rev E tm c p t :
  fresh (now_lookup tm) (map_get c (generateContextHash E (p, t))) = false ->
  context (getOrCreateContext rev E tm c p t)
    = build_context E tm (generateContextHash E (p, t)) p t
  /\ (forall err, getGitContext E p false 5 = inl err ->
        obj_get (context (getOrCreateContext rev E tm c p t)) k_git = Some JNull)
  /\ (forall v, getGitContext E p false 5 = inr v ->
        obj_get (context (getOrCreateContext rev E tm c p t)) k_git = Some v)
  /\ (forall v, getProjectStructure E p 3 = inr v ->
        obj_get (context (getOrCreateContext rev E tm c p t)) k_structure = Some v
        /\ obj_get (context (getOrCreateContext rev E tm c p t)) k_structureError = None)
  /\ (forall err, getProjectStructure E p 3 = inl err ->
        obj_get (context (getOrCreateContext rev E tm c p t)) k_structureError
          = Some (JStr err)
        /\ obj_get (context (getOrCreateContext rev E tm c p t)) k_structure = None)
  /\ (forall task v, t = Some task -> task <> [] ->
        smartFileSelection E p task 15 = inr v ->
        obj_get (context (getOrCreateContext rev E tm c p t)) k_relevantFiles = Some v
        /\ obj_get (context (getOrCreateContext rev E tm c p t)) k_filesError = None)
  /\ (forall task err, t = Some task -> task <> [] ->
        smartFileSelection E p task 15 = inl err ->
        obj_get (context (getOrCreateContext rev E tm c p t)) k_filesError
          = Some (JStr err)
        /\ obj_get (context (getOrCreateContext rev E tm c p t)) k_relevantFiles = None)
  /\ (t = None \/ t = Some [] ->
        obj_get (context (getOrCreateContext rev E tm c p t)) k_relevantFiles = None
        /\ obj_get (context (getOrCreateContext rev E tm c p t)) k_filesError = None)
  /\ store (getOrCreateContext rev E tm c p t)
       = cleanup_of rev (map_set c (generateContextHash E (p, t)) (new_entry E tm p t))
  /\ data (new_entry E tm p t) = context (getOrCreateContext rev E tm c p t)
  /\ map_get (map_set c (generateContextHash E (p, t)) (new_entry E tm p t))
             (generateContextHash E (p, t)) = Some (new_entry E tm p t)
  /\ (well_formed c = true -> (length c <= 50)%nat ->
      ((length c < 50)%nat
       \/ map_get c (generateContextHash E (p, t)) <> None
       \/ exists x, In x c /\ timestamp (snd x) < now_store tm) ->
      map_get (store (getOrCreateContext rev E tm c p t))
              (generateContextHash E (p, t)) = Some (new_entry E tm p t)).
Proof.
  intros Hmiss. unfold getOrCreateContext.
  rewrite (miss_reply (cleanup_of rev) E tm c p t Hmiss). cbn [context store].
  change (data (new_entry E tm p t))
    with (build_context E tm (generateContextHash E (p, t)) p t).
  set (hash := generateContextHash E (p, t)).
  split; [reflexivity |].
  split. { intros err H. provider_cases E p t; try discriminate; vm_compute; reflexivity. }
  split. { intros v H. provider_cases E p t; try discriminate;
           injection H as ->; vm_compute; reflexivity. }
  split. { intros v H. provider_cases E p t; try discriminate;
           injection H as ->; split; vm_compute; reflexivity. }
  split. { intros err H. provider_cases E p t; try discriminate;
           injection H as ->; split; vm_compute; reflexivity. }
  split. { intros task v -> Htask H. destruct task as [|c0 task0]; [congruence |].
           unfold build_context, add_files. rewrite H.
           unfold add_git, add_structure.
           destruct (getProjectStructure E p 3), (getGitContext E p false 5);
             split; vm_compute; reflexivity. }
  split. { intros task err -> Htask H. destruct task as [|c0 task0]; [congruence |].
           unfold build_context, add_files. rewrite H.
           unfold add_git, add_structure.
           destruct (getProjectStructure E p 3), (getGitContext E p false 5);
             split; vm_compute; reflexivity. }
  split. { intros [-> | ->]; unfold build_context, add_files, add_git, add_structure;
           destruct (getProjectStructure E p 3), (getGitContext E p false 5);
             split; vm_compute; reflexivity. }
  split; [reflexivity |]. split; [reflexivity |].
  split; [apply map_get_set_eq |].
  intros Hwf Hlen Hcase.
  apply (stored_survives _ (cleanup_of_keeps rev)); auto.
  now apply well_formed_NoDup.
Qed.

(** A directory that is not a git repository, with a task: [git] is null,
    [structure] and [relevantFiles] are there, and the context is in the
    map. With providers that all fail the call still returns, and the
    context carries both messages. *)
Lemma aggregation_records_failures_witness :
  obj_get (context (getOrCreateContext InPlace Worlds.providers (Worlds.at_time 1000)
                      [] (str "/p") (Some (str "fix the parser"))))
          k_git = Some JNull
  /\ obj_get (context (getOrCreateContext InPlace Worlds.providers (Worlds.at_time 1000)
                      [] (str "/p") (Some (str "fix the parser"))))
          k_structure = Some (JObj [(str "tree", JArr [])])
  /\ obj_get (context (getOrCreateContext InPlace Worlds.providers (Worlds.at_time 1000)
                      [] (str "/p") (Some (str "fix the parser"))))
          k_relevantFiles = Some (JArr [JStr (str "fix the parser")])
  /\ obj_get (context (getOrCreateContext InPlace Worlds.failing_providers
                      (Worlds.at_time 1000) [] (str "/p") (Some (str "fix the parser"))))
          k_structureError
       = Some (JStr (str "Error: Failed to get project structure: Path is not a directory")).
Proof.
  destruct (aggregation_records_failures InPlace Worlds.providers (Worlds.at_time 1000)
              [] (str "/p") (Some (str "fix the parser")) eq_refl)
    as (_ & Hgit & _ & Hstruct & _ & Hfiles & _).
  destruct (aggregation_records_failures InPlace Worlds.failing_providers
              (Worlds.at_time 1000) [] (str "/p") (Some (str "fix the parser")) eq_refl)
    as (_ & _ & _ & _ & Hserr & _).
  split; [apply (Hgit _ eq_refl) |].
  split; [apply (Hstruct _ eq_refl) |].
  split; [apply (Hfiles _ _ eq_refl); [discriminate | reflexivity] |].
  apply (Hserr _ eq_refl).
Defined.

Lemma serve_reachable rev now reqs : forall c,
  reachable rev c -> reachable rev (fold_left (CacheWorlds.serve rev now) reqs c).
Proof.
  induction reqs as [|req reqs IH]; intros c Hc; cbn [fold_left]; [exact Hc |].
  apply IH. unfold CacheWorlds.serve. now apply reach_request.
Qed.

(** C8 as stated fails where it says that the payload is cached. A
    server that has stored fifty contexts within one millisecond holds a
    full map; the fifty-first request of that millisecond is a miss, the
    call returns the context it built, and the clean-up that follows the
    [set] removes that very entry, the last of the stable sort: the map
    does not hold the payload afterwards, in either revision. *)
Lemma aggregation_not_always_cached :
  (forall rev,
     reachable rev (CacheWorlds.busy_cache rev)
     /\ length (CacheWorlds.busy_cache rev) = 50%nat
     /\ fresh 1000 (map_get (CacheWorlds.busy_cache rev)
                      (generateContextHash Worlds.providers (str "/p", None))) = false
     /\ context (getOrCreateContext rev Worlds.providers (Worlds.at_time 1000)
                   (CacheWorlds.busy_cache rev) (str "/p") None)
        = build_context Worlds.providers (Worlds.at_time 1000)
            (generateContextHash Worlds.providers (str "/p", None)) (str "/p") None
     /\ map_get (store (getOrCreateContext rev Worlds.providers (Worlds.at_time 1000)
                          (CacheWorlds.busy_cache rev) (str "/p") None))
                (generateContextHash Worlds.providers (str "/p", None)) = None)
  /\ ~ (forall rev E tm c p t,
          reachable rev c ->
          fresh (now_lookup tm) (map_get c (generateContextHash E (p, t))) = false ->
          map_get (store (getOrCreateContext rev E tm c p t))
                  (generateContextHash E (p, t)) = Some (new_entry E tm p t)).
Proof.
  assert (forall rev,
     reachable rev (CacheWorlds.busy_cache rev)
     /\ length (CacheWorlds.busy_cache rev) = 50%nat
     /\ fresh 1000 (map_get (CacheWorlds.busy_cache rev)
                      (generateContextHash Worlds.providers (str "/p", None))) = false
     /\ context (getOrCreateContext rev Worlds.providers (Worlds.at_time 1000)
                   (CacheWorlds.busy_cache rev) (str "/p") None)
        = build_context Worlds.providers (Worlds.at_time 1000)
            (generateContextHash Worlds.providers (str "/p", None)) (str "/p") None
     /\ map_get (store (getOrCreateContext rev Worlds.providers (Worlds.at_time 1000)
                          (CacheWorlds.busy_cache rev) (str "/p") None))
                (generateContextHash Worlds.providers (str "/p", None)) = None) as Hfacts.
  { intros rev. split.
    - unfold CacheWorlds.busy_cache. apply serve_reachable. constructor.
    - destruct rev; repeat split; vm_compute; reflexivity. }
  split; [exact Hfacts |].
  intros Hclaim.
  destruct (Hfacts InPlace) as (Hreach & _ & Hmiss & _ & Hgone).
  specialize (Hclaim InPlace Worlds.providers (Worlds.at_time 1000)
                (CacheWorlds.busy_cache InPlace) (str "/p") None Hreach Hmiss).
  rewrite Hgone in Hclaim. discriminate Hclaim.
Qed.

End AggregationTheorems.

(** ** The cache key *)

Module KeyFacts.
Import JSFacts ContextCache.

Local Open Scope N_scope.













Import ContextKeys.



End KeyFacts.

(** * Further properties *)

(** ** Searching *)

Module SearchMoreFacts.
Import JSFacts Regex Search SearchMore SearchCodebaseFacts.

Lemma is_special_backslash : is_special 92 = true.
Proof. reflexivity. Qed.

(** X1. The literal-search escaping loses nothing: dropping each
    backslash and keeping the character after it gives the query back, so
    two different queries are never escaped to the same source. *)
Theorem escape_query_round_trip :
  (forall q, Worlds.unescape (escape_query q) = q)
  /\ (forall q1 q2, escape_query q1 = escape_query q2 -> q1 = q2).
Proof.
  assert (forall q, Worlds.unescape (escape_query q) = q) as Hrt.
  { induction q as [|c q IH]; [reflexivity |].
    unfold escape_query in *. cbn [flat_map].
    destruct (is_special c) eqn:Hs; cbn [app Worlds.unescape].
    - now rewrite IH.
    - destruct (N.eqb_spec c 92) as [-> | _]; [discriminate Hs | now rewrite IH]. }
  split; [exact Hrt |].
  intros q1 q2 H. rewrite <- (Hrt q1), <- (Hrt q2), H. reflexivity.
Qed.

Lemma searchInFile_log E fuel f q ty src :
  In src (snd (searchInFile E fuel f q ty)) ->
  src = effective_source ty q
  /\ (ty = TRegex -> isRegexSafe q maxLength_default = true).
Proof.
  unfold searchInFile, searchInFile_try.
  destruct (readFile E f) as [m | content]; [intros [] |].
  destruct ty; cbn [effective_source].
  - destruct (scan_lines _ _ _ _ _ _ _); intros [<- | []]; split; auto; discriminate.
  - destruct (isRegexSafe q maxLength_default) eqn:Hsafe; cbn [negb]; [| intros []].
    destruct (regexp_syntax_error E q).
    + intros [<- | []]. auto.
    + destruct (scan_lines _ _ _ _ _ _ _); intros [<- | []]; auto.
  - destruct (scan_lines _ _ _ _ _ _ _); intros [<- | []]; split; auto; discriminate.
Qed.

Lemma search_files_log E fuel files q ty src :
  In src (snd (search_files E fuel files q ty)) ->
  src = effective_source ty q
  /\ (ty = TRegex -> isRegexSafe q maxLength_default = true).
Proof.
  induction files as [|f files IH]; cbn [search_files].
  - intros [].
  - destruct (searchInFile E fuel f q ty) as [o lg] eqn:Hf.
    destruct (search_files E fuel files q ty) as [os lgs]. cbn [snd] in *.
    intros Hin. apply in_app_or in Hin as [Hin | Hin]; [| auto].
    apply (searchInFile_log E fuel f q ty). rewrite Hf. exact Hin.
Qed.

Lemma search_files_never_throws E fuel files q ty m :
  fst (search_files E fuel files q ty) <> Thrown m.
Proof.
  induction files as [|f files IH]; cbn [search_files]; [discriminate |].
  assert (forall m', fst (searchInFile E fuel f q ty) <> Thrown m') as Hf.
  { intros m'. unfold searchInFile.
    destruct (searchInFile_try E fuel f q ty) as [[rs | m0 |] lg]; discriminate. }
  destruct (searchInFile E fuel f q ty) as [o lg].
  destruct (search_files E fuel files q ty) as [os lgs]. cbn [fst] in *.
  destruct o as [rs | m0 |]; [| exfalso; now apply (Hf m0) |];
    destruct os as [rss | m1 |]; try discriminate.
  exact IH.
Qed.

Lemma searchCodebase_log E fuel args :
  snd (searchCodebase E fuel args) = []
  \/ exists files,
       snd (searchCodebase E fuel args)
       = snd (search_files E fuel files (query args)
                (match searchType_arg args with
                 | Some TRegex => TRegex
                 | _ => TText
                 end)).
Proof.
  unfold searchCodebase, searchCodebase_try.
  destruct (projectPath args); [now left |].
  destruct (negb _); [now left |].
  destruct (stat_isDirectory E _) as [m | []]; try (now left).
  destruct (_ || _); [now left |].
  destruct (getMatchingFiles E _ _) as [m | files]; [now left |].
  right. exists files.
  destruct (searchType_arg args) as [[]|]; cbv beta iota;
    destruct (search_files E fuel files (query args) _) as [[rs | m0 |] lg];
    reflexivity.
Qed.

(** X2. Whatever a request hands to the [RegExp] constructor is, for a
    regex search, the query itself and one the gate has accepted, and for a
    text or semantic search the escaped query. *)
Theorem compiled_patterns E fuel args src :
  In src (snd (searchCodebase E fuel args)) ->
  (searchType_arg args = Some TRegex
   /\ src = query args
   /\ isRegexSafe (query args) maxLength_default = true)
  \/ (searchType_arg args <> Some TRegex /\ src = escape_query (query args)).
Proof.
  destruct (searchCodebase_log E fuel args) as [-> | (files & ->)]; [intros [] |].
  intros Hin. apply search_files_log in Hin as [-> Hsafe].
  destruct (searchType_arg args) as [[]|]; cbn [effective_source];
    first [ left; repeat split; auto; fail
          | right; split; [discriminate | reflexivity] ].
Qed.

(** A text search on the literal engine. *)
Lemma compiled_patterns_witness :
  In (str "foo")
     (snd (searchCodebase (Worlds.search_world MoreWorlds.two_files) 50
             MoreWorlds.foo_request))
  /\ ((searchType_arg MoreWorlds.foo_request = Some TRegex
       /\ str "foo" = query MoreWorlds.foo_request
       /\ isRegexSafe (query MoreWorlds.foo_request) maxLength_default = true)
      \/ (searchType_arg MoreWorlds.foo_request <> Some TRegex
          /\ str "foo" = escape_query (query MoreWorlds.foo_request))).
Proof.
  assert (In (str "foo")
            (snd (searchCodebase (Worlds.search_world MoreWorlds.two_files) 50
                    MoreWorlds.foo_request))) as Hin
    by (vm_compute; left; reflexivity).
  split; [exact Hin |].
  exact (compiled_patterns _ _ _ _ Hin).
Defined.

(** X3. A request fails only while its arguments are checked or the files
    are listed, never because of what happened in a file; its message
    carries the operation's prefix, and nothing has been compiled. *)
Theorem failure_is_validation E fuel args m :
  fst (searchCodebase E fuel args) = Thrown m ->
  snd (searchCodebase E fuel args) = []
  /\ (exists m', m = failed_prefix ++ m')
  /\ (projectPath args = []
      \/ isAbsolute E (projectPath args) = false
      \/ stat_isDirectory E (projectPath args) <> inr true
      \/ trim_is_empty (query args) = true
      \/ exists m', getMatchingFiles E (projectPath args) (filePattern args) = inl m').
Proof.
  unfold searchCodebase, searchCodebase_try.
  destruct (projectPath args) as [|c p] eqn:Hp.
  { cbn. intros H. injection H as <-. repeat split; eauto. }
  destruct (isAbsolute E (c :: p)) eqn:Habs; cbn [negb].
  2:{ cbn. intros H. injection H as <-. repeat split; eauto. }
  destruct (stat_isDirectory E (c :: p)) as [sm | []] eqn:Hst.
  1:{ cbn. intros H. injection H as <-. repeat split; eauto.
      right. right. left. discriminate. }
  2:{ cbn. intros H. injection H as <-. repeat split; eauto.
      right. right. left. discriminate. }
  destruct (Nat.eqb (length (query args)) 0 || trim_is_empty (query args)) eqn:Hq.
  { cbn. intros H. injection H as <-. repeat split; eauto.
    right. right. right. left.
    destruct (query args); [reflexivity |]. exact Hq. }
  destruct (getMatchingFiles E (c :: p) (filePattern args)) as [gm | files] eqn:Hg.
  { cbn. intros H. injection H as <-. repeat split; eauto.
    right. right. right. right. eauto. }
  destruct (searchType_arg args) as [[]|]; cbv beta iota;
    match goal with
    | |- context [search_files E fuel files (query args) ?t] =>
        pose proof (search_files_never_throws E fuel files (query args) t) as Hn
    end;
    destruct (search_files E fuel files (query args) _) as [[rs | m0 |] lg];
    cbn; try discriminate; intros _; exfalso; apply (Hn m0); reflexivity.
Qed.

(** A blank query. *)
Lemma failure_is_validation_witness :
  snd (searchCodebase (Worlds.search_world MoreWorlds.two_files) 50
         {| projectPath := str "/p"; query := str "   ";
            searchType_arg := Some TRegex; filePattern := None |}) = [].
Proof.
  destruct (failure_is_validation (Worlds.search_world MoreWorlds.two_files) 50
              {| projectPath := str "/p"; query := str "   ";
                 searchType_arg := Some TRegex; filePattern := None |}
              (failed_prefix ++ str "query is required") eq_refl) as (H & _).
  exact H.
Defined.

(** *** The matching loop *)

Lemma exec_loop_stuck E src l :
  regexp_exec E src l 0 = Some (0, []) ->
  forall fuel, exec_loop E fuel src l 0 = None.
Proof.
  intros H fuel. induction fuel as [|fuel IH]; cbn [exec_loop]; [reflexivity |].
  rewrite H. cbn [length Nat.add]. now rewrite IH.
Qed.

Lemma scan_lines_stuck E fuel src f lines l :
  (forall fuel', exec_loop E fuel' src l 0 = None) ->
  forall rest i, In l rest -> scan_lines E fuel src f lines rest i = None.
Proof.
  intros Hl rest. induction rest as [|l0 rest IH]; intros i Hin; [destruct Hin |].
  cbn [scan_lines]. destruct (exec_loop E fuel src l0 0) as [ms|] eqn:Hms; [| reflexivity].
  destruct Hin as [-> | Hin]; [rewrite Hl in Hms; discriminate |].
  now rewrite (IH (S i) Hin).
Qed.

Lemma search_files_diverges E fuel files q ty f :
  In f files ->
  fst (searchInFile E fuel f q ty) = Diverged ->
  fst (search_files E fuel files q ty) = Diverged.
Proof.
  intros Hin Hf. induction files as [|f0 files IH]; [destruct Hin |].
  cbn [search_files].
  destruct (searchInFile E fuel f0 q ty) as [o lg] eqn:H0.
  destruct (search_files E fuel files q ty) as [os lgs]. cbn [fst] in *.
  destruct Hin as [-> | Hin].
  - rewrite H0 in Hf. cbn [fst] in Hf. subst o. reflexivity.
  - rewrite (IH Hin). destruct o; reflexivity.
Qed.

(** X4. A pattern whose match on some line of some file is empty keeps the
    loop over that line running for ever: [lastIndex] stays where it is, and
    the request never returns, whatever else the files hold. The gate does
    not stop such patterns: "a*" passes it. *)
Theorem empty_match_never_returns E fuel args files f content l :
  projectPath args <> [] ->
  isAbsolute E (projectPath args) = true ->
  stat_isDirectory E (projectPath args) = inr true ->
  trim_is_empty (query args) = false ->
  getMatchingFiles E (projectPath args) (filePattern args) = inr files ->
  In f files ->
  readFile E f = inr content ->
  In l (split_on 10 content) ->
  searchType_arg args = Some TRegex ->
  isRegexSafe (query args) maxLength_default = true ->
  regexp_syntax_error E (query args) = None ->
  regexp_exec E (query args) l 0 = Some (0, []) ->
  fst (searchCodebase E fuel args) = Diverged.
Proof.
  intros Hp Habs Hdir Hq Hfiles Hf Hread Hl Hty Hsafe Hsyn Hexec.
  assert (fst (searchInFile E fuel f (query args) TRegex) = Diverged) as Hfile.
  { unfold searchInFile, searchInFile_try. rewrite Hread, Hsafe, Hsyn. cbn [negb].
    rewrite (scan_lines_stuck E fuel (query args) f (split_on 10 content) l
               (exec_loop_stuck E (query args) l Hexec) (split_on 10 content) 0 Hl).
    reflexivity. }
  pose proof (search_files_diverges E fuel files (query args) TRegex f Hf Hfile) as Hall.
  unfold searchCodebase, searchCodebase_try. rewrite Hty, Habs, Hdir, Hq, Hfiles.
  destruct (projectPath args) as [|c p]; [congruence |].
  assert (Nat.eqb (length (query args)) 0 = false) as ->
    by (destruct (query args); [discriminate | reflexivity]).
  cbn [negb orb].
  destruct (search_files E fuel files (query args) TRegex) as [o lg].
  cbn [fst] in Hall. subst o. reflexivity.
Qed.

(** The pattern "a*" over a file that holds "bbb". *)
Lemma empty_match_never_returns_witness :
  isRegexSafe (str "a*") maxLength_default = true
  /\ fst (searchCodebase MoreWorlds.hanging_world 1000 MoreWorlds.star_request)
     = Diverged.
Proof.
  split; [vm_compute; reflexivity |].
  apply (empty_match_never_returns MoreWorlds.hanging_world 1000 MoreWorlds.star_request
           [str "/p/a.txt"] (str "/p/a.txt") (str "bbb") (str "bbb"));
    try reflexivity.
  - discriminate.
  - now left.
  - now left.
Defined.

Lemma exec_loop_returns E src subject :
  progressing E src ->
  forall fuel i,
    length subject - i < fuel ->
    exists ms, exec_loop E fuel src subject i = Some ms
               /\ length ms <= length subject - i.
Proof.
  intros Hprog fuel. induction fuel as [|fuel IH]; intros i Hfuel; [lia |].
  cbn [exec_loop].
  destruct (regexp_exec E src subject i) as [[index m]|] eqn:Hexec.
  - destruct (Hprog subject i index m Hexec) as (Hi & Hm & Hend).
    assert (0 < length m) by (destruct m; [congruence | simpl; lia]).
    destruct (IH (index + length m)) as (ms & -> & Hms); [lia |].
    exists ((index, m) :: ms). split; [reflexivity |]. simpl. lia.
  - exists []. split; [reflexivity |]. simpl. lia.
Qed.

Lemma scan_lines_returns E fuel src f lines :
  progressing E src ->
  forall rest i,
    Forall (fun l => length l < fuel) rest ->
    exists rs, scan_lines E fuel src f lines rest i = Some rs
               /\ length rs <= list_sum (map (@length N) rest).
Proof.
  intros Hprog rest. induction rest as [|l rest IH]; intros i Hall.
  - exists []. split; [reflexivity | simpl; lia].
  - inversion Hall as [|? ? Hl Hrest]; subst. cbn [scan_lines].
    destruct (exec_loop_returns E src l Hprog fuel 0) as (ms & -> & Hms); [lia |].
    destruct (IH (S i) Hrest) as (more & -> & Hmore).
    eexists. split; [reflexivity |].
    rewrite length_app, length_map. simpl. lia.
Qed.

Lemma split_on_lengths sep s :
  list_sum (map (@length N) (split_on sep s)) <= length s
  /\ Forall (fun l => length l <= length s) (split_on sep s).
Proof.
  induction s as [|c s [IHsum IHall]]; cbn [split_on].
  - split; [simpl; lia | constructor; [simpl; lia | constructor]].
  - destruct (N.eqb c sep).
    + split; [simpl in *; lia |].
      constructor; [simpl; lia |].
      eapply Forall_impl; [| exact IHall]. simpl. intros; lia.
    + destruct (split_on sep s) as [|l ls].
      * split; [simpl; lia | constructor; [simpl; lia | constructor]].
      * inversion IHall as [|? ? Hl Hls]; subst. split; [simpl in *; lia |].
        constructor; [simpl; lia |].
        eapply Forall_impl; [| exact Hls]. simpl. intros; lia.
Qed.

(** X5. With an engine whose matches for the pattern are never empty and
    lie inside the line from [lastIndex] on, the search of a file comes back
    once the fuel exceeds the file's length, and it finds no more matches
    than the file has characters. *)
Theorem searchInFile_returns E fuel f q ty :
  progressing E (effective_source ty q) ->
  (forall content, readFile E f = inr content -> length content < fuel) ->
  exists rs,
    fst (searchInFile E fuel f q ty) = Returned rs
    /\ (forall content, readFile E f = inr content -> length rs <= length content).
Proof.
  intros Hprog Hfuel. unfold searchInFile, searchInFile_try.
  destruct (readFile E f) as [m | content] eqn:Hread.
  { exists []. split; [reflexivity | intros ? H; discriminate H]. }
  specialize (Hfuel content eq_refl).
  destruct (split_on_lengths 10 content) as [Hsum Hall].
  assert (Forall (fun l => length l < fuel) (split_on 10 content)) as Hlines.
  { eapply Forall_impl; [| exact Hall]. simpl. intros; lia. }
  destruct (scan_lines_returns E fuel (effective_source ty q) f (split_on 10 content)
              Hprog (split_on 10 content) 0 Hlines) as (found & Hscan & Hfound).
  match goal with
  | |- exists r, fst ?X = _ /\ _ =>
      assert (exists r0, fst X = Returned r0 /\ length r0 <= length content)
        as Hex
  end.
  { destruct ty; cbn [effective_source] in Hscan.
    - rewrite Hscan. exists found. split; [reflexivity | lia].
    - destruct (isRegexSafe q maxLength_default); cbn [negb].
      + destruct (regexp_syntax_error E q).
        * exists []. split; [reflexivity | simpl; lia].
        * rewrite Hscan. exists found. split; [reflexivity | lia].
      + exists []. split; [reflexivity | simpl; lia].
    - rewrite Hscan. exists found. split; [reflexivity | lia]. }
  destruct Hex as (r & H1 & H2).
  exists r. split; [exact H1 |]. intros c0 Hc. injection Hc as <-. exact H2.
Qed.

Lemma find_at_bounds pat : forall s offset i,
  Worlds.find_at pat s offset = Some i ->
  offset <= i /\ i + length pat <= offset + length s.
Proof.
  induction s as [|c s IH]; intros offset i; cbn [Worlds.find_at].
  - destruct pat; [| discriminate]. intros H. injection H as <-. simpl. lia.
  - destruct (startsWith (c :: s) pat) eqn:Hsw.
    + intros H. injection H as <-. apply startsWith_prefix in Hsw as [t Ht].
      apply (f_equal (@length N)) in Ht. rewrite length_app in Ht. lia.
    + intros H. apply IH in H. simpl. lia.
Qed.

Lemma literal_progressing files src :
  Worlds.unescape src <> [] -> progressing (Worlds.search_world files) src.
Proof.
  intros Hne subject i index m. cbn [regexp_exec Worlds.search_world].
  unfold Worlds.literal_exec.
  destruct (Nat.ltb_spec (length subject) i) as [Hlt | Hge]; [discriminate |].
  destruct (Worlds.find_at _ _ _) as [j|] eqn:Hfind; [| discriminate].
  intros H. injection H as <- <-. apply find_at_bounds in Hfind.
  rewrite length_skipn in Hfind. repeat split; [lia | assumption | lia].
Qed.

(** The literal "foo" over a file of 17 characters. *)
Lemma searchInFile_returns_witness :
  exists rs,
    fst (searchInFile (Worlds.search_world MoreWorlds.two_files) 50
           (str "/p/a.txt") (str "foo") TText) = Returned rs
    /\ length rs <= 17.
Proof.
  destruct (searchInFile_returns (Worlds.search_world MoreWorlds.two_files) 50
              (str "/p/a.txt") (str "foo") TText) as (rs & Hrs & Hlen).
  - apply literal_progressing. discriminate.
  - intros content H. vm_compute in H. injection H as <-.
    apply Nat.ltb_lt. vm_compute. reflexivity.
  - exists rs. split; [exact Hrs |]. apply (Hlen _ eq_refl).
Defined.

Lemma StronglySorted_app {A} (R : A -> A -> Prop) l1 l2 :
  StronglySorted R l1 -> StronglySorted R l2 ->
  (forall x y, In x l1 -> In y l2 -> R x y) ->
  StronglySorted R (l1 ++ l2).
Proof.
  induction l1 as [|a l1 IH]; intros H1 H2 Hx; simpl; [assumption |].
  apply StronglySorted_inv in H1 as [H1 Ha]. constructor.
  - apply IH; auto. intros x y Hin Hy. apply Hx; [now right | assumption].
  - apply Forall_app. split; [assumption |].
    apply Forall_forall. intros y Hy. apply Hx; [now left | assumption].
Qed.

Lemma StronglySorted_constant (n : nat) l :
  Forall (fun x => x = n) l -> StronglySorted le l.
Proof.
  induction 1 as [|x l Hx Hl IH]; constructor; [assumption |].
  subst x. eapply Forall_impl; [| exact Hl]. simpl. intros; lia.
Qed.

Lemma scan_lines_positions E fuel src f lines :
  forall rest i rs,
    scan_lines E fuel src f lines rest i = Some rs ->
    Forall (fun r => file r = f /\ i < line r <= i + length rest /\ 1 <= column r) rs
    /\ StronglySorted le (map line rs).
Proof.
  induction rest as [|l rest IH]; intros i rs; cbn [scan_lines].
  - intros H. injection H as <-. split; constructor.
  - destruct (exec_loop E fuel src l 0) as [ms|]; [| discriminate].
    destruct (scan_lines E fuel src f lines rest (S i)) as [more|] eqn:Hmore;
      [| discriminate].
    intros H. injection H as <-. destruct (IH (S i) more Hmore) as [Hpos Hsorted].
    split.
    + apply Forall_app. split.
      * apply Forall_forall. intros r Hr. apply in_map_iff in Hr as (im & <- & _).
        cbn [file line column length]. repeat split; lia.
      * eapply Forall_impl; [| exact Hpos]. cbn [length]. intros r (? & ? & ?).
        repeat split; auto; lia.
    + rewrite map_app. apply StronglySorted_app.
      * apply (StronglySorted_constant (i + 1)). rewrite map_map.
        apply Forall_forall. intros n Hn. apply in_map_iff in Hn as (im & <- & _).
        reflexivity.
      * exact Hsorted.
      * intros x y Hx Hy. rewrite map_map in Hx.
        apply in_map_iff in Hx as (im & <- & _). cbn [line].
        apply in_map_iff in Hy as (r & <- & Hr).
        rewrite Forall_forall in Hpos. destruct (Hpos r Hr) as (_ & ? & _). lia.
Qed.

Lemma searchInFile_cases E fuel f q ty content :
  readFile E f = inr content ->
  fst (searchInFile E fuel f q ty) = Returned []
  \/ fst (searchInFile E fuel f q ty) = Diverged
  \/ exists src found,
       scan_lines E fuel src f (split_on 10 content) (split_on 10 content) 0
         = Some found
       /\ fst (searchInFile E fuel f q ty) = Returned found.
Proof.
  intros Hread. unfold searchInFile, searchInFile_try. rewrite Hread.
  destruct ty; [| destruct (isRegexSafe q maxLength_default); cbn [negb];
                  [destruct (regexp_syntax_error E q) |] |];
    try (left; reflexivity);
    match goal with
    | |- context [scan_lines E fuel ?src f ?a ?b 0] =>
        destruct (scan_lines E fuel src f a b 0) as [found|] eqn:Hscan;
        [right; right; exists src, found; split; [exact Hscan | reflexivity]
        | right; left; reflexivity]
    end.
Qed.

(** X6. Every result of a file search names that file, a line between 1
    and the number of lines of the file and a column from 1 on, and the
    results come in the order of their lines. *)
Theorem searchInFile_positions E fuel f q ty content rs :
  readFile E f = inr content ->
  fst (searchInFile E fuel f q ty) = Returned rs ->
  Forall (fun r => file r = f
                   /\ 1 <= line r <= length (split_on 10 content)
                   /\ 1 <= column r) rs
  /\ StronglySorted le (map line rs).
Proof.
  intros Hread Hrs.
  destruct (searchInFile_cases E fuel f q ty content Hread)
    as [H | [H | (src & found & Hscan & H)]]; rewrite H in Hrs.
  - injection Hrs as <-. split; constructor.
  - discriminate.
  - injection Hrs as <-.
    destruct (scan_lines_positions E fuel src f _ _ _ _ Hscan) as [Hpos Hsorted].
    split; [| exact Hsorted].
    eapply Forall_impl; [| exact Hpos]. cbn. intros r (? & ? & ?).
    repeat split; auto; lia.
Qed.

(** "foo" in a file of two lines: three results, on lines 1, 2 and 2. *)
Lemma searchInFile_positions_witness :
  exists rs,
    fst (searchInFile (Worlds.search_world MoreWorlds.two_files) 50
           (str "/p/a.txt") (str "foo") TText) = Returned rs
    /\ map line rs = [1; 2; 2]
    /\ StronglySorted le (map line rs).
Proof.
  eexists. split; [vm_compute; reflexivity |]. split; [reflexivity |].
  apply (searchInFile_positions (Worlds.search_world MoreWorlds.two_files) 50
           (str "/p/a.txt") (str "foo") TText
           (str "foo bar" ++ 10%N :: str "x foo foo") _ eq_refl eq_refl).
Defined.

Lemma exec_loop_carry_eq E src l : forall fuel i,
  exec_loop_carry E fuel src l i =
  match exec_loop E fuel src l i with
  | Some ms => Some (ms, 0)
  | None => None
  end.
Proof.
  induction fuel as [|fuel IH]; intros i; cbn [exec_loop_carry exec_loop];
    [reflexivity |].
  destruct (regexp_exec E src l i) as [[index m]|]; [| reflexivity].
  rewrite IH. destruct (exec_loop E fuel src l (index + length m)); reflexivity.
Qed.

Lemma scan_lines_carry_eq E fuel src f lines : forall rest i,
  scan_lines_carry E fuel src f lines rest i 0 = scan_lines E fuel src f lines rest i.
Proof.
  induction rest as [|l rest IH]; intros i; cbn [scan_lines_carry scan_lines];
    [reflexivity |].
  rewrite exec_loop_carry_eq. destruct (exec_loop E fuel src l 0); [| reflexivity].
  now rewrite IH.
Qed.

(** X7. The two revisions of [searchInFile] do the same, results and
    compiled sources alike, on every text search and on every regex search
    whose pattern the gate accepts; they part only on a refused pattern of
    a readable file, which the revision without the gate hands to the
    [RegExp] constructor. *)
Theorem ungated_agrees E fuel f q ty :
  ((ty = TRegex -> isRegexSafe q maxLength_default = true) ->
     searchInFile_ungated E fuel f q ty = searchInFile E fuel f q ty)
  /\ (forall content,
        ty = TRegex -> isRegexSafe q maxLength_default = false ->
        readFile E f = inr content ->
        snd (searchInFile_ungated E fuel f q ty) = [q]
        /\ searchInFile E fuel f q ty = (Returned [], [])).
Proof.
  split.
  - intros Hsafe. unfold searchInFile_ungated, searchInFile, searchInFile_try.
    destruct (readFile E f) as [m | content]; [reflexivity |].
    rewrite scan_lines_carry_eq.
    destruct ty; cbn [effective_source].
    + destruct (scan_lines _ _ _ _ _ _ _); reflexivity.
    + rewrite (Hsafe eq_refl). cbn [negb].
      destruct (regexp_syntax_error E q); [reflexivity |].
      destruct (scan_lines _ _ _ _ _ _ _); reflexivity.
    + destruct (scan_lines _ _ _ _ _ _ _); reflexivity.
  - intros content -> Hunsafe Hread. split.
    + unfold searchInFile_ungated. rewrite Hread. cbn [effective_source].
      destruct (regexp_syntax_error E q); [reflexivity |].
      destruct (scan_lines_carry _ _ _ _ _ _ _ _); reflexivity.
    + apply (searchInFile_unsafe E fuel f q Hunsafe).
Qed.

End SearchMoreFacts.

(** ** The context cache over many requests *)

Module ContextMoreFacts.
Import JSFacts ContextCache ContextMore CacheFacts CapacityFacts CapacityTheorems.
Import ContextFacts.

Local Open Scope Z_scope.

Lemma in_map_set c k e x :
  In x (map_set c k e) -> x = (k, e) \/ In x c.
Proof.
  induction c as [|[k' e'] c IH]; simpl.
  - intros [<- | []]. now left.
  - destruct (JS.eqb k' k) eqn:E; simpl.
    + apply eqb_eq in E. subst k'. intros [<- | H]; auto.
    + intros [<- | H]; auto. destruct (IH H); auto.
Qed.

Lemma in_cleanup rev c x :
  NoDup (keys c) -> In x (cleanup_of rev c) -> In x c.
Proof.
  intros Hnd Hin. destruct (cleanup_of_keeps rev) as [Hsmall Hbig].
  destruct (Nat.le_gt_cases (length c) capacity) as [H | H].
  - now rewrite Hsmall in Hin.
  - apply (Permutation_in _ (Hbig c Hnd H)) in Hin.
    apply (Permutation_in _ (sort_desc_Permutation c)).
    rewrite <- (firstn_skipn capacity (sort_desc c)). apply in_or_app. now left.
Qed.

Lemma in_set_stored_property c k field v x :
  In x (set_stored_property c k field v) ->
  In x c
  \/ exists e, In (k, e) c
               /\ x = (k, {| timestamp := timestamp e;
                             data := obj_set (data e) field v |}).
Proof.
  induction c as [|[k' e'] c IH]; simpl; [tauto |].
  destruct (JS.eqb k' k) eqn:E; simpl.
  - apply eqb_eq in E. subst k'. intros [<- | H]; [| auto].
    right. exists e'. auto.
  - intros [<- | H]; [auto |]. destruct (IH H) as [? | (e & ? & ?)]; [auto |].
    right. exists e. auto.
Qed.

Lemma build_context_hash E tm hash p t :
  obj_get (build_context E tm hash p t) k_hash = Some (JStr hash).
Proof.
  unfold build_context, add_files, add_git, add_structure.
  destruct (getProjectStructure E p 3), (getGitContext E p false 5);
    destruct t as [[|c0 task0] |];
    try destruct (smartFileSelection E p (c0 :: task0) 15);
    vm_compute; reflexivity.
Qed.

Lemma getOrCreateContext_keyed rev E tm c p t :
  NoDup (keys c) -> entries_keyed c ->
  entries_keyed (store (getOrCreateContext rev E tm c p t)).
Proof.
  intros Hnd Hk. unfold getOrCreateContext, getOrCreateContext_with.
  destruct (fresh _ _); cbn [store]; [exact Hk |].
  intros k e Hin. apply in_cleanup in Hin; [| now apply map_set_NoDup].
  apply in_map_set in Hin as [Heq | Hin]; [| now apply Hk].
  injection Heq as -> ->. apply build_context_hash.
Qed.

(** X8. Whatever requests a server has answered, its map holds every key
    once, at most 50 entries, and under each key a context whose [hash]
    property is that key. *)
Theorem reachable_invariant rev c :
  reachable rev c ->
  NoDup (keys c) /\ (length c <= 50)%nat /\ entries_keyed c.
Proof.
  intros Hr. induction Hr as [|E now_route tm c req Hr (Hnd & Hlen & Hk)].
  - split; [constructor |]. split; [simpl; lia |]. intros k e [].
  - destruct (reachable_capacity rev _ (@reach_request rev E now_route tm c req Hr))
      as [Hnd' Hlen'].
    split; [exact Hnd' |]. split; [exact Hlen' |].
    unfold getContextResource.
    destruct (or_undefined (path_param req)) as [projectPath|]; [| exact Hk].
    destruct (match match rev with InPlace => _ | Rebuild => _ end with
              | Some h => _ | None => None end); [exact Hk |].
    pose proof (getOrCreateContext_keyed rev E tm c projectPath
                  (or_undefined (task_param req)) Hnd Hk) as Hk1.
    destruct (match rev with InPlace => _ | Rebuild => _ end) as [h|]; [| exact Hk1].
    destruct (JS.eqb h _); [exact Hk1 |]. cbn [snd].
    destruct (is_stored_object _); [| exact Hk1].
    intros k e Hin. apply in_set_stored_property in Hin as [Hin | (e0 & Hin & Heq)].
    + now apply Hk1.
    + injection Heq as -> ->. cbn [data].
      rewrite obj_get_set_ne by (intros H; vm_compute in H; discriminate H).
      now apply Hk1.
Qed.

(** The map after a request that brought a stale hash. *)
Lemma reachable_invariant_witness :
  (length (snd (getContextResource InPlace Worlds.providers 1000 (Worlds.at_time 1000) []
                  Worlds.request_with_stale_hash)) <= 50)%nat.
Proof.
  destruct (reachable_invariant InPlace
              (snd (getContextResource InPlace Worlds.providers 1000 (Worlds.at_time 1000) []
                      Worlds.request_with_stale_hash))) as (_ & H & _).
  - apply reach_request. apply reach_start.
  - exact H.
Defined.

(** X9. The two clean-ups keep the same entries: after either, every key
    is looked up with the same result, and one map is a rearrangement of the
    other. Only the order of iteration can differ. *)
Theorem cleanups_keep_same_entries c :
  well_formed c = true ->
  Permutation (cleanup_in_place c) (cleanup_rebuild c)
  /\ (forall k, map_get (cleanup_in_place c) k = map_get (cleanup_rebuild c) k).
Proof.
  intros Hwf. apply well_formed_NoDup in Hwf.
  assert (Permutation (cleanup_in_place c) (cleanup_rebuild c)) as Hperm.
  { destruct (Nat.le_gt_cases (length c) capacity) as [H | H].
    - destruct (cleanup_small c H) as [-> ->]. reflexivity.
    - rewrite (cleanup_in_place_Permutation c Hwf H).
      now rewrite (cleanup_rebuild_eq c Hwf H). }
  split; [exact Hperm |]. intros k.
  apply map_get_Permutation; [| exact Hperm].
  apply (cleanup_NoDup _ cleanup_in_place_keeps c Hwf).
Qed.

(** The full map with a 51st entry. *)
Lemma cleanups_keep_same_entries_witness :
  Permutation
    (cleanup_in_place
       (map_set Worlds.full_cache (str "new") {| timestamp := 2000; data := [] |}))
    (cleanup_rebuild
       (map_set Worlds.full_cache (str "new") {| timestamp := 2000; data := [] |})).
Proof.
  apply (cleanups_keep_same_entries
           (map_set Worlds.full_cache (str "new") {| timestamp := 2000; data := [] |})
           eq_refl).
Defined.

Lemma obj_set_same o k v : obj_get o k = Some v -> obj_set o k v = o.
Proof.
  induction o as [|[k' v'] o IH]; simpl; [discriminate |].
  destruct (JS.eqb k' k); [intros H; now injection H as -> |].
  intros H. now rewrite IH.
Qed.

(** X10. A miss followed, within the TTL, by a call for the same path and
    task is a hit, provided the entry just stored outlived the clean-up
    (the map had room, held the key, or holds an older entry): the second
    call leaves the map alone and returns the first call's context with
    [cached] set to true and nothing else changed. *)
Theorem miss_then_hit rev E tm1 tm2 c p t :
  well_formed c = true -> (length c <= 50)%nat ->
  fresh (now_lookup tm1) (map_get c (generateContextHash E (p, t))) = false ->
  ((length c < 50)%nat
   \/ map_get c (generateContextHash E (p, t)) <> None
   \/ exists x, In x c /\ timestamp (snd x) < now_store tm1) ->
  now_lookup tm2 - now_store tm1 < CACHE_TTL ->
  context (getOrCreateContext rev E tm2
             (store (getOrCreateContext rev E tm1 c p t)) p t)
    = obj_set (context (getOrCreateContext rev E tm1 c p t)) k_cached (JBool true)
  /\ store (getOrCreateContext rev E tm2
              (store (getOrCreateContext rev E tm1 c p t)) p t)
     = store (getOrCreateContext rev E tm1 c p t)
  /\ is_stored_object (getOrCreateContext rev E tm2
              (store (getOrCreateContext rev E tm1 c p t)) p t) = false.
Proof.
  intros Hwf Hlen Hmiss Hroom Hyoung. apply well_formed_NoDup in Hwf.
  pose proof (miss_reply (cleanup_of rev) E tm1 c p t Hmiss) as Hr1.
  fold (getOrCreateContext rev) in Hr1. rewrite !Hr1. cbn [context store].
  assert (map_get (cleanup_of rev
                     (map_set c (generateContextHash E (p, t)) (new_entry E tm1 p t)))
                  (generateContextHash E (p, t)) = Some (new_entry E tm1 p t)) as Hget
    by (apply (stored_survives _ (cleanup_of_keeps rev)); auto).
  unfold getOrCreateContext.
  rewrite (hit_reply (cleanup_of rev) E tm2 _ p t (new_entry E tm1 p t) Hget Hyoung).
  cbn [context store is_stored_object]. split; [| split; reflexivity].
  apply obj_set_same. rewrite obj_get_set_ne by (intros H; vm_compute in H; discriminate H).
  apply build_context_hash.
Qed.

(** A context built at 1000 ms and asked for again at 2000 ms. *)
Lemma miss_then_hit_witness :
  context (getOrCreateContext InPlace Worlds.providers (Worlds.at_time 2000)
             (store (getOrCreateContext InPlace Worlds.providers (Worlds.at_time 1000)
                       [] (str "/p") None)) (str "/p") None)
  = obj_set (context (getOrCreateContext InPlace Worlds.providers (Worlds.at_time 1000)
                        [] (str "/p") None)) k_cached (JBool true).
Proof.
  apply (miss_then_hit InPlace Worlds.providers (Worlds.at_time 1000) (Worlds.at_time 2000)
           [] (str "/p") None); try reflexivity.
  - simpl. lia.
  - left. simpl. lia.
Defined.

Lemma map_get_set_stored_property c k field v :
  map_get (set_stored_property c k field v) k =
  match map_get c k with
  | Some e => Some {| timestamp := timestamp e; data := obj_set (data e) field v |}
  | None => None
  end.
Proof.
  induction c as [|[k' e'] c IH]; simpl; [reflexivity |].
  destruct (JS.eqb k' k) eqn:E; simpl; rewrite E; [reflexivity | exact IH].
Qed.

(** X11. A request of the later revision that brings a hash which is not
    fresh in the map and is not the computed one is answered with the
    computed hash under [hash] and the supplied one under [previousHash].
    When the context was regenerated for it, the assignment of
    [previousHash] lands in the stored object as well, so the entry the map
    holds under the computed hash carries the supplied hash from then on;
    when it was a hit, the map is left as it was. *)
Theorem previousHash_reported E now_route tm c req p h :
  or_undefined (path_param req) = Some p ->
  or_undefined (providedHash req) = Some h ->
  fresh now_route (map_get c h) = false ->
  h <> generateContextHash E (p, or_undefined (task_param req)) ->
  exists reply c',
    getContextResource InPlace E now_route tm c req = (Returned reply, c')
    /\ obj_get reply k_previousHash = Some (JStr h)
    /\ obj_get reply k_hash
         = Some (JStr (generateContextHash E (p, or_undefined (task_param req))))
    /\ (fresh (now_lookup tm)
           (map_get c (generateContextHash E (p, or_undefined (task_param req)))) = true ->
         c' = c)
    /\ (fresh (now_lookup tm)
           (map_get c (generateContextHash E (p, or_undefined (task_param req)))) = false ->
         forall e,
           map_get (store (getOrCreateContext InPlace E tm c p
                             (or_undefined (task_param req))))
                   (generateContextHash E (p, or_undefined (task_param req))) = Some e ->
           exists e',
             map_get c' (generateContextHash E (p, or_undefined (task_param req)))
               = Some e'
             /\ obj_get (data e') k_previousHash = Some (JStr h)).
Proof.
  intros Hp Hh Hstale Hne. unfold getContextResource. rewrite Hp, Hh, Hstale.
  apply eqb_neq in Hne. rewrite Hne.
  set (hash := generateContextHash E (p, or_undefined (task_param req))).
  eexists. eexists. split; [reflexivity |].
  split; [apply obj_get_set_eq |]. split.
  - rewrite obj_get_set_ne by (intros H; vm_compute in H; discriminate H).
    unfold getOrCreateContext, getOrCreateContext_with. fold hash.
    destruct (fresh (now_lookup tm) (map_get c hash)); cbn [context].
    + apply obj_get_set_eq.
    + apply build_context_hash.
  - unfold getOrCreateContext, getOrCreateContext_with. fold hash.
    destruct (fresh (now_lookup tm) (map_get c hash)); cbn [store is_stored_object];
      split; try discriminate; try reflexivity.
    intros _ e He. rewrite map_get_set_stored_property, He.
    eexists. split; [reflexivity |]. cbn [data]. apply obj_get_set_eq.
Qed.

(** The request with the hash "0123abcd" on an empty map. *)
Lemma previousHash_reported_witness :
  exists reply c',
    getContextResource InPlace Worlds.providers 1000 (Worlds.at_time 1000) []
      Worlds.request_with_stale_hash = (Returned reply, c')
    /\ obj_get reply k_previousHash = Some (JStr (str "0123abcd")).
Proof.
  destruct (previousHash_reported Worlds.providers 1000 (Worlds.at_time 1000) []
              Worlds.request_with_stale_hash (str "/p") (str "0123abcd")
              eq_refl eq_refl eq_refl) as (reply & c' & Hrun & Hprev & _).
  - intros H. vm_compute in H. discriminate H.
  - exists reply, c'. split; assumption.
Defined.

End ContextMoreFacts.

(** ** The project tree *)

Module ProjectStructureFacts.
Import JSFacts ProjectStructure.

Local Open Scope Z_scope.

Lemma disk_entry_induction (P : disk_entry -> Prop) :
  (forall n s, P (DFile n s)) ->
  (forall n s, P (DOther n s)) ->
  (forall n s err l, Forall P l -> P (DDir n s err l)) ->
  forall e, P e.
Proof.
  intros Hf Ho Hd. fix IH 1. intros [n s | n s err l | n s].
  - apply Hf.
  - apply Hd. induction l as [|c l IHl]; constructor; [apply IH | exact IHl].
  - apply Ho.
Qed.

Lemma collect_Forall {A B} (f : A -> outcome (option B)) (Q : B -> Prop) l :
  Forall (fun a => forall b, f a = Returned (Some b) -> Q b) l ->
  forall ns, collect f l = Returned ns -> Forall Q ns.
Proof.
  induction 1 as [|a l Ha _ IH]; intros ns; cbn [collect].
  - intros H. injection H as <-. constructor.
  - destruct (f a) as [o | m |]; try discriminate.
    destruct (collect f l) as [ns' | m |]; try discriminate.
    intros H. injection H as <-. specialize (IH ns' eq_refl).
    destruct o as [b|]; [constructor; auto | assumption].
Qed.

Lemma collect_all_return {A B} (f : A -> outcome (option B)) l ns a :
  collect f l = Returned ns -> In a l -> exists o, f a = Returned o.
Proof.
  revert ns. induction l as [|x l IH]; intros ns; cbn [collect]; [intros _ [] |].
  destruct (f x) as [o | m |] eqn:Hx; try discriminate.
  destruct (collect f l) as [ns' | m |]; try discriminate.
  intros _ [<- | Hin]; [eauto | apply (IH ns' eq_refl Hin)].
Qed.

Section SortFacts.

Context {A : Type} (cmp : A -> A -> Z).

Lemma insert_Permutation x l : Permutation (StableSort.insert cmp x l) (x :: l).
Proof.
  induction l as [|y l IH]; simpl; [reflexivity |].
  destruct (0 <? cmp x y); [| reflexivity]. rewrite IH. apply perm_swap.
Qed.

Lemma sort_Permutation l : Permutation (StableSort.sort cmp l) l.
Proof.
  induction l as [|x l IH]; simpl; [reflexivity |].
  rewrite insert_Permutation. now constructor.
Qed.

Lemma sort_Forall (Q : A -> Prop) l : Forall Q l -> Forall Q (StableSort.sort cmp l).
Proof.
  intros H. apply Forall_forall. intros x Hx.
  rewrite Forall_forall in H. apply H.
  apply (Permutation_in _ (sort_Permutation l)). exact Hx.
Qed.

End SortFacts.

Section WalkFacts.

Variable ignores : jsstring -> jsstring + bool.
Variable localeCompare : jsstring -> jsstring -> Z.
Variable maxDepth : Z.
Variable includeHidden : bool.

Local Abbreviation visit := (visit ignores localeCompare maxDepth includeHidden).
Local Abbreviation buildFileTree := (buildFileTree ignores localeCompare maxDepth includeHidden).
Local Abbreviation node_compare := (node_compare localeCompare).

Lemma buildFileTree_cases err entries rel depth nodes :
  buildFileTree err entries rel depth = Returned nodes ->
  nodes = []
  \/ (beyond maxDepth depth = false
      /\ exists ns, collect (fun c => visit c rel depth) entries = Returned ns
                    /\ nodes = StableSort.sort node_compare ns).
Proof.
  unfold ProjectStructure.buildFileTree.
  destruct (beyond maxDepth depth); [intros H; injection H as <-; now left |].
  destruct err; [discriminate |].
  destruct (collect _ entries) as [ns | m |]; try discriminate.
  intros H. injection H as <-. right. split; [reflexivity |]. now exists ns.
Qed.

(** What a visit that yields a node has seen. *)
Lemma visit_node e rel depth n :
  visit e rel depth = Returned (Some n) ->
  (includeHidden = false -> startsWith (entry_name e) [46%N] = false)
  /\ ignores (child_path rel (entry_name e)) = inr false
  /\ node_name n = entry_name e
  /\ node_path n = child_path rel (entry_name e)
  /\ match e with
     | DFile _ _ => is_directory n = false
     | DOther _ _ => False
     | DDir _ _ err entries =>
         is_directory n = true
         /\ buildFileTree err entries (child_path rel (entry_name e)) (depth + 1)
            = Returned (node_children n)
     end.
Proof.
  destruct e as [name s | name s err entries | name s]; cbn [visit entry_name entry_stat];
    destruct (negb includeHidden && startsWith name [46%N]) eqn:Hh; try discriminate;
    destruct (ignores (child_path rel name)) as [mi | []] eqn:Hi; try discriminate;
    destruct s as [m | stats]; try discriminate;
    (assert (includeHidden = false -> startsWith name [46%N] = false) as Hhid
       by (intros ->; exact Hh)).
  - intros H. injection H as <-. repeat split; auto.
  - fold (buildFileTree err entries (child_path rel name) (depth + 1)).
    destruct (buildFileTree err entries (child_path rel name) (depth + 1))
      as [kids | m |]; try discriminate.
    intros H. injection H as <-. repeat split; auto.
Qed.

Lemma everywhere_in_Forall P parent nodes :
  everywhere_in P parent nodes <-> Forall (everywhere P parent) nodes.
Proof.
  unfold everywhere_in. induction nodes as [|c nodes IH]; simpl.
  - split; [constructor | trivial].
  - rewrite IH. split; [intros [? ?]; now constructor | intros H; now inversion H].
Qed.

Lemma everywhere_dir P parent name p kids mt :
  everywhere P parent (DirN name p kids mt)
  <-> P parent (DirN name p kids mt) /\ Forall (everywhere P p) kids.
Proof.
  cbn [everywhere]. fold (everywhere_in P p kids). now rewrite everywhere_in_Forall.
Qed.

Section Everywhere.

Variable P : jsstring -> FileNode -> Prop.
Hypothesis visit_P : forall e rel depth n, visit e rel depth = Returned (Some n) -> P rel n.

Lemma visit_everywhere : forall e rel depth n,
  visit e rel depth = Returned (Some n) -> everywhere P rel n.
Proof.
  induction e as [name s | name s | name s err entries IH] using disk_entry_induction;
    intros rel depth n Hn.
  - destruct (visit_node _ _ _ _ Hn) as (_ & _ & _ & _ & Hfile).
    destruct n; [| discriminate Hfile]. cbn [everywhere]. split; [| trivial].
    apply (visit_P _ _ _ _ Hn).
  - destruct (visit_node _ _ _ _ Hn) as (_ & _ & _ & _ & []).
  - destruct (visit_node _ _ _ _ Hn) as (_ & _ & _ & Hpath & Hdir & Hkids).
    destruct n as [| nm p kids mt]; [discriminate Hdir |].
    cbn [node_children node_path entry_name] in *. subst p.
    apply everywhere_dir. split; [apply (visit_P _ _ _ _ Hn) |].
    destruct (buildFileTree_cases _ _ _ _ _ Hkids) as [-> | (_ & ns & Hc & ->)];
      [constructor |].
    apply sort_Forall. refine (collect_Forall _ _ entries _ _ Hc).
    eapply Forall_impl; [| exact IH]. cbv beta. intros c Hcall b Hb.
    apply (Hcall _ _ _ Hb).
Qed.

Lemma buildFileTree_everywhere err entries rel depth nodes :
  buildFileTree err entries rel depth = Returned nodes ->
  Forall (everywhere P rel) nodes.
Proof.
  intros H. destruct (buildFileTree_cases _ _ _ _ _ H) as [-> | (_ & ns & Hc & ->)];
    [constructor |].
  apply sort_Forall. refine (collect_Forall _ _ entries _ _ Hc).
  apply Forall_forall. intros c _ b Hb. apply (visit_everywhere _ _ _ _ Hb).
Qed.

End Everywhere.

Lemma insert_directories_first x l :
  directories_first l -> directories_first (StableSort.insert node_compare x l).
Proof.
  unfold directories_first.
  induction 1 as [|y l Hl IH Hy]; simpl; [repeat constructor |].
  assert ((0 <? node_compare x y) = true ->
          is_directory y = false -> is_directory x = false) as Hxy.
  { unfold ProjectStructure.node_compare.
    destruct (is_directory x), (is_directory y); cbn; auto; discriminate. }
  assert ((0 <? node_compare x y) = false ->
          is_directory x = false -> is_directory y = false) as Hyx.
  { unfold ProjectStructure.node_compare.
    destruct (is_directory x), (is_directory y); cbn; auto; discriminate. }
  destruct (0 <? node_compare x y) eqn:Hcmp.
  - constructor; [assumption |]. apply Forall_forall. intros z Hz.
    apply (Permutation_in _ (insert_Permutation node_compare x l)) in Hz.
    destruct Hz as [<- | Hz]; [now apply Hxy |].
    rewrite Forall_forall in Hy. now apply Hy.
  - constructor; [now constructor |]. constructor; [now apply Hyx |].
    rewrite Forall_forall in *. intros z Hz Hx. apply (Hy z Hz). now apply Hyx.
Qed.

Lemma sort_directories_first l : directories_first (StableSort.sort node_compare l).
Proof.
  induction l as [|x l IH]; simpl; [constructor | now apply insert_directories_first].
Qed.

Lemma height_insert x l :
  height (StableSort.insert node_compare x l) = Nat.max (height_node x) (height l).
Proof.
  unfold height. induction l as [|y l IH]; simpl; [reflexivity |].
  destruct (0 <? node_compare x y); simpl; [| reflexivity]. rewrite IH. lia.
Qed.

Lemma height_sort l : height (StableSort.sort node_compare l) = height l.
Proof.
  induction l as [|x l IH]; simpl; [reflexivity |].
  rewrite height_insert, IH. reflexivity.
Qed.

Lemma height_Forall (b : Z) l :
  0 <= b -> Forall (fun c => Z.of_nat (height_node c) <= b) l ->
  Z.of_nat (height l) <= b.
Proof.
  intros Hb. unfold height. induction 1 as [|c l Hc _ IH]; simpl; lia.
Qed.

Lemma beyond_false depth :
  maxDepth <> -1 -> beyond maxDepth depth = false -> depth <= maxDepth.
Proof.
  unfold beyond. intros Hne. destruct (Z.eqb_spec maxDepth (-1)); [contradiction |].
  cbn [negb andb]. intros H. apply Z.ltb_ge in H. exact H.
Qed.

Lemma visit_height : forall e rel depth n,
  maxDepth <> -1 -> depth <= maxDepth ->
  visit e rel depth = Returned (Some n) ->
  Z.of_nat (height_node n) <= maxDepth - depth + 1.
Proof.
  induction e as [name s | name s | name s err entries IH] using disk_entry_induction;
    intros rel depth n Hmax Hdepth Hn.
  - destruct (visit_node _ _ _ _ Hn) as (_ & _ & _ & _ & Hfile).
    destruct n; [| discriminate Hfile]. simpl. lia.
  - destruct (visit_node _ _ _ _ Hn) as (_ & _ & _ & _ & []).
  - destruct (visit_node _ _ _ _ Hn) as (_ & _ & _ & _ & Hdir & Hkids).
    destruct n as [| nm p kids mt]; [discriminate Hdir |].
    cbn [node_children] in Hkids. cbn [height_node]. fold (height kids).
    destruct (buildFileTree_cases _ _ _ _ _ Hkids) as [-> | (Hb & ns & Hc & ->)];
      [simpl; lia |].
    apply (beyond_false _ Hmax) in Hb. rewrite height_sort.
    assert (Z.of_nat (height ns) <= maxDepth - depth); [| lia].
    apply height_Forall; [lia |].
    refine (collect_Forall _ _ entries _ _ Hc).
    eapply Forall_impl; [| exact IH]. cbv beta. intros c Hcall b Hbuilt.
    specialize (Hcall _ _ _ Hmax Hb Hbuilt). lia.
Qed.

Lemma buildFileTree_height err entries rel depth nodes :
  maxDepth <> -1 ->
  buildFileTree err entries rel depth = Returned nodes ->
  Z.of_nat (height nodes) <= Z.max 0 (maxDepth - depth + 1).
Proof.
  intros Hmax H.
  destruct (buildFileTree_cases _ _ _ _ _ H) as [-> | (Hb & ns & Hc & ->)];
    [simpl; lia |].
  apply (beyond_false _ Hmax) in Hb. rewrite height_sort.
  assert (Z.of_nat (height ns) <= maxDepth - depth + 1); [| lia].
  apply height_Forall; [lia |].
  refine (collect_Forall _ _ entries _ _ Hc).
  apply Forall_forall. intros c _ b Hbuilt. now apply (visit_height c rel depth b).
Qed.

Lemma collect_not_diverged {A B} (f : A -> outcome (option B)) l :
  Forall (fun a => f a <> Diverged) l -> collect f l <> Diverged.
Proof.
  induction 1 as [|a l Ha _ IH]; cbn [collect]; [discriminate |].
  destruct (f a) as [o | m |]; [| discriminate | congruence].
  destruct (collect f l) as [ns | m |]; [discriminate | discriminate | congruence].
Qed.

Lemma visit_not_diverged : forall e rel depth, visit e rel depth <> Diverged.
Proof.
  induction e as [name s | name s | name s err entries IH] using disk_entry_induction;
    intros rel depth; cbn [visit entry_name entry_stat];
    destruct (negb includeHidden && startsWith name [46%N]); try discriminate;
    destruct (ignores (child_path rel name)) as [mi | []]; try discriminate;
    destruct s as [m | stats]; try discriminate.
  destruct (beyond maxDepth (depth + 1)); [discriminate |].
  destruct err; [discriminate |].
  pose proof (collect_not_diverged
                (fun c => visit c (child_path rel name) (depth + 1)) entries) as Hc.
  destruct (collect _ entries) as [ns | m |]; try discriminate.
  exfalso. apply Hc; [| reflexivity].
  eapply Forall_impl; [| exact IH]. cbv beta. intros c Hcall. apply Hcall.
Qed.

Lemma buildFileTree_stat_failure entries rel depth e m :
  beyond maxDepth depth = false ->
  In e entries ->
  visit e rel depth = Thrown m ->
  exists m', buildFileTree None entries rel depth = Thrown m'.
Proof.
  intros Hb Hin He. unfold ProjectStructure.buildFileTree. rewrite Hb.
  pose proof (collect_not_diverged (fun c => visit c rel depth) entries) as Hnd.
  destruct (collect _ entries) as [ns | m' |] eqn:Hc.
  - destruct (collect_all_return _ _ _ e Hc Hin) as [o Ho].
    cbv beta in Ho. congruence.
  - now exists m'.
  - exfalso. apply Hnd; [| reflexivity].
    apply Forall_forall. intros c _. apply visit_not_diverged.
Qed.

End WalkFacts.

Lemma FileNode_induction (P : FileNode -> Prop) :
  (forall n p sz mt, P (FileN n p sz mt)) ->
  (forall n p kids mt, Forall P kids -> P (DirN n p kids mt)) ->
  forall n, P n.
Proof.
  intros Hf Hd. fix IH 1. intros [n p sz mt | n p kids mt].
  - apply Hf.
  - apply Hd. induction kids as [|c kids IHk]; constructor; [apply IH | exact IHk].
Qed.

Lemma count_fold kids : forall a b,
  Forall (fun c => (fst (countNodes_node c) + snd (countNodes_node c) = size_node c)%nat)
         kids ->
  (fst (fold_left (fun acc c => (fst acc + fst (countNodes_node c),
                                 snd acc + snd (countNodes_node c))%nat) kids (a, b))
   + snd (fold_left (fun acc c => (fst acc + fst (countNodes_node c),
                                   snd acc + snd (countNodes_node c))%nat) kids (a, b))
   = a + b + fold_right (fun c s => size_node c + s) 0 kids)%nat.
Proof.
  induction kids as [|c kids IH]; intros a b Hall; cbn [fold_left fold_right fst snd].
  - lia.
  - inversion Hall as [|? ? Hc Hrest]; subst. rewrite (IH _ _ Hrest). lia.
Qed.

Lemma countNodes_node_size n :
  (fst (countNodes_node n) + snd (countNodes_node n) = size_node n)%nat.
Proof.
  induction n as [n p sz mt | n p kids mt IH] using FileNode_induction.
  - reflexivity.
  - cbn [countNodes_node size_node fst snd].
    pose proof (count_fold kids 0%nat 0%nat IH) as H. lia.
Qed.

Lemma countNodes_size nodes :
  (fst (countNodes nodes) + snd (countNodes nodes) = tree_size nodes)%nat.
Proof.
  unfold countNodes, tree_size.
  rewrite (count_fold nodes 0%nat 0%nat); [reflexivity |].
  apply Forall_forall. intros c _. apply countNodes_node_size.
Qed.

Lemma getProjectStructure_returned E args reply :
  getProjectStructure E args = Returned reply ->
  exists n s err entries,
    stat_root E (path args) = inr (DDir n s err entries)
    /\ buildFileTree (loadGitignore E (path args)) (localeCompare_of E)
         (match maxDepth_arg args with Some d => d | None => -1 end)
         (match includeHidden_arg args with Some b => b | None => false end)
         err entries [] 0 = Returned (tree reply)
    /\ totalFiles reply = fst (countNodes (tree reply))
    /\ totalDirectories reply = snd (countNodes (tree reply)).
Proof.
  unfold getProjectStructure, getProjectStructure_try.
  destruct (stat_root E (path args)) as [m | [n s | n s err entries | n s]];
    try discriminate.
  destruct (buildFileTree _ _ _ _ err entries [] 0) as [nodes | m |] eqn:Hb;
    try discriminate.
  cbn [rethrow]. intros H. injection H as <-. cbn [tree totalFiles totalDirectories].
  exists n, s, err, entries. auto.
Qed.

(** X12. With a depth limit [d] (anything but -1) the tree that comes
    back is at most [d + 1] levels high: the entries of the project
    directory are level 1, and a directory at the last level is listed
    without its entries. *)
Theorem tree_depth_bounded E args d reply :
  maxDepth_arg args = Some d -> d <> -1 ->
  getProjectStructure E args = Returned reply ->
  Z.of_nat (height (tree reply)) <= Z.max 0 (d + 1).
Proof.
  intros Hd Hne Hr.
  destruct (getProjectStructure_returned E args reply Hr)
    as (n & s & err & entries & _ & Hb & _).
  rewrite Hd in Hb.
  pose proof (buildFileTree_height _ _ _ _ _ _ _ _ _ Hne Hb) as H. lia.
Qed.

(** The project of the small world, listed with limit 0 and with limit 1. *)
Lemma tree_depth_bounded_witness :
  exists r0 r1,
    getProjectStructure (StructureWorlds.world StructureWorlds.project)
      (StructureWorlds.request (Some 0)) = Returned r0
    /\ getProjectStructure (StructureWorlds.world StructureWorlds.project)
      (StructureWorlds.request (Some 1)) = Returned r1
    /\ height (tree r0) = 1%nat /\ height (tree r1) = 2%nat
    /\ Z.of_nat (height (tree r1)) <= Z.max 0 (1 + 1).
Proof.
  eexists. eexists. split; [vm_compute; reflexivity |].
  split; [vm_compute; reflexivity |]. split; [reflexivity |]. split; [reflexivity |].
  apply (tree_depth_bounded (StructureWorlds.world StructureWorlds.project)
           (StructureWorlds.request (Some 1)) 1 _ eq_refl);
    [discriminate | reflexivity].
Defined.

(** X13. No node of the returned tree, at any level, has a path the
    ignore filter rejects or, unless hidden entries were asked for, a name
    that begins with a dot; and every node's path is its name appended,
    after a slash, to the path of the directory it sits in (the bare name
    at the top). *)
Theorem tree_filtered E args reply :
  getProjectStructure E args = Returned reply ->
  everywhere_in
    (fun parent n =>
       loadGitignore E (path args) (node_path n) = inr false
       /\ (includeHidden_arg args <> Some true -> startsWith (node_name n) [46%N] = false)
       /\ node_path n = child_path parent (node_name n))
    [] (tree reply).
Proof.
  intros Hr.
  destruct (getProjectStructure_returned E args reply Hr)
    as (n & s & err & entries & _ & Hb & _).
  apply everywhere_in_Forall.
  refine (buildFileTree_everywhere _ _ _ _ _ _ _ _ _ _ _ Hb).
  intros e rel depth node Hn.
  destruct (visit_node _ _ _ _ _ _ _ _ Hn) as (Hh & Hi & Hname & Hpath & _).
  rewrite Hname, Hpath. repeat split; auto.
  intros Hne. apply Hh. destruct (includeHidden_arg args) as [[]|]; congruence.
Qed.

(** The project of the small world: [.env] and [node_modules] are gone. *)
Lemma tree_filtered_witness :
  exists r,
    getProjectStructure (StructureWorlds.world StructureWorlds.project)
      (StructureWorlds.request None) = Returned r
    /\ map node_path (tree r) = [str "src"; str "README.md"]
    /\ everywhere_in
         (fun parent n =>
            loadGitignore (StructureWorlds.world StructureWorlds.project)
              (path (StructureWorlds.request None)) (node_path n) = inr false
            /\ (includeHidden_arg (StructureWorlds.request None) <> Some true ->
                startsWith (node_name n) [46%N] = false)
            /\ node_path n = child_path parent (node_name n))
         [] (tree r).
Proof.
  eexists. split; [vm_compute; reflexivity |]. split; [reflexivity |].
  apply (tree_filtered (StructureWorlds.world StructureWorlds.project)
           (StructureWorlds.request None) _ eq_refl).
Defined.

(** X14. At every level of the returned tree the directories come before
    the files; the order of the names only decides among nodes of one kind. *)
Theorem tree_directories_first E args reply :
  getProjectStructure E args = Returned reply ->
  directories_first (tree reply)
  /\ everywhere_in (fun _ n => directories_first (node_children n)) [] (tree reply).
Proof.
  intros Hr.
  destruct (getProjectStructure_returned E args reply Hr)
    as (n & s & err & entries & _ & Hb & _).
  split.
  - destruct (buildFileTree_cases _ _ _ _ _ _ _ _ _ Hb) as [-> | (_ & ns & _ & ->)];
      [constructor | apply sort_directories_first].
  - apply everywhere_in_Forall.
    refine (buildFileTree_everywhere _ _ _ _ _ _ _ _ _ _ _ Hb).
    intros e rel depth node Hn.
    destruct (visit_node _ _ _ _ _ _ _ _ Hn) as (_ & _ & _ & _ & Hkind).
    destruct e as [? ? | ? ? err' entries' | ? ?].
    + destruct node; [constructor | discriminate Hkind].
    + destruct Hkind as [_ Hkids].
      destruct (buildFileTree_cases _ _ _ _ _ _ _ _ _ Hkids) as [-> | (_ & ns & _ & ->)];
        [constructor | apply sort_directories_first].
    + destruct Hkind.
Qed.

(** The project of the small world: [src] stands before [README.md]. *)
Lemma tree_directories_first_witness :
  exists r,
    getProjectStructure (StructureWorlds.world StructureWorlds.project)
      (StructureWorlds.request None) = Returned r
    /\ map is_directory (tree r) = [true; false]
    /\ directories_first (tree r).
Proof.
  eexists. split; [vm_compute; reflexivity |]. split; [reflexivity |].
  apply (tree_directories_first (StructureWorlds.world StructureWorlds.project)
           (StructureWorlds.request None) _ eq_refl).
Defined.

(** X15. The two totals of the summary add up to the number of nodes of
    the returned tree, all levels counted. *)
Theorem summary_counts_every_node E args reply :
  getProjectStructure E args = Returned reply ->
  (totalFiles reply + totalDirectories reply = tree_size (tree reply))%nat.
Proof.
  intros Hr.
  destruct (getProjectStructure_returned E args reply Hr)
    as (n & s & err & entries & _ & _ & -> & ->).
  apply countNodes_size.
Qed.

(** The project of the small world: three files and two directories. *)
Lemma summary_counts_every_node_witness :
  exists r,
    getProjectStructure (StructureWorlds.world StructureWorlds.project)
      (StructureWorlds.request None) = Returned r
    /\ totalFiles r = 3%nat /\ totalDirectories r = 2%nat
    /\ (totalFiles r + totalDirectories r = tree_size (tree r))%nat.
Proof.
  eexists. split; [vm_compute; reflexivity |]. split; [reflexivity |].
  split; [reflexivity |].
  apply (summary_counts_every_node (StructureWorlds.world StructureWorlds.project)
           (StructureWorlds.request None) _ eq_refl).
Defined.

(** X16. One entry of the project directory whose [stat] fails makes the
    whole request fail, unless the entry is skipped as hidden or ignored:
    [stat] is called before the kind of the entry is looked at, so a
    dangling link is enough. *)
Theorem failing_stat_fails_request E args n s entries e m :
  stat_root E (path args) = inr (DDir n s None entries) ->
  (maxDepth_arg args = None \/ exists d, maxDepth_arg args = Some d /\ 0 <= d) ->
  In e entries ->
  (includeHidden_arg args = Some true \/ startsWith (entry_name e) [46%N] = false) ->
  loadGitignore E (path args) (entry_name e) = inr false ->
  entry_stat e = inl m ->
  exists m', getProjectStructure E args = Thrown (ProjectStructure.failed_prefix ++ m').
Proof.
  intros Hroot Hdepth Hin Hhidden Hign Hstat.
  unfold getProjectStructure, getProjectStructure_try. rewrite Hroot.
  set (maxDepth := match maxDepth_arg args with Some d => d | None => -1 end).
  set (hidden := match includeHidden_arg args with Some b => b | None => false end).
  assert (beyond maxDepth 0 = false) as Hb.
  { unfold beyond, maxDepth.
    destruct Hdepth as [-> | (d & -> & Hd)]; [reflexivity |].
    destruct (Z.eqb d (-1)); cbn [negb andb]; [reflexivity |]. apply Z.ltb_ge. lia. }
  assert (visit (loadGitignore E (path args)) (localeCompare_of E) maxDepth hidden e [] 0
          = Thrown m) as Hvisit.
  { assert (negb hidden && startsWith (entry_name e) [46%N] = false) as Hh.
    { unfold hidden. destruct Hhidden as [-> | ->]; [reflexivity |].
      apply andb_false_r. }
    destruct e as [nm st | nm st err' entries' | nm st];
      cbn [visit entry_name entry_stat child_path] in *;
      rewrite Hh, Hign, Hstat; reflexivity. }
  destruct (buildFileTree_stat_failure _ _ _ _ entries [] 0 e m Hb Hin Hvisit)
    as [m' Hm'].
  rewrite Hm'. exists m'. reflexivity.
Qed.

(** A project directory with a dangling link. *)
Lemma failing_stat_fails_request_witness :
  exists m',
    getProjectStructure (StructureWorlds.world StructureWorlds.project_with_dangling_link)
      (StructureWorlds.request None)
    = Thrown (ProjectStructure.failed_prefix ++ m').
Proof.
  apply (failing_stat_fails_request
           (StructureWorlds.world StructureWorlds.project_with_dangling_link)
           (StructureWorlds.request None) (str "p") (StructureWorlds.st 0)
           [DFile (str "README.md") (StructureWorlds.st 10);
            DOther (str "broken") (inl (str "ENOENT: no such file or directory"))]
           (DOther (str "broken") (inl (str "ENOENT: no such file or directory")))
           (str "ENOENT: no such file or directory")); try reflexivity.
  - now left.
  - right. now left.
  - now right.
Defined.

End ProjectStructureFacts.
Module JSStringFacts.
Import JS JSString.

Lemma trimStart_nil_iff s : trimStart s = [] <-> forallb is_trim_space s = true.
Proof.
  induction s as [|c s IH]; cbn [trimStart forallb]; [tauto |].
  destruct (is_trim_space c); cbn [andb]; [exact IH |].
  split; discriminate.
Qed.

Lemma trimStart_app l r : trimStart l <> [] -> trimStart (l ++ r) = trimStart l ++ r.
Proof.
  induction l as [|c l IH]; cbn [trimStart app]; [congruence |].
  destruct (is_trim_space c); [exact IH | reflexivity].
Qed.

Lemma trimEnd_nil_iff s : trimEnd s = [] <-> forallb is_trim_space s = true.
Proof.
  unfold trimEnd. split.
  - intros H. apply (f_equal (@rev N)) in H. rewrite rev_involutive in H. cbn in H.
    apply trimStart_nil_iff in H. rewrite forallb_forall in *.
    intros x Hx. apply H. now apply in_rev in Hx.
  - intros H. assert (trimStart (rev s) = []) as ->; [| reflexivity].
    apply trimStart_nil_iff. rewrite forallb_forall in *.
    intros x Hx. apply H. now apply in_rev.
Qed.

Lemma trimEnd_app l r : trimEnd r <> [] -> trimEnd (l ++ r) = l ++ trimEnd r.
Proof.
  unfold trimEnd. intros H. rewrite rev_app_distr, trimStart_app.
  - now rewrite rev_app_distr, rev_involutive.
  - intros Hn. apply H. now rewrite Hn.
Qed.

Lemma trimEnd_space l c : is_trim_space c = true -> trimEnd (l ++ [c]) = trimEnd l.
Proof.
  unfold trimEnd. intros H. rewrite rev_app_distr. cbn [rev app trimStart].
  now rewrite H.
Qed.

Lemma trim_space c s : is_trim_space c = true -> trim (c :: s) = trim s.
Proof. unfold trim. cbn [trimStart]. now intros ->. Qed.

(** [l.trim()] is falsy exactly for a blank [l]. *)
Lemma truthy_trim s : truthy (trim s) = negb (forallb is_trim_space s).
Proof.
  unfold trim. destruct (forallb is_trim_space s) eqn:Hall.
  - apply trimStart_nil_iff in Hall. now rewrite Hall.
  - destruct (trimEnd (trimStart s)) as [|c t] eqn:Ht; [| reflexivity].
    exfalso. apply trimEnd_nil_iff in Ht.
    assert (trimStart (trimStart s) = []) as Hn.
    { apply trimStart_nil_iff. exact Ht. }
    assert (trimStart (trimStart s) = trimStart s) as Hidem.
    { clear. induction s as [|c s IH]; [reflexivity |]. cbn [trimStart].
      destruct (is_trim_space c) eqn:Hc; [exact IH |]. cbn [trimStart]. now rewrite Hc. }
    rewrite Hidem in Hn. apply trimStart_nil_iff in Hn. congruence.
Qed.

Lemma trimEnd_fixed_nonblank s :
  trimEnd s = s -> s <> [] -> forallb is_trim_space s = false.
Proof.
  intros Hs Hne. destruct (forallb is_trim_space s) eqn:Hall; [| reflexivity].
  apply trimEnd_nil_iff in Hall. congruence.
Qed.

Lemma split_on_none sep s : ~ In sep s -> split_on sep s = [s].
Proof.
  induction s as [|c s IH]; intros Hn; cbn [split_on]; [reflexivity |].
  destruct (N.eqb_spec c sep) as [-> | Hc]; [exfalso; apply Hn; now left |].
  rewrite IH; [reflexivity |]. intros Hin. apply Hn. now right.
Qed.

Lemma split_on_app sep a b :
  ~ In sep a -> split_on sep (a ++ sep :: b) = a :: split_on sep b.
Proof.
  induction a as [|c a IH]; intros Hn; cbn [split_on app].
  - now rewrite N.eqb_refl.
  - destruct (N.eqb_spec c sep) as [-> | Hc]; [exfalso; apply Hn; now left |].
    rewrite IH; [reflexivity |]. intros Hin. apply Hn. now right.
Qed.

Lemma join_cons sep l ls :
  ls <> [] -> join sep (l :: ls) = l ++ sep ++ join sep ls.
Proof. destruct ls; [congruence | reflexivity]. Qed.

(** Splitting undoes joining when no line holds the separator. *)
Lemma split_on_join sep lines :
  lines <> [] -> Forall (fun l => ~ In sep l) lines ->
  split_on sep (join [sep] lines) = lines.
Proof.
  induction lines as [|l ls IH]; [congruence |]. intros _ Hall.
  inversion Hall as [|? ? Hl Hls]; subst.
  destruct ls as [|l2 ls].
  - cbn [join]. now apply split_on_none.
  - rewrite (join_cons [sep] l (l2 :: ls)) by discriminate. cbn [app].
    rewrite split_on_app by exact Hl. f_equal. apply IH; [discriminate | exact Hls].
Qed.

Lemma join_last sep lines :
  lines <> [] -> exists front, join sep lines = front ++ last lines [].
Proof.
  induction lines as [|l ls IH]; [congruence |]. intros _.
  destruct ls as [|l2 ls].
  - exists []. reflexivity.
  - destruct IH as [front Hf]; [discriminate |].
    exists (l ++ sep ++ front). rewrite (join_cons sep l (l2 :: ls)) by discriminate.
    rewrite Hf. cbn [last]. now rewrite <- !app_assoc.
Qed.

Lemma join_first sep lines :
  lines <> [] -> exists back, join sep lines = hd [] lines ++ back.
Proof.
  destruct lines as [|l ls]; [congruence |]. intros _.
  destruct ls as [|l2 ls].
  - exists []. cbn [join hd]. now rewrite app_nil_r.
  - exists (sep ++ join sep (l2 :: ls)). reflexivity.
Qed.

Lemma Forall_last {A} (P : A -> Prop) l d : l <> [] -> Forall P l -> P (last l d).
Proof.
  induction l as [|a l IH]; [congruence |]. intros _ Hall.
  inversion Hall as [|? ? Ha Hl]; subst.
  destruct l as [|b l]; [exact Ha |]. apply IH; [discriminate | exact Hl].
Qed.

Lemma filter_all {A} (f : A -> bool) l : Forall (fun a => f a = true) l -> filter f l = l.
Proof.
  induction 1 as [|a l Ha _ IH]; [reflexivity |]. cbn [filter]. now rewrite Ha, IH.
Qed.

(** The lines of an output come back from [trim], [split] and the filter
    when they hold no line feed, are not empty, do not end in white space,
    and the first one does not begin with white space. *)
Lemma lines_recovered lines :
  Forall (fun l => ~ In 10%N l /\ l <> [] /\ trimEnd l = l) lines ->
  trimStart (hd [] lines) = hd [] lines ->
  filter (fun l => truthy (trim l))
         (split_on 10 (trim (flat_map (fun l => l ++ [10%N]) lines))) = lines.
Proof.
  intros Hall Hhd. destruct lines as [|l1 ls] eqn:Hlines; [reflexivity |].
  rewrite <- Hlines in *.
  assert (lines <> []) as Hne by (rewrite Hlines; discriminate).
  assert (flat_map (fun l => l ++ [10%N]) lines = join [10%N] lines ++ [10%N]) as Hflat.
  { clear Hall Hhd Hlines. induction lines as [|l ls' IH]; [congruence |].
    cbn [flat_map]. destruct ls' as [|l2 ls'].
    - cbn [flat_map join]. now rewrite app_nil_r.
    - rewrite IH by discriminate.
      rewrite (join_cons [10%N] l (l2 :: ls')) by discriminate.
      now rewrite <- !app_assoc. }
  assert (trim (join [10%N] lines ++ [10%N]) = join [10%N] lines) as Htrim.
  { unfold trim.
    destruct (join_first [10%N] lines Hne) as [back Hback].
    assert (hd [] lines <> []) as Hh.
    { rewrite Hlines. cbn [hd]. rewrite Hlines in Hall.
      inversion Hall as [|? ? (_ & H & _) _]; exact H. }
    rewrite Hback, <- app_assoc, trimStart_app by (rewrite Hhd; exact Hh).
    rewrite Hhd, app_assoc, <- Hback.
    rewrite trimEnd_space by reflexivity.
    destruct (join_last [10%N] lines Hne) as [front Hfront].
    pose proof (Forall_last _ lines [] Hne Hall) as (_ & Hl & Hfix). cbv beta in Hl, Hfix.
    rewrite Hfront, trimEnd_app by (rewrite Hfix; exact Hl). now rewrite Hfix. }
  rewrite Hflat, Htrim, split_on_join.
  - apply filter_all. eapply Forall_impl; [| exact Hall]. cbv beta.
    intros l (_ & Hl & Hfix). rewrite truthy_trim.
    now rewrite (trimEnd_fixed_nonblank l Hfix Hl).
  - exact Hne.
  - eapply Forall_impl; [| exact Hall]. cbv beta. tauto.
Qed.

End JSStringFacts.

Module RankingFacts.

Section ByKey.

Context {A : Type} (key : A -> Z) (cmp : A -> A -> Z).
Hypothesis cmp_key : forall a b, cmp a b = (key b - key a)%Z.

Local Abbreviation higher_first := (fun a b : A => (key b <= key a)%Z).

Lemma insert_by_key_sorted x l :
  StronglySorted higher_first l -> StronglySorted higher_first (StableSort.insert cmp x l).
Proof.
  induction 1 as [|y l Hs IH Hy]; cbn [StableSort.insert].
  - constructor; constructor.
  - rewrite cmp_key. destruct (Z.ltb_spec 0 (key y - key x)) as [Hlt | Hge].
    + constructor; [exact IH |].
      apply (Permutation_Forall (Permutation_sym
               (ProjectStructureFacts.insert_Permutation cmp x l))).
      constructor; [lia | exact Hy].
    + constructor; [now constructor |].
      constructor; [lia |].
      eapply Forall_impl; [| exact Hy]. cbv beta. intros z Hz. lia.
Qed.

Lemma sort_by_key_sorted l : StronglySorted higher_first (StableSort.sort cmp l).
Proof.
  induction l as [|x l IH]; cbn [StableSort.sort]; [constructor |].
  now apply insert_by_key_sorted.
Qed.

End ByKey.

Lemma sorted_firstn {A} (R : A -> A -> Prop) n : forall l,
  StronglySorted R l -> StronglySorted R (firstn n l).
Proof.
  induction n as [|n IH]; intros l Hs; cbn [firstn]; [constructor |].
  destruct Hs as [|x l Hs Hx]; [constructor |].
  constructor; [now apply IH |].
  apply Forall_forall. intros y Hy. rewrite Forall_forall in Hx. apply Hx.
  rewrite <- (firstn_skipn n l). apply in_or_app. now left.
Qed.

(** In a sorted list everything behind a cut is related to everything
    before it. *)
Lemma sorted_split {A} (R : A -> A -> Prop) n : forall l,
  StronglySorted R l ->
  Forall (fun b => Forall (fun a => R a b) (firstn n l)) (skipn n l).
Proof.
  induction n as [|n IH]; intros l Hs; cbn [firstn skipn].
  - apply Forall_forall. intros b _. constructor.
  - destruct Hs as [|x l Hs Hx]; [constructor |].
    specialize (IH l Hs). rewrite Forall_forall in *. intros b Hb.
    constructor; [| now apply IH].
    apply Hx. rewrite <- (firstn_skipn n l). apply in_or_app. now right.
Qed.

End RankingFacts.

Module GitParsingFacts.
Import JS JSString GitContext GitOutput.

Lemma eqb_two x y a b : JS.eqb [x; y] [a; b] = N.eqb x a && N.eqb y b.
Proof.
  unfold JS.eqb. destruct (jsstring_eq_dec [x; y] [a; b]) as [He | Hne].
  - injection He as -> ->. now rewrite !N.eqb_refl.
  - destruct (N.eqb_spec x a) as [-> |]; [| reflexivity].
    destruct (N.eqb_spec y b) as [-> |]; [| reflexivity]. congruence.
Qed.

Lemma includes_two x y c : includes [x; y] [c] = N.eqb x c || N.eqb y c.
Proof.
  cbn [includes startsWith]. rewrite !andb_true_r.
  destruct (N.eqb x c), (N.eqb y c); reflexivity.
Qed.

(** One turn of the loop on a line of at least three code units. *)
Lemma push_status_line acc x y z p :
  push_status acc (x :: y :: z :: p)
  = {| modified := modified acc ++ (if in_bucket Modified x y then [p] else []);
       added := added acc ++ (if in_bucket Added x y then [p] else []);
       deleted := deleted acc ++ (if in_bucket Deleted x y then [p] else []);
       untracked := untracked acc ++ (if in_bucket Untracked x y then [p] else []) |}.
Proof.
  unfold push_status, substring_to, substring_from. cbn [firstn skipn].
  change (str "??") with [63%N; 63%N]. rewrite eqb_two, !includes_two.
  unfold in_bucket, bucket_of, c_M, c_A, c_D.
  destruct (N.eqb x 63 && N.eqb y 63); [now rewrite !app_nil_r; destruct acc |].
  destruct (N.eqb x 77 || N.eqb y 77); [now rewrite !app_nil_r; destruct acc |].
  destruct (N.eqb x 65 || N.eqb y 65); [now rewrite !app_nil_r; destruct acc |].
  destruct (N.eqb x 68 || N.eqb y 68); now rewrite !app_nil_r; destruct acc.
Qed.

Lemma files_in_cons b e entries :
  files_in b (e :: entries)
  = (if in_bucket b (X e) (Y e) then [path_of e] else []) ++ files_in b entries.
Proof.
  unfold files_in. cbn [filter]. now destruct (in_bucket b (X e) (Y e)).
Qed.

Lemma fold_porcelain entries : forall acc,
  fold_left push_status (map porcelain_line entries) acc
  = {| modified := modified acc ++ files_in Modified entries;
       added := added acc ++ files_in Added entries;
       deleted := deleted acc ++ files_in Deleted entries;
       untracked := untracked acc ++ files_in Untracked entries |}.
Proof.
  induction entries as [|e entries IH]; intros acc; cbn [map fold_left].
  - unfold files_in. cbn [filter map]. rewrite !app_nil_r. now destruct acc.
  - unfold porcelain_line at 2. rewrite push_status_line, IH.
    cbn [modified added deleted untracked].
    now rewrite !files_in_cons, <- !app_assoc.
Qed.

Lemma porcelain_lines entries :
  porcelain entries = flat_map (fun l => l ++ [10%N]) (map porcelain_line entries).
Proof.
  unfold porcelain. induction entries as [|e entries IH]; [reflexivity |].
  cbn [flat_map map]. now rewrite IH.
Qed.

Lemma plain_entry_line e :
  plain_entry e ->
  ~ In 10%N (porcelain_line e) /\ porcelain_line e <> []
  /\ trimEnd (porcelain_line e) = porcelain_line e.
Proof.
  intros (Hlf & Hne & Hfix). split; [exact Hlf |]. split; [discriminate |].
  unfold porcelain_line.
  change (X e :: Y e :: 32%N :: path_of e) with ([X e; Y e; 32%N] ++ path_of e).
  rewrite JSStringFacts.trimEnd_app by (rewrite Hfix; exact Hne). now rewrite Hfix.
Qed.

(** The status lines of well-formed entries, the first of which has a
    first letter that is no white space, are read back as they are. *)
Lemma parse_porcelain entries :
  Forall plain_entry entries ->
  (forall e, hd_error entries = Some e -> is_trim_space (X e) = false) ->
  parse_status (trim (porcelain entries)) = lists_of entries.
Proof.
  intros Hall Hhd. unfold parse_status, nonblank_lines.
  rewrite porcelain_lines, JSStringFacts.lines_recovered.
  - rewrite fold_porcelain. reflexivity.
  - apply Forall_map. eapply Forall_impl; [| exact Hall]. apply plain_entry_line.
  - destruct entries as [|e entries]; [reflexivity |].
    cbn [map hd porcelain_line trimStart]. now rewrite (Hhd e eq_refl).
Qed.

(** When the first letter of the first entry is white space, [trim]
    takes it away and the line is read one code unit to the left. *)
Lemma parse_porcelain_shifted e rest :
  Forall plain_entry (e :: rest) ->
  is_trim_space (X e) = true -> is_trim_space (Y e) = false ->
  parse_status (trim (porcelain (e :: rest)))
  = lists_of ({| X := Y e; Y := 32%N; path_of := tl (path_of e) |} :: rest).
Proof.
  intros Hall Hx Hy. inversion Hall as [|? ? He Hrest]; subst.
  unfold parse_status, nonblank_lines.
  assert (porcelain (e :: rest)
          = X e :: flat_map (fun l => l ++ [10%N])
                     ((Y e :: 32%N :: path_of e) :: map porcelain_line rest)) as ->.
  { rewrite porcelain_lines. reflexivity. }
  rewrite JSStringFacts.trim_space by exact Hx.
  rewrite JSStringFacts.lines_recovered.
  - destruct He as (Hlf & Hne & Hfix).
    destruct (path_of e) as [|c p] eqn:Hp; [congruence |].
    cbn [fold_left]. rewrite push_status_line, fold_porcelain.
    cbn [modified added deleted untracked no_files app tl].
    unfold lists_of. rewrite !files_in_cons. cbn [X Y path_of]. reflexivity.
  - constructor.
    + destruct He as (Hlf & Hne & Hfix). split; [| split; [discriminate |]].
      * intros Hin. apply Hlf. unfold porcelain_line. now right.
      * change (Y e :: 32%N :: path_of e) with ([Y e; 32%N] ++ path_of e).
        rewrite JSStringFacts.trimEnd_app by (rewrite Hfix; exact Hne). now rewrite Hfix.
    + apply Forall_map. eapply Forall_impl; [| exact Hrest]. apply plain_entry_line.
  - cbn [hd trimStart]. now rewrite Hy.
Qed.

End GitParsingFacts.
Module GitLogFacts.
Import JS JSString GitContext GitOutput.

Lemma not_in_app {A} (x : A) l r : ~ In x l -> ~ In x r -> ~ In x (l ++ r).
Proof. intros Hl Hr Hin. apply in_app_or in Hin. tauto. Qed.

Lemma commit_of_fields leading c :
  plain_commit c -> ~ In unit_separator leading ->
  commit_of_entry (log_fields leading c) = [as_reported leading c].
Proof.
  intros ((Hh & Hh1 & _) & (Ha & Ha1 & _) & (Hd & Hd1 & _) & (Hm & Hm1 & _)) Hlead.
  unfold commit_of_entry, log_fields, as_reported.
  rewrite (app_assoc leading (hash c)). cbn [app].
  rewrite JSStringFacts.split_on_app by (now apply not_in_app).
  rewrite JSStringFacts.split_on_app by exact Ha1.
  rewrite JSStringFacts.split_on_app by exact Hd1.
  rewrite JSStringFacts.split_on_none by exact Hm1.
  assert (truthy (leading ++ hash c) = true) as ->.
  { destruct leading; [| reflexivity]. cbn [app]. destruct (hash c); [congruence | reflexivity]. }
  destruct (author c); [congruence |]. destruct (date c); [congruence |].
  destruct (message c); [congruence |]. reflexivity.
Qed.

Lemma log_fields_plain leading c :
  plain_commit c -> ~ In record_separator leading ->
  ~ In record_separator (log_fields leading c).
Proof.
  intros ((_ & _ & Hh) & (_ & _ & Ha) & (_ & _ & Hd) & (_ & _ & Hm)) Hlead.
  unfold log_fields.
  repeat (apply not_in_app; [assumption || (intros [H | []]; discriminate H) |]).
  exact Hm.
Qed.

Lemma log_fields_truthy leading c : plain_commit c -> truthy (log_fields leading c) = true.
Proof.
  intros ((Hh & _) & _). unfold log_fields. destruct leading; [| reflexivity].
  cbn [app]. destruct (hash c); [congruence | reflexivity].
Qed.

(** The output for at least one commit, record by record. *)
Lemma log_output_cons c rest :
  log_output (c :: rest)
  = log_fields [] c ++ record_separator
      :: flat_map (fun c' => log_fields [10%N] c' ++ [record_separator]) rest.
Proof.
  unfold log_output. revert c. induction rest as [|c2 rest IH]; intros c.
  - reflexivity.
  - cbn [map]. rewrite (JSStringFacts.join_cons [10%N] (log_record c)) by discriminate.
    cbn [map] in IH. rewrite IH. unfold log_record. cbn [flat_map].
    rewrite <- !app_assoc. reflexivity.
Qed.

Lemma split_records rest :
  Forall plain_commit rest ->
  split_on record_separator
    (flat_map (fun c' => log_fields [10%N] c' ++ [record_separator]) rest)
  = map (log_fields [10%N]) rest ++ [[]].
Proof.
  induction 1 as [|c rest Hc _ IH]; [reflexivity |].
  cbn [flat_map map]. rewrite <- app_assoc. cbn [app].
  rewrite JSStringFacts.split_on_app, IH; [reflexivity |].
  apply log_fields_plain; [exact Hc |]. intros [H | []]. discriminate H.
Qed.

Lemma trim_log_output c rest :
  trimStart (hash c) = hash c -> hash c <> [] ->
  trim (log_output (c :: rest)) = log_output (c :: rest).
Proof.
  intros Hfix Hne. unfold trim.
  assert (trimStart (log_output (c :: rest)) = log_output (c :: rest)) as ->.
  { rewrite log_output_cons. unfold log_fields. cbn [app].
    rewrite <- !app_assoc. rewrite JSStringFacts.trimStart_app by (rewrite Hfix; exact Hne).
    now rewrite Hfix. }
  assert (exists front, log_output (c :: rest) = front ++ [record_separator]) as [front ->].
  { unfold log_output.
    destruct (JSStringFacts.join_last [10%N] (map log_record (c :: rest))) as [front Hf];
      [discriminate |].
    assert (exists f, last (map log_record (c :: rest)) [] = f ++ [record_separator])
      as [f Hlast].
    { apply (JSStringFacts.Forall_last
               (fun l => exists f, l = f ++ [record_separator])); [discriminate |].
      apply Forall_map, Forall_forall. intros x _. now exists (log_fields [] x). }
    exists (front ++ f). now rewrite Hf, Hlast, app_assoc. }
  now rewrite JSStringFacts.trimEnd_app by discriminate.
Qed.

(** The commits of a [format:] output, read back. *)
Lemma parse_log_output commits :
  Forall plain_commit commits ->
  (forall c, hd_error commits = Some c -> trimStart (hash c) = hash c) ->
  parse_commits (trim (log_output commits)) = commits_reported commits.
Proof.
  intros Hall Hhd. destruct commits as [|c rest]; [reflexivity |].
  inversion Hall as [|? ? Hc Hrest]; subst.
  rewrite trim_log_output; [| now apply Hhd | apply Hc].
  unfold parse_commits. rewrite log_output_cons.
  rewrite JSStringFacts.split_on_app
    by (apply log_fields_plain; [exact Hc | intros []]).
  rewrite split_records by exact Hrest.
  cbn [filter]. rewrite log_fields_truthy by exact Hc.
  rewrite filter_app. cbn [filter truthy]. rewrite app_nil_r.
  rewrite JSStringFacts.filter_all.
  - cbn [flat_map commits_reported].
    rewrite commit_of_fields; [| exact Hc | intros []]. cbn [app]. f_equal.
    clear Hall Hhd Hc. induction Hrest as [|c2 rest Hc2 _ IH]; [reflexivity |].
    cbn [map flat_map]. rewrite commit_of_fields, IH; [reflexivity | exact Hc2 |].
    intros [H | []]. discriminate H.
  - apply Forall_map. eapply Forall_impl; [| exact Hrest]. cbv beta.
    intros x Hx. now apply log_fields_truthy.
Qed.

End GitLogFacts.
Module GitContextFacts.
Import JS JSString GitContext GitOutput.

Ltac git_step_in H :=
  match type of H with
  | context [git ?E ?cwd ?c] =>
      let o := fresh "out" in
      let e := fresh "Hgit" in
      destruct (git E cwd c) as [o | o] eqn:e;
      cbv beta iota zeta delta [negb fst snd rethrow] in H
  end.

Ltac git_step :=
  match goal with
  | |- context [git ?E ?cwd ?c] =>
      let o := fresh "out" in
      let e := fresh "Hgit" in
      destruct (git E cwd c) as [o | o] eqn:e;
      cbv beta iota zeta delta [negb fst snd rethrow]
  end.

Ltac unfold_request :=
  unfold getGitContext, getGitContext_try, isGitRepo, getRecentCommits, getGitStatus,
    getChangedFiles, getGitDiff, bind, try_catch, ret, throw, gitCommand.

(** What a returned reply was made of. *)
Lemma getGitContext_returned E args r :
  fst (getGitContext E args) = Returned r ->
  exists out_log out_status,
    git E (projectPath args) (cmd_log (safeCommitCount args)) = inr out_log
    /\ git E (projectPath args) cmd_status = inr out_status
    /\ recentCommits r = parse_commits (trim out_log)
    /\ status r = parse_status (trim out_status)
    /\ changedFiles r
       = slice 0 20 (StableSort.sort more_changes_first (numstat_items E args)).
Proof.
  intros H. unfold numstat_items.
  unfold getGitContext, getGitContext_try, isGitRepo, getRecentCommits, getGitStatus,
    getChangedFiles, getGitDiff, bind, try_catch, ret, throw, gitCommand in H.
  cbv beta iota zeta delta [negb fst snd rethrow] in H.
  repeat (git_step_in H; try discriminate H).
  all: destruct (includeDiff args) as [[]|];
       cbv beta iota zeta delta [negb fst snd rethrow] in H.
  all: repeat (git_step_in H; try discriminate H).
  all: injection H as <-; cbn [recentCommits status changedFiles].
  all: eexists; eexists; repeat split; try eassumption; reflexivity.
Qed.

Lemma safeCommitCount_range args : (1 <= safeCommitCount args <= 100)%Z.
Proof.
  unfold safeCommitCount, MAX_COMMIT_COUNT.
  destruct (commitCount args) as [[n |] |]; lia.
Qed.

(** X17. The [git] commands a request runs are an initial stretch of
    one fixed sequence of eight: the repository check, [log], the branch
    name, the ahead/behind count, [status], the numstat and the two
    [diff]s, in this order and each at most once. The count in [log -n]
    and in [HEAD~n] lies between 1 and 100 whatever was passed as
    [commitCount], and without [includeDiff] the two [diff] commands for
    the patch text are not run. *)
Theorem commands_are_a_prefix E args :
  (1 <= safeCommitCount args <= 100)%Z
  /\ exists k,
       snd (getGitContext E args) = firstn k (command_sequence (safeCommitCount args))
       /\ (includeDiff args = Some false -> (k <= 6)%nat).
Proof.
  split; [apply safeCommitCount_range |].
  unfold_request. cbv beta iota zeta delta [negb fst snd rethrow].
  repeat git_step.
  all: destruct (includeDiff args) as [[]|];
       cbv beta iota zeta delta [negb fst snd rethrow].
  all: repeat git_step.
  all: unfold command_sequence; cbn [app].
  all: first [ exists 1%nat; split; [reflexivity | intros; lia || discriminate]
             | exists 2%nat; split; [reflexivity | intros; lia || discriminate]
             | exists 3%nat; split; [reflexivity | intros; lia || discriminate]
             | exists 4%nat; split; [reflexivity | intros; lia || discriminate]
             | exists 5%nat; split; [reflexivity | intros; lia || discriminate]
             | exists 6%nat; split; [reflexivity | intros; lia || discriminate]
             | exists 7%nat; split; [reflexivity | intros; lia || discriminate]
             | exists 8%nat; split; [reflexivity | intros; lia || discriminate] ].
Qed.

(** X18. A request returns exactly when four commands succeed: the
    repository check, [log], the branch name and [status]. A failure of
    the ahead/behind count, of the numstat or of a [diff] is caught on
    the way. Every other request throws, with the tool's prefix; when the
    repository check fails the message is the fixed one and no further
    command is run. *)
Theorem request_returns_iff E args :
  ((exists r, fst (getGitContext E args) = Returned r)
   <-> Forall (fun c => exists out, git E (projectPath args) c = inr out)
              (fatal_commands (safeCommitCount args)))
  /\ ((forall r, fst (getGitContext E args) <> Returned r) ->
      exists m, fst (getGitContext E args) = Thrown (failed_prefix ++ m))
  /\ (forall m, git E (projectPath args) cmd_git_dir = inl m ->
      getGitContext E args = (Thrown (failed_prefix ++ msg_not_repo), [cmd_git_dir])).
Proof.
  split; [split |].
  - intros [r Hr].
    unfold getGitContext, getGitContext_try, isGitRepo, getRecentCommits, getGitStatus,
      getChangedFiles, getGitDiff, bind, try_catch, ret, throw, gitCommand in Hr.
    cbv beta iota zeta delta [negb fst snd rethrow] in Hr.
    unfold fatal_commands.
    destruct (git E (projectPath args) cmd_git_dir) as [m | o1] eqn:H1;
      cbv beta iota zeta delta [negb fst snd rethrow] in Hr; [discriminate |].
    destruct (git E (projectPath args) (cmd_log (safeCommitCount args)))
      as [m | o2] eqn:H2;
      cbv beta iota zeta delta [negb fst snd rethrow] in Hr; [discriminate |].
    destruct (git E (projectPath args) cmd_branch) as [m | o3] eqn:H3;
      cbv beta iota zeta delta [negb fst snd rethrow] in Hr; [discriminate |].
    destruct (git E (projectPath args) cmd_status) as [m | o4] eqn:H4.
    + exfalso. repeat (git_step_in Hr; try discriminate Hr).
    + repeat (apply Forall_cons; [eexists; eassumption |]). apply Forall_nil.
  - intros Hall. unfold fatal_commands in Hall.
    inversion Hall as [|? ? [o1 H1] Hall1]; subst.
    inversion Hall1 as [|? ? [o2 H2] Hall2]; subst.
    inversion Hall2 as [|? ? [o3 H3] Hall3]; subst.
    inversion Hall3 as [|? ? [o4 H4] _]; subst.
    unfold_request. cbv beta iota zeta delta [negb fst snd rethrow].
    rewrite H1. cbv beta iota zeta delta [negb fst snd rethrow].
    rewrite H2. cbv beta iota zeta delta [negb fst snd rethrow].
    rewrite H3. cbv beta iota zeta delta [negb fst snd rethrow].
    git_step; rewrite H4; cbv beta iota zeta delta [negb fst snd rethrow].
    all: git_step.
    all: destruct (includeDiff args) as [[]|];
         cbv beta iota zeta delta [negb fst snd rethrow].
    all: repeat git_step.
    all: eexists; reflexivity.
  - split.
    + intros Hno. revert Hno.
      unfold_request. cbv beta iota zeta delta [negb fst snd rethrow].
      repeat git_step.
      all: destruct (includeDiff args) as [[]|];
           cbv beta iota zeta delta [negb fst snd rethrow].
      all: repeat git_step.
      all: intros Hno; try (eexists; reflexivity).
      all: exfalso; eapply Hno; reflexivity.
    + intros m Hm. unfold_request. cbv beta iota zeta delta [negb fst snd rethrow].
      rewrite Hm. reflexivity.
Qed.

(** The request of the small repository returns. *)
Lemma request_returns_iff_witness :
  (exists r, fst (getGitContext (GitWorlds.repository GitWorlds.staged)
                    (GitWorlds.request None None)) = Returned r)
  /\ getGitContext GitWorlds.no_repository (GitWorlds.request None None)
     = (Thrown (failed_prefix ++ msg_not_repo), [cmd_git_dir]).
Proof.
  split.
  - apply (proj1 (request_returns_iff (GitWorlds.repository GitWorlds.staged)
                    (GitWorlds.request None None))).
    repeat (apply Forall_cons; [eexists; reflexivity |]). apply Forall_nil.
  - apply (proj2 (proj2 (request_returns_iff GitWorlds.no_repository
                           (GitWorlds.request None None)))
             (str "fatal: not a git repository")).
    reflexivity.
Defined.

Ltac plain_entries :=
  repeat (apply Forall_cons;
          [split; [vm_compute; intuition discriminate
                  | split; [discriminate | reflexivity]] |]);
  apply Forall_nil.

(** X19. When [git status --porcelain] prints well-formed entries and
    the first letter of the first entry is no white space, the four lists
    of the reply hold exactly the paths of the entries, each in the list
    its two letters select: untracked for [??], else modified if one of
    them is [M], else added if one is [A], else deleted if one is [D]; an
    entry with other letters (a rename, a conflict) is in no list. *)
Theorem status_lists_exact E args r entries :
  fst (getGitContext E args) = Returned r ->
  git E (projectPath args) cmd_status = inr (porcelain entries) ->
  Forall plain_entry entries ->
  (forall e, hd_error entries = Some e -> is_trim_space (X e) = false) ->
  status r = lists_of entries.
Proof.
  intros Hr Hgit Hall Hhd.
  destruct (getGitContext_returned E args r Hr) as (ol & os & _ & Hs & _ & -> & _).
  rewrite Hgit in Hs. injection Hs as <-.
  now apply GitParsingFacts.parse_porcelain.
Qed.

(** A staged change, a deletion, a rename and a new file. *)
Lemma status_lists_exact_witness :
  exists r,
    fst (getGitContext (GitWorlds.repository GitWorlds.staged)
           (GitWorlds.request None None)) = Returned r
    /\ modified (status r) = [str "src/a.ts"]
    /\ added (status r) = []
    /\ deleted (status r) = [str "old.txt"]
    /\ untracked (status r) = [str "new.txt"]
    /\ status r = lists_of GitWorlds.staged.
Proof.
  eexists. split; [vm_compute; reflexivity |].
  repeat (split; [reflexivity |]).
  apply (status_lists_exact (GitWorlds.repository GitWorlds.staged)
           (GitWorlds.request None None) _ GitWorlds.staged eq_refl eq_refl).
  - unfold GitWorlds.staged. plain_entries.
  - intros e He. injection He as <-. reflexivity.
Defined.

(** X20. [gitCommand] trims the whole output before it is cut into
    lines. When the first status entry has a blank first letter (a change
    that is not staged), its line loses that letter: the entry is filed
    under its second letter alone, and its path is reported without its
    first code unit. The other entries are unaffected. *)
Theorem first_status_line_shifted E args r e rest :
  fst (getGitContext E args) = Returned r ->
  git E (projectPath args) cmd_status = inr (porcelain (e :: rest)) ->
  Forall plain_entry (e :: rest) ->
  is_trim_space (X e) = true -> is_trim_space (Y e) = false ->
  status r = lists_of ({| X := Y e; Y := 32%N; path_of := tl (path_of e) |} :: rest).
Proof.
  intros Hr Hgit Hall Hx Hy.
  destruct (getGitContext_returned E args r Hr) as (ol & os & _ & Hs & _ & -> & _).
  rewrite Hgit in Hs. injection Hs as <-.
  now apply GitParsingFacts.parse_porcelain_shifted.
Qed.

(** An edited [foo.txt] that is not staged is reported as [oo.txt]. *)
Lemma first_status_line_shifted_witness :
  exists r,
    fst (getGitContext (GitWorlds.repository GitWorlds.unstaged)
           (GitWorlds.request None None)) = Returned r
    /\ modified (status r) = [str "oo.txt"]
    /\ untracked (status r) = [str "new.txt"]
    /\ status r
       = lists_of ({| X := 77%N; Y := 32%N; path_of := str "oo.txt" |}
                     :: tl GitWorlds.unstaged).
Proof.
  eexists. split; [vm_compute; reflexivity |].
  repeat (split; [reflexivity |]).
  apply (first_status_line_shifted (GitWorlds.repository GitWorlds.unstaged)
           (GitWorlds.request None None) _
           {| X := 32%N; Y := 77%N; path_of := str "foo.txt" |}
           (tl GitWorlds.unstaged) eq_refl eq_refl).
  - cbn [tl GitWorlds.unstaged]. plain_entries.
  - reflexivity.
  - reflexivity.
Defined.

(** X21. When [git log] prints the commits in the requested format,
    with the line feed that [format:] puts between two commits, the first
    commit is reported field by field (its message trimmed), and every
    later one with a hash that begins with that line feed: nothing takes
    it away before the hash is cut off at the first unit separator. *)
Theorem later_hashes_keep_line_feed E args r commits :
  fst (getGitContext E args) = Returned r ->
  git E (projectPath args) (cmd_log (safeCommitCount args)) = inr (log_output commits) ->
  Forall plain_commit commits ->
  (forall c, hd_error commits = Some c -> trimStart (hash c) = hash c) ->
  recentCommits r = commits_reported commits.
Proof.
  intros Hr Hgit Hall Hhd.
  destruct (getGitContext_returned E args r Hr) as (ol & os & Hl & _ & -> & _).
  rewrite Hgit in Hl. injection Hl as <-.
  now apply GitLogFacts.parse_log_output.
Qed.

Ltac plain_commits :=
  repeat (apply Forall_cons;
          [repeat split; try discriminate; vm_compute; intuition discriminate |]);
  apply Forall_nil.

(** Two commits: the hash of the second one comes back with the line
    feed in front. *)
Lemma later_hashes_keep_line_feed_witness :
  exists r,
    fst (getGitContext (GitWorlds.repository GitWorlds.staged)
           (GitWorlds.request None None)) = Returned r
    /\ map hash (recentCommits r) = [str "1a2b3c"; 10%N :: str "4d5e6f"]
    /\ recentCommits r = commits_reported [GitWorlds.commit_a; GitWorlds.commit_b].
Proof.
  eexists. split; [vm_compute; reflexivity |].
  split; [reflexivity |].
  apply (later_hashes_keep_line_feed (GitWorlds.repository GitWorlds.staged)
           (GitWorlds.request None None) _ [GitWorlds.commit_a; GitWorlds.commit_b]
           eq_refl eq_refl).
  - plain_commits.
  - intros c Hc. injection Hc as <-. reflexivity.
Defined.



End GitContextFacts.

(** ** [Promise.all] *)

Module PromiseFacts.
Import JS.

Lemma rejections_In {A} (results : list (outcome A)) m :
  In m (rejections results) <-> In (Thrown m) results.
Proof.
  unfold rejections. rewrite in_flat_map. split.
  - intros ([v | m' |] & Hin & Hm); cbn in Hm; try contradiction.
    destruct Hm as [-> | []]. exact Hin.
  - intros Hin. exists (Thrown m). split; [exact Hin | now left].
Qed.

Lemma fulfilled_rejections {A} (results : list (outcome A)) :
  forall values, fulfilled results = Some values -> rejections results = [].
Proof.
  induction results as [|[v | m |] results IH]; intros values; cbn [fulfilled];
    try discriminate; [reflexivity |].
  destruct (fulfilled results) as [rest |]; [| discriminate].
  intros _. exact (IH rest eq_refl).
Qed.

Lemma fulfilled_map {A B} (f : A -> outcome B) l :
  forall values,
    fulfilled (map f l) = Some values <-> Forall2 (fun x v => f x = Returned v) l values.
Proof.
  induction l as [|x l IH]; intros values; cbn [map fulfilled].
  - split; [intros H; injection H as <-; constructor | intros H; now inversion H].
  - destruct (f x) as [v | m |] eqn:Hx.
    + destruct (fulfilled (map f l)) as [rest |] eqn:Hrest; cbn [option_map].
      * split.
        -- intros H. injection H as <-. constructor; [exact Hx | now apply IH].
        -- intros H. inversion H as [|? v' ? rest' Hv Hl]; subst.
           apply IH in Hl. rewrite Hx in Hv. injection Hv as <-. congruence.
      * split; [discriminate |].
        intros H. inversion H as [|? v' ? rest' Hv Hl]; subst.
        apply IH in Hl. discriminate Hl.
    + split; [discriminate |].
      intros H. inversion H as [|? v' ? rest' Hv Hl]; subst. congruence.
    + split; [discriminate |].
      intros H. inversion H as [|? v' ? rest' Hv Hl]; subst. congruence.
Qed.

Lemma fulfilled_None {A} (results : list (outcome A)) :
  fulfilled results = None -> exists r, In r results /\ forall v, r <> Returned v.
Proof.
  induction results as [|[v | m |] results IH]; cbn [fulfilled]; try discriminate.
  - destruct (fulfilled results) as [rest |]; [discriminate |].
    intros _. destruct (IH eq_refl) as (r & Hin & Hr). exists r. split; [now right | exact Hr].
  - intros _. exists (Thrown m). split; [now left | discriminate].
  - intros _. exists Diverged. split; [now left | discriminate].
Qed.

(** All the values when every promise is fulfilled. *)
Lemma promise_all_returned {A} race (results : list (outcome A)) values :
  promise_all race results = Returned values <-> fulfilled results = Some values.
Proof.
  unfold promise_all. split.
  - destruct (rejections results); [| discriminate].
    destruct (fulfilled results); [| discriminate]. congruence.
  - intros H. rewrite (fulfilled_rejections _ _ H), H. reflexivity.
Qed.

(** A rejection of the whole is the rejection of one of the promises. *)
Lemma promise_all_thrown {A} race (results : list (outcome A)) m :
  promise_all race results = Thrown m -> In (Thrown m) results.
Proof.
  unfold promise_all. destruct (rejections results) as [|m0 ms] eqn:Hrej.
  - destruct (fulfilled results); discriminate.
  - assert (In (nth (race (m0 :: ms)) (m0 :: ms) m0) (m0 :: ms)) as Hin.
    { destruct (Nat.lt_ge_cases (race (m0 :: ms)) (length (m0 :: ms))) as [Hlt | Hge].
      - exact (nth_In (m0 :: ms) m0 Hlt).
      - rewrite (nth_overflow (m0 :: ms) m0 Hge). now left. }
    intros H. injection H as <-. apply rejections_In. rewrite Hrej. exact Hin.
Qed.

Lemma promise_all_cases {A} race (results : list (outcome A)) :
  (exists values, promise_all race results = Returned values)
  \/ (exists m, In (Thrown m) results /\ promise_all race results = Thrown m)
  \/ (In Diverged results /\ promise_all race results = Diverged).
Proof.
  destruct (promise_all race results) as [values | m |] eqn:Hall.
  - left. now exists values.
  - right. left. exists m. split; [now apply (promise_all_thrown race) | reflexivity].
  - right. right. split; [| reflexivity].
    unfold promise_all in Hall. destruct (rejections results) eqn:Hrej; [| discriminate].
    destruct (fulfilled results) eqn:Hful; [discriminate |].
    destruct (fulfilled_None _ Hful) as ([v | m |] & Hin & Hr).
    + now destruct (Hr v).
    + apply rejections_In in Hin. rewrite Hrej in Hin. destruct Hin.
    + exact Hin.
Qed.

End PromiseFacts.

Module CodeGraphFacts.
Import JS JSString CodeGraph.

Lemma fold_left_invariant {A B} (P : A -> Prop) (f : A -> B -> A) l : forall a,
  P a -> (forall a b, In b l -> P a -> P (f a b)) -> P (fold_left f l a).
Proof.
  induction l as [|b l IH]; intros a Ha Hstep; cbn [fold_left]; [exact Ha |].
  apply IH.
  - apply Hstep; [now left | exact Ha].
  - intros a' b' Hb'. apply Hstep. now right.
Qed.

Lemma map_has_In m k : map_has m k = true <-> In k (map fst m).
Proof.
  induction m as [|[k' v'] m IH]; cbn [map_has map fst In]; [split; [discriminate | tauto] |].
  rewrite orb_true_iff, IH. unfold JS.eqb.
  destruct (jsstring_eq_dec k' k); intuition congruence.
Qed.

Lemma node_keys_set m k v :
  map fst (map_set m k v) = if map_has m k then map fst m else map fst m ++ [k].
Proof.
  induction m as [|[k' v'] m IH]; cbn [map_set map_has map fst app]; [reflexivity |].
  unfold JS.eqb at 1 2. destruct (jsstring_eq_dec k' k) as [-> | Hne]; cbn [orb map fst].
  - reflexivity.
  - rewrite IH. now destruct (map_has m k).
Qed.

Lemma node_keys_grow m k v x : In x (map fst m) -> In x (map fst (map_set m k v)).
Proof.
  intros Hx. rewrite node_keys_set. destruct (map_has m k); [exact Hx |].
  apply in_or_app. now left.
Qed.

Lemma node_keys_new m k v : In k (map fst (map_set m k v)).
Proof.
  rewrite node_keys_set. destruct (map_has m k) eqn:Hhas; [now apply map_has_In |].
  apply in_or_app. right. now left.
Qed.

Lemma In_map_set m k v k' n :
  In (k', n) (map_set m k v) -> (k' = k /\ n = v) \/ In (k', n) m.
Proof.
  induction m as [|[k0 v0] m IH]; cbn [map_set In].
  - intros [H | []]. injection H as <- <-. now left.
  - unfold JS.eqb. destruct (jsstring_eq_dec k0 k) as [-> | Hne]; cbn [In].
    + intros [H | H]; [injection H as <- <-; now left | now right; right].
    + intros [H | H]; [now right; left |]. destruct (IH H); [now left | now right; right].
Qed.

Lemma In_keys (m : node_map) k : In k (map fst m) <-> exists v, In (k, v) m.
Proof.
  split.
  - intros H. apply in_map_iff in H as [[k' v] [Hk Hin]]. cbn [fst] in Hk. subst k'.
    now exists v.
  - intros [v Hin]. apply in_map_iff. now exists (k, v).
Qed.

Lemma NoDup_map_set m k v : NoDup (map fst m) -> NoDup (map fst (map_set m k v)).
Proof.
  intros Hnd. rewrite node_keys_set. destruct (map_has m k) eqn:Hhas; [exact Hnd |].
  apply NoDup_app; [exact Hnd | repeat constructor; intros [] |].
  intros x Hx [<- | []]. apply map_has_In in Hx. congruence.
Qed.

Section Builder.

Variable basename : jsstring -> jsstring.
Variable all : list FileAnalysis.
Variable includeExternal : bool.

Local Abbreviation good_nodes := (CodeGraph.good_nodes basename all includeExternal).
Local Abbreviation good_state := (CodeGraph.good_state basename all includeExternal).
Local Abbreviation add_import := (CodeGraph.add_import all includeExternal).
Local Abbreviation add_imports := (CodeGraph.add_imports all includeExternal).

Lemma file_nodes_keys l : forall acc p,
  In p (map fst acc) \/ In p (map path l) ->
  In p (map fst (fold_left (fun nodes analysis =>
                              map_set nodes (path analysis)
                                (file_node basename (path analysis))) l acc)).
Proof.
  induction l as [|a l IH]; intros acc p Hp; cbn [fold_left].
  - destruct Hp as [Hp | []]. exact Hp.
  - apply IH. cbn [map In] in Hp. destruct Hp as [Hp | [<- | Hp]].
    + left. now apply node_keys_grow.
    + left. apply node_keys_new.
    + now right.
Qed.

Lemma file_nodes_good : good_state (file_nodes basename all, []).
Proof.
  split; [| split].
  - cbn [fst]. unfold file_nodes. apply fold_left_invariant.
    + split; [constructor | intros k n []].
    + intros m a Ha [Hnd Hm]. split; [now apply NoDup_map_set |].
      intros k n Hin. apply In_map_set in Hin as [[-> ->] | Hin]; [| now apply Hm].
      left. split; [reflexivity |]. now apply in_map.
  - cbn [fst]. intros p Hp. unfold file_nodes. apply file_nodes_keys. now right.
  - constructor.
Qed.

Lemma add_import_good analysis imp state :
  In analysis all -> In imp (imports analysis) ->
  good_state state -> good_state (add_import analysis state imp).
Proof.
  intros Ha Himp. destruct state as [m es]. intros ((Hnd & Hm) & Hpaths & Hedges).
  cbn [fst snd] in *. unfold CodeGraph.add_import.
  destruct (isRelative imp) eqn:Hrel.
  - destruct (find _ all) as [resolved |] eqn:Hfind.
    + apply find_some in Hfind as [Hres _].
      split; [now split | split; [exact Hpaths |]]. cbn [fst snd].
      apply Forall_app. split; [exact Hedges |]. constructor; [| constructor].
      cbn [edge_from edge_to]. split; [now apply in_map |].
      apply Hpaths. now apply in_map.
    + now repeat split.
  - destruct includeExternal eqn:Hinc; [| now repeat split].
    destruct (map_has m (source imp)) eqn:Hhas.
    + split; [now split | split; [exact Hpaths |]]. cbn [fst snd].
      apply Forall_app. split; [exact Hedges |]. constructor; [| constructor].
      cbn [edge_from edge_to]. split; [now apply in_map | now apply map_has_In].
    + assert (~ In (source imp) (map fst m)) as Hnew.
      { intros Hin. apply map_has_In in Hin. congruence. }
      split; [split | split]; cbn [fst snd].
      * now apply NoDup_map_set.
      * intros k n Hin. apply In_map_set in Hin as [[-> ->] | Hin]; [| now apply Hm].
        right. split; [reflexivity |]. split; [reflexivity |]. split.
        -- intros Hp. apply Hnew. now apply Hpaths.
        -- unfold external_sources. apply in_flat_map. exists analysis.
           split; [exact Ha |]. apply in_map. apply filter_In. now rewrite Hrel.
      * intros p Hp. apply node_keys_grow. now apply Hpaths.
      * apply Forall_app. split.
        -- eapply Forall_impl; [| exact Hedges]. cbv beta. intros e [Hf Ht].
           split; [exact Hf | now apply node_keys_grow].
        -- constructor; [| constructor]. cbn [edge_from edge_to].
           split; [now apply in_map | apply node_keys_new].
Qed.

Lemma second_pass_good :
  good_state (fold_left add_imports all (file_nodes basename all, [])).
Proof.
  apply fold_left_invariant; [apply file_nodes_good |].
  intros state analysis Ha Hgood. unfold CodeGraph.add_imports.
  apply fold_left_invariant; [exact Hgood |].
  intros state' imp Himp. now apply add_import_good.
Qed.

(** Keys are never taken out, and an import that is not relative leaves
    its source among them when externals are asked for. *)
Lemma add_import_keys analysis imp state k :
  In k (map fst (fst state))
  \/ (includeExternal = true /\ isRelative imp = false /\ source imp = k) ->
  In k (map fst (fst (add_import analysis state imp))).
Proof.
  destruct state as [m es]. cbn [fst]. unfold CodeGraph.add_import.
  intros [Hk | (Hinc & Hrel & <-)].
  - destruct (isRelative imp); [now destruct (find _ all) |].
    destruct includeExternal; [| exact Hk]. cbn [fst].
    destruct (map_has m (source imp)); [exact Hk | now apply node_keys_grow].
  - rewrite Hrel, Hinc. cbn [fst].
    destruct (map_has m (source imp)) eqn:Hhas;
      [now apply map_has_In | apply node_keys_new].
Qed.

Lemma add_imports_keys analysis k : forall l state,
  In k (map fst (fst state))
  \/ (includeExternal = true
      /\ In k (map source (filter (fun imp => negb (isRelative imp)) l))) ->
  In k (map fst (fst (fold_left (add_import analysis) l state))).
Proof.
  induction l as [|imp l IH]; intros state Hk; cbn [fold_left].
  - destruct Hk as [Hk | [_ []]]. exact Hk.
  - apply IH. destruct Hk as [Hk | (Hinc & Hk)].
    + left. apply add_import_keys. now left.
    + cbn [filter] in Hk. destruct (isRelative imp) eqn:Hrel; cbn [negb map In] in Hk.
      * right. now split.
      * destruct Hk as [Hk | Hk]; [| right; now split].
        left. apply add_import_keys. right. now repeat split.
Qed.

Lemma second_pass_keys k : forall l state,
  In k (map fst (fst state)) \/ (includeExternal = true /\ In k (external_sources l)) ->
  In k (map fst (fst (fold_left add_imports l state))).
Proof.
  induction l as [|a l IH]; intros state Hk; cbn [fold_left].
  - destruct Hk as [Hk | [_ []]]. exact Hk.
  - apply IH. destruct Hk as [Hk | (Hinc & Hk)].
    + left. unfold CodeGraph.add_imports. apply add_imports_keys. now left.
    + unfold external_sources in Hk. cbn [flat_map] in Hk.
      apply in_app_or in Hk as [Hk | Hk].
      * left. unfold CodeGraph.add_imports. apply add_imports_keys. right. now split.
      * right. now split.
Qed.

Lemma good_nodes_ids m : good_nodes m -> map id (map snd m) = map fst m.
Proof.
  intros [_ Hm]. induction m as [|[k n] m IH]; [reflexivity |].
  cbn [map fst snd]. f_equal.
  - destruct (Hm k n) as [[-> _] | [-> _]]; [now left | reflexivity | reflexivity].
  - apply IH. intros k' n' Hin. apply Hm. now right.
Qed.

End Builder.

Lemma analyze_all_each E files all :
  analyze_all E files = Returned all ->
  Forall2 (fun f a => analyzeFile E f = Returned a) files all.
Proof.
  unfold analyze_all. intros H.
  now apply PromiseFacts.fulfilled_map, (PromiseFacts.promise_all_returned (race E)).
Qed.

Lemma analyze_all_paths E files : forall all,
  analyze_all E files = Returned all -> map path all = files.
Proof.
  intros all H. apply analyze_all_each in H.
  induction H as [|f a files all Hf _ IH]; [reflexivity |].
  cbn [map]. f_equal; [| exact IH].
  unfold analyzeFile in Hf. destruct (readFile E f); [discriminate |].
  now injection Hf as <-.
Qed.

(** What a returned reply was made of. *)
Lemma analyzeCodeGraph_returned E args r :
  analyzeCodeGraph E args = Returned r ->
  analyze_all E (files args) = Returned (analyses r)
  /\ map path (analyses r) = files args
  /\ graph r = buildDependencyGraph (basename E) (analyses r)
                 (match includeExternalDeps args with Some b => b | None => false end)
  /\ externalDependencies (metrics r) = length (filter is_external (nodes (graph r))).
Proof.
  unfold analyzeCodeGraph.
  destruct (analyze_all E (files args)) as [all | m |] eqn:Hall; try discriminate.
  cbn [rethrow]. intros H. injection H as <-. cbn [analyses graph metrics externalDependencies].
  repeat split. exact (analyze_all_paths E _ _ Hall).
Qed.

Lemma analyze_all_cases E files :
  (exists all, analyze_all E files = Returned all)
  \/ (exists f m, In f files /\ readFile E f = inl m /\ analyze_all E files = Thrown m).
Proof.
  unfold analyze_all.
  destruct (PromiseFacts.promise_all_cases (race E) (map (analyzeFile E) files))
    as [Hret | [(m & Hin & Hall) | [Hin _]]].
  - now left.
  - right. apply in_map_iff in Hin as (f & Hf & Hin). exists f, m.
    repeat split; [exact Hin | | exact Hall].
    unfold analyzeFile in Hf. destruct (readFile E f); [congruence | discriminate].
  - exfalso. apply in_map_iff in Hin as (f & Hf & _).
    unfold analyzeFile in Hf. destruct (readFile E f); discriminate.
Qed.

Lemma analyze_all_readable E files all :
  analyze_all E files = Returned all ->
  Forall (fun f => exists c, readFile E f = inr c) files.
Proof.
  intros H. apply analyze_all_each in H.
  induction H as [|f a files all Hf _ IH]; constructor; [| exact IH].
  unfold analyzeFile in Hf. destruct (readFile E f) as [m | c]; [discriminate |].
  now exists c.
Qed.

(** X23. The graph of a reply is closed and has no node twice: the ids
    of its nodes are distinct, and every edge starts at one of the
    analysed files and ends at a node of the graph. *)
Theorem graph_closed E args r :
  analyzeCodeGraph E args = Returned r ->
  NoDup (map id (nodes (graph r)))
  /\ Forall (fun e => In (edge_from e) (files args)
                      /\ In (edge_to e) (map id (nodes (graph r))))
            (edges (graph r)).
Proof.
  intros Hr. destruct (analyzeCodeGraph_returned E args r Hr) as (_ & Hp & -> & _).
  unfold buildDependencyGraph. cbn [nodes edges].
  match goal with
  | |- context [fold_left ?f ?l ?s] =>
      pose proof (second_pass_good (basename E) (analyses r)
                    (match includeExternalDeps args with Some b => b | None => false end))
        as (Hgood & Hpaths & Hedges);
      set (final := fold_left f l s) in *
  end.
  rewrite (good_nodes_ids _ _ _ _ Hgood). split; [apply Hgood |].
  rewrite <- Hp. exact Hedges.
Qed.

(** Two files, one relative import and one of a package. *)
Lemma graph_closed_witness :
  exists r,
    analyzeCodeGraph GraphWorlds.sources (GraphWorlds.request (Some true)) = Returned r
    /\ map id (nodes (graph r)) = [str "/p/src/a.ts"; str "/p/src/b.ts"; str "react"]
    /\ edges (graph r)
       = [ {| edge_from := str "/p/src/a.ts"; edge_to := str "/p/src/b.ts" |};
           {| edge_from := str "/p/src/a.ts"; edge_to := str "react" |} ]
    /\ NoDup (map id (nodes (graph r))).
Proof.
  eexists. split; [vm_compute; reflexivity |].
  repeat (split; [reflexivity |]).
  apply (graph_closed GraphWorlds.sources (GraphWorlds.request (Some true)) _ eq_refl).
Defined.

(** X24. Every analysed file has its node, of type file, with the base
    name as label, and the nodes of type file are these. Unless external
    dependencies are asked for, the graph has no other node: the count of
    external dependencies is 0 and every edge ends at an analysed file. *)
Theorem graph_file_nodes E args r :
  analyzeCodeGraph E args = Returned r ->
  (forall f, In f (files args) -> In (file_node (basename E) f) (nodes (graph r)))
  /\ (forall n, In n (nodes (graph r)) -> type_of n = TFile ->
      n = file_node (basename E) (id n) /\ In (id n) (files args))
  /\ (includeExternalDeps args <> Some true ->
      Forall (fun n => type_of n = TFile) (nodes (graph r))
      /\ externalDependencies (metrics r) = 0%nat
      /\ Forall (fun e => In (edge_to e) (files args)) (edges (graph r))).
Proof.
  intros Hr. destruct (analyzeCodeGraph_returned E args r Hr) as (_ & Hp & Hg & ->).
  rewrite Hg. unfold buildDependencyGraph. cbn [nodes edges].
  match goal with
  | |- context [fold_left ?f ?l ?s] =>
      pose proof (second_pass_good (basename E) (analyses r)
                    (match includeExternalDeps args with Some b => b | None => false end))
        as (Hgood & Hpaths & Hedges);
      set (final := fold_left f l s) in *
  end.
  pose proof Hgood as [Hnd Hm]. rewrite Hp in *.
  assert (forall n, In n (map snd (fst final)) -> exists k, In (k, n) (fst final)) as Hsnd.
  { intros n Hn. apply in_map_iff in Hn as [[k n'] [Heq Hin]]. cbn [snd] in Heq. subst n'.
    now exists k. }
  split; [| split].
  - intros f Hf. pose proof (Hpaths f Hf) as Hk. apply In_keys in Hk as [n Hn].
    destruct (Hm f n Hn) as [[-> _] | (_ & _ & Hno & _)].
    + apply in_map_iff. now exists (f, file_node (basename E) f).
    + exfalso. now apply Hno.
  - intros n Hn Hty. destruct (Hsnd n Hn) as [k Hk].
    destruct (Hm k n Hk) as [[-> Hin] | (-> & _)]; [| discriminate Hty].
    cbn [id file_node]. now split.
  - intros Hno.
    assert (forall n, In n (map snd (fst final)) -> type_of n = TFile) as Hfile.
    { intros n Hn. destruct (Hsnd n Hn) as [k Hk].
      destruct (Hm k n Hk) as [[-> _] | (_ & Hinc & _)]; [reflexivity |].
      exfalso. destruct (includeExternalDeps args) as [[]|]; congruence. }
    split; [now apply Forall_forall |]. split.
    + assert (filter is_external (map snd (fst final)) = []) as ->; [| reflexivity].
      apply CacheFacts.filter_none. intros n Hn. unfold is_external.
      now rewrite (Hfile n Hn).
    + eapply Forall_impl; [| exact Hedges]. cbv beta. intros e [_ Hto].
      apply In_keys in Hto as [n Hn].
      destruct (Hm _ n Hn) as [[_ Hin] | (-> & _)]; [exact Hin |].
      exfalso. assert (In (external_node (edge_to e)) (map snd (fst final))) as Hin.
      { apply in_map_iff. now exists (edge_to e, external_node (edge_to e)). }
      apply Hfile in Hin. discriminate Hin.
Qed.

(** Without [includeExternalDeps] the import of [react] leaves no trace
    in the graph. *)
Lemma graph_file_nodes_witness :
  exists r,
    analyzeCodeGraph GraphWorlds.sources (GraphWorlds.request None) = Returned r
    /\ nodes (graph r)
       = [ {| id := str "/p/src/a.ts"; label := str "a.ts"; type_of := TFile |};
           {| id := str "/p/src/b.ts"; label := str "b.ts"; type_of := TFile |} ]
    /\ externalDependencies (metrics r) = 0%nat
    /\ Forall (fun e => In (edge_to e) (files (GraphWorlds.request None)))
              (edges (graph r)).
Proof.
  eexists. split; [vm_compute; reflexivity |]. split; [reflexivity |].
  apply (proj2 (proj2 (graph_file_nodes GraphWorlds.sources (GraphWorlds.request None)
                         _ eq_refl))).
  discriminate.
Defined.

(** X25. With external dependencies asked for, the external nodes are
    exactly the sources of the imports that are not relative (they begin
    neither with a dot nor with a slash) and that are not the path of an
    analysed file; such a node carries its source as id and as label. *)
Theorem graph_external_nodes E args r :
  analyzeCodeGraph E args = Returned r ->
  includeExternalDeps args = Some true ->
  forall n,
    (In n (nodes (graph r)) /\ type_of n = TExternal)
    <-> (n = external_node (id n)
         /\ In (id n) (external_sources (analyses r))
         /\ ~ In (id n) (files args)).
Proof.
  intros Hr Hext n.
  destruct (analyzeCodeGraph_returned E args r Hr) as (_ & Hp & Hg & _).
  rewrite Hg, Hext. unfold buildDependencyGraph. cbn [nodes edges].
  match goal with
  | |- context [fold_left ?f ?l ?s] =>
      pose proof (second_pass_good (basename E) (analyses r) true)
        as (Hgood & Hpaths & Hedges);
      pose proof (fun k => second_pass_keys (analyses r) true k (analyses r) s) as Hkeys;
      set (final := fold_left f l s) in *
  end.
  pose proof Hgood as [Hnd Hm]. rewrite Hp in *. split.
  - intros [Hn Hty]. apply in_map_iff in Hn as [[k n'] [Heq Hin]].
    cbn [snd] in Heq. subst n'.
    destruct (Hm k n Hin) as [[-> _] | (-> & _ & Hno & Hsrc)]; [discriminate Hty |].
    cbn [id external_node]. now repeat split.
  - intros (Hn & Hsrc & Hno). split; [| now rewrite Hn].
    assert (In (id n) (map fst (fst final))) as Hk.
    { apply Hkeys. right. now split. }
    apply In_keys in Hk as [n' Hn'].
    destruct (Hm _ n' Hn') as [[_ Hin] | (-> & _)]; [contradiction |].
    rewrite Hn. apply in_map_iff. now exists (id n, external_node (id n)).
Qed.

(** The import of [react] gives the one external node. *)
Lemma graph_external_nodes_witness :
  exists r,
    analyzeCodeGraph GraphWorlds.sources (GraphWorlds.request (Some true)) = Returned r
    /\ filter is_external (nodes (graph r)) = [external_node (str "react")]
    /\ In (external_node (str "react")) (nodes (graph r)).
Proof.
  eexists. split; [vm_compute; reflexivity |]. split; [reflexivity |].
  apply (proj2 (graph_external_nodes GraphWorlds.sources (GraphWorlds.request (Some true))
                  _ eq_refl eq_refl (external_node (str "react")))).
  split; [reflexivity |]. split.
  - vm_compute. now left.
  - vm_compute. intuition discriminate.
Defined.

(** X26. The analysis returns exactly when every listed file can be
    read. One file that cannot be read makes the whole request fail, with
    the tool's prefix before the message of such a file; no partial graph
    is returned. *)
Theorem analysis_needs_every_file E args :
  ((exists r, analyzeCodeGraph E args = Returned r)
   <-> Forall (fun f => exists c, readFile E f = inr c) (files args))
  /\ ((forall r, analyzeCodeGraph E args <> Returned r) ->
      exists f m, In f (files args) /\ readFile E f = inl m
                  /\ analyzeCodeGraph E args = Thrown (failed_prefix ++ m)).
Proof.
  unfold analyzeCodeGraph.
  destruct (analyze_all_cases E (files args)) as [[all Hall] | (f & m & Hf & Hm & Hall)];
    rewrite Hall; cbn [rethrow].
  - split.
    + split; [intros _; now apply (analyze_all_readable E _ all) |].
      intros _. eexists. reflexivity.
    + intros Hno. exfalso. eapply Hno. reflexivity.
  - split.
    + split; [intros [r Hr]; discriminate Hr |].
      intros Hread. exfalso. rewrite Forall_forall in Hread.
      destruct (Hread f Hf) as [c Hc]. congruence.
    + intros _. exists f, m. now repeat split.
Qed.

(** A request that names a file that is not there. *)
Lemma analysis_needs_every_file_witness :
  exists f m,
    In f (files GraphWorlds.request_with_missing_file)
    /\ readFile GraphWorlds.sources f = inl m
    /\ analyzeCodeGraph GraphWorlds.sources GraphWorlds.request_with_missing_file
       = Thrown (failed_prefix ++ m).
Proof.
  apply (proj2 (analysis_needs_every_file GraphWorlds.sources
                  GraphWorlds.request_with_missing_file)).
  intros r Hr. vm_compute in Hr. discriminate Hr.
Defined.

End CodeGraphFacts.
Module SmartSelectionFacts.
Import JS JSString SmartSelection.

Lemma all_info_each E root items selected :
  all_info E root items = Returned selected ->
  Forall2 (fun item s => file_info E root item = Returned s) items selected.
Proof.
  unfold all_info. intros H.
  now apply PromiseFacts.fulfilled_map, (PromiseFacts.promise_all_returned (race E)).
Qed.

Lemma all_info_Forall2 E root items : forall selected,
  all_info E root items = Returned selected ->
  Forall2 (fun item s => sel_path s = scored_path item /\ sel_score s = scored_score item)
          items selected.
Proof.
  intros selected H. apply all_info_each in H.
  induction H as [|item s items selected Hs _ IH]; constructor; [| exact IH].
  unfold file_info in Hs. destruct (stat E _); [discriminate |].
  injection Hs as <-. now split.
Qed.

Lemma Forall2_sorted {A B} (f : A -> Z) (g : B -> Z) l l' :
  Forall2 (fun a b => g b = f a) l l' ->
  StronglySorted (fun x y => (f y <= f x)%Z) l ->
  StronglySorted (fun x y => (g y <= g x)%Z) l'.
Proof.
  induction 1 as [|a b l l' Hab Hrest IH]; intros Hs; [constructor |].
  inversion Hs as [|? ? Hs' Ha]; subst. constructor; [now apply IH |].
  clear IH Hs Hs'. induction Hrest as [|a' b' l l' Hab' _ IH]; [constructor |].
  inversion Ha as [|? ? Ha' Hl]; subst. constructor; [lia | now apply IH].
Qed.

Lemma Forall2_Forall {A B} (R : A -> B -> Prop) (P : A -> Prop) (Q : B -> Prop) l l' :
  (forall a b, R a b -> P a -> Q b) ->
  Forall2 R l l' -> Forall P l -> Forall Q l'.
Proof.
  intros HPQ. induction 1 as [|a b l l' Hab _ IH]; intros Hl; [constructor |].
  inversion Hl; subst. constructor; [eapply HPQ; eassumption | now apply IH].
Qed.

Lemma Forall2_map {A B C} (f : A -> C) (g : B -> C) l l' :
  Forall2 (fun a b => g b = f a) l l' -> map g l' = map f l.
Proof.
  induction 1 as [|a b l l' Hab _ IH]; [reflexivity |]. cbn [map]. now rewrite Hab, IH.
Qed.

Lemma Forall2_length_eq {A B} (R : A -> B -> Prop) l l' :
  Forall2 R l l' -> length l' = length l.
Proof. induction 1; cbn [length]; congruence. Qed.

(** What a reply to a task that is not blank was made of. *)
Lemma smartFileSelection_returned E args r :
  smartFileSelection E args = Returned r ->
  task_of args <> [] ->
  exists limit,
    limit_of args = Some limit
    /\ all_info E (projectPath args)
         (rank E (task_of args) limit (scanned E args)) = Returned (selectedFiles r)
    /\ totalScanned r = length (scanned E args)
    /\ selectedCount r = length (selectedFiles r).
Proof.
  unfold smartFileSelection, smartFileSelection_try, task_of, scanned.
  destruct (projectPath args) as [|c p] eqn:Hp; [discriminate |].
  destruct (isAbsolute E (c :: p)); [| discriminate]. cbn [negb].
  destruct (stat E (c :: p)) as [m | stats]; [discriminate |].
  destruct (isDirectory stats); [| discriminate]. cbn [negb].
  destruct (limit_of args) as [limit |]; [| discriminate].
  destruct (taskDescription args) as [t |]; cbn [option_map]; [| congruence].
  destruct (trim t) as [|c' t'] eqn:Ht; [congruence |].
  destruct (getAllFiles E (c :: p)) as [m | allFiles]; [discriminate |].
  destruct (all_info E (c :: p) _) as [selected | m |] eqn:Hall; try discriminate.
  cbn [rethrow]. intros Hret _. injection Hret as <-.
  exists limit. cbn [selectedFiles totalScanned selectedCount]. now repeat split.
Qed.

Lemma limit_of_positive args limit : limit_of args = Some limit -> (0 < limit)%Z.
Proof.
  unfold limit_of. destruct (maxFiles args) as [[n |] |]; try discriminate.
  - destruct (Z.leb_spec n 0) as [Hle | Hlt]; [discriminate |].
    intros Heq. injection Heq as <-. lia.
  - intros Heq. injection Heq as <-. lia.
Qed.

(** X27. For a task that is not blank, the selected files are the top
    of the ranking: at most [maxFiles] of them, each one a listed file
    with its score, which is above zero, in descending order of score;
    and a listed file that is left out either scores zero or less, or
    the selection is full and none of the selected files scores less
    than it. *)
Theorem selection_is_top_ranked E args r :
  smartFileSelection E args = Returned r ->
  task_of args <> [] ->
  exists limit,
    limit_of args = Some limit /\ (0 < limit)%Z
    /\ (length (selectedFiles r) <= Z.to_nat limit)%nat
    /\ StronglySorted (fun a b => (sel_score b <= sel_score a)%Z) (selectedFiles r)
    /\ Forall (fun s => In (sel_path s) (scanned E args)
                        /\ sel_score s = scoreFileRelevance E (sel_path s) (task_of args)
                        /\ (0 < sel_score s)%Z)
              (selectedFiles r)
    /\ (forall f, In f (scanned E args) ->
                  ~ In f (map sel_path (selectedFiles r)) ->
                  (scoreFileRelevance E f (task_of args) <= 0)%Z
                  \/ (length (selectedFiles r) = Z.to_nat limit
                      /\ Forall (fun s => (scoreFileRelevance E f (task_of args)
                                           <= sel_score s)%Z)
                                (selectedFiles r))).
Proof.
  intros Hr Htask.
  destruct (smartFileSelection_returned E args r Hr Htask) as (limit & Hlim & Hinfo & _).
  exists limit. split; [exact Hlim |]. split; [now apply (limit_of_positive args) |].
  pose proof (all_info_Forall2 E _ _ _ Hinfo) as H2.
  unfold rank, slice in H2. cbn [skipn Nat.sub] in H2. rewrite Nat.sub_0_r in H2.
  set (task := task_of args) in *. set (all := scanned E args) in *.
  set (mk := fun f => {| scored_path := f; scored_score := scoreFileRelevance E f task |})
    in *.
  set (positive := filter (fun item => Z.ltb 0 (scored_score item)) (map mk all)) in *.
  set (sorted := StableSort.sort higher_score_first positive) in *.
  set (n := Z.to_nat limit) in *.
  assert (StronglySorted (fun a b => (scored_score b <= scored_score a)%Z) sorted) as Hs.
  { apply (RankingFacts.sort_by_key_sorted scored_score higher_score_first). reflexivity. }
  assert (forall item, In item sorted ->
            In (scored_path item) all
            /\ scored_score item = scoreFileRelevance E (scored_path item) task
            /\ (0 < scored_score item)%Z) as Hitems.
  { intros item Hin.
    apply (Permutation_in _ (ProjectStructureFacts.sort_Permutation higher_score_first
                               positive)) in Hin.
    apply filter_In in Hin as [Hin Hpos].
    apply in_map_iff in Hin as [f [<- Hf]]. cbn [scored_path scored_score mk] in *.
    repeat split; [exact Hf | now apply Z.ltb_lt]. }
  split; [| split; [| split]].
  - rewrite (Forall2_length_eq _ _ _ H2). apply firstn_le_length.
  - refine (Forall2_sorted scored_score sel_score _ _ _ _).
    + eapply Forall2_impl; [| exact H2]. cbv beta. tauto.
    + now apply RankingFacts.sorted_firstn.
  - refine (Forall2_Forall _ _ _ _ _ _ H2 _).
    + intros item s [Hp Hsc] Hitem. cbv beta in Hitem. rewrite Hp, Hsc. exact Hitem.
    + apply Forall_forall. intros item Hin. apply Hitems.
      rewrite <- (firstn_skipn n sorted). apply in_or_app. now left.
  - intros f Hf Hout.
    destruct (Z.leb_spec (scoreFileRelevance E f task) 0) as [Hle | Hpos]; [now left |].
    right.
    assert (In (mk f) sorted) as Hin.
    { apply (Permutation_in _ (Permutation_sym
               (ProjectStructureFacts.sort_Permutation higher_score_first positive))).
      apply filter_In. split; [now apply in_map |]. now apply Z.ltb_lt. }
    rewrite <- (firstn_skipn n sorted) in Hin. apply in_app_or in Hin as [Hin | Hin].
    + exfalso. apply Hout.
      rewrite (Forall2_map scored_path sel_path (firstn n sorted) (selectedFiles r)).
      * apply in_map_iff. exists (mk f). now split.
      * eapply Forall2_impl; [| exact H2]. cbv beta. tauto.
    + split.
      * rewrite (Forall2_length_eq _ _ _ H2). apply firstn_length_le.
        destruct (Nat.le_gt_cases n (length sorted)) as [Hn | Hn]; [exact Hn |].
        rewrite skipn_all2 in Hin by lia. destruct Hin.
      * pose proof (RankingFacts.sorted_split _ n sorted Hs) as Hsplit.
        rewrite Forall_forall in Hsplit. specialize (Hsplit _ Hin). cbv beta in Hsplit.
        refine (Forall2_Forall _ _ _ _ _ _ H2 Hsplit).
        intros item s [_ Hsc] Hitem. cbv beta in Hitem. rewrite Hsc.
        exact Hitem.
Qed.

(** Four listed files, one of them scoring below zero, and room for two. *)
Lemma selection_is_top_ranked_witness :
  exists r,
    smartFileSelection SelectionWorlds.project (SelectionWorlds.request 2) = Returned r
    /\ map sel_path (selectedFiles r) = [str "src/parser.ts"; str "src/lexer.ts"]
    /\ map sel_score (selectedFiles r) = [5; 4]%Z
    /\ exists limit,
         limit_of (SelectionWorlds.request 2) = Some limit
         /\ (length (selectedFiles r) <= Z.to_nat limit)%nat
         /\ StronglySorted (fun a b => (sel_score b <= sel_score a)%Z) (selectedFiles r).
Proof.
  eexists. split; [vm_compute; reflexivity |].
  repeat (split; [reflexivity |]).
  destruct (selection_is_top_ranked SelectionWorlds.project (SelectionWorlds.request 2)
              _ eq_refl) as (limit & Hlim & _ & Hlen & Hs & _).
  - vm_compute. discriminate.
  - exists limit. now repeat split.
Defined.

Lemma all_info_returns_iff E root items :
  (exists selected, all_info E root items = Returned selected)
  <-> Forall (fun item => exists st, stat E (path_join E root (scored_path item)) = inr st)
             items.
Proof.
  split.
  - intros [selected H]. apply all_info_each in H.
    induction H as [|item s items selected Hs _ IH]; constructor; [| exact IH].
    unfold file_info in Hs.
    destruct (stat E _) as [m | st]; [discriminate | now exists st].
  - intros Hall.
    assert (exists selected,
              Forall2 (fun item s => file_info E root item = Returned s) items selected)
      as [selected H].
    { induction Hall as [|item items [st Hst] _ [rest IH]]; [exists []; constructor |].
      eexists (_ :: rest). constructor; [| exact IH].
      unfold file_info. rewrite Hst. reflexivity. }
    exists selected. unfold all_info.
    now apply PromiseFacts.promise_all_returned, PromiseFacts.fulfilled_map.
Qed.

(** X28. A request returns exactly when the project path is not empty,
    is absolute and is a directory that [stat] finds, [maxFiles] is a
    positive integer, and either the task is blank or the files can be
    listed and [stat] succeeds on each selected one. For a blank task the
    reply is empty and the files are not looked at; a listed file that is
    not selected cannot make the request fail. *)
Theorem selection_returns_iff E args :
  ((exists r, smartFileSelection E args = Returned r)
   <-> projectPath args <> []
       /\ isAbsolute E (projectPath args) = true
       /\ (exists stats, stat E (projectPath args) = inr stats /\ isDirectory stats = true)
       /\ exists limit,
            limit_of args = Some limit
            /\ (task_of args = []
                \/ exists allFiles,
                     getAllFiles E (projectPath args) = inr allFiles
                     /\ Forall (fun item =>
                                  exists st, stat E (path_join E (projectPath args)
                                                       (scored_path item)) = inr st)
                               (rank E (task_of args) limit allFiles)))
  /\ (forall r, smartFileSelection E args = Returned r -> task_of args = [] ->
      selectedFiles r = [] /\ totalScanned r = 0%nat /\ selectedCount r = 0%nat
      /\ totalSize r = 0%N).
Proof.
  unfold smartFileSelection, smartFileSelection_try, task_of.
  destruct (projectPath args) as [|c p] eqn:Hp.
  { split; [split |]; [intros [r Hr]; discriminate Hr | intros [H _]; congruence
                     | intros r Hr; discriminate Hr]. }
  destruct (isAbsolute E (c :: p)); cbn [negb].
  2:{ split; [split |]; [intros [r Hr]; discriminate Hr
                        | intros (_ & H & _); discriminate H
                        | intros r Hr; discriminate Hr]. }
  destruct (stat E (c :: p)) as [m | stats].
  { split; [split |]; [intros [r Hr]; discriminate Hr
                      | intros (_ & _ & (st & H & _) & _); discriminate H
                      | intros r Hr; discriminate Hr]. }
  destruct (isDirectory stats) eqn:Hdir; cbn [negb].
  2:{ split; [split |]; [intros [r Hr]; discriminate Hr
                        | intros (_ & _ & (st & H & Hd) & _); congruence
                        | intros r Hr; discriminate Hr]. }
  destruct (limit_of args) as [limit |].
  2:{ split; [split |]; [intros [r Hr]; discriminate Hr
                        | intros (_ & _ & _ & (l & H & _)); discriminate H
                        | intros r Hr; discriminate Hr]. }
  destruct (taskDescription args) as [t |]; cbn [option_map].
  2:{ split; [split |].
      - intros _. repeat split; try discriminate; [now exists stats |].
        exists limit. split; [reflexivity | now left].
      - intros _. eexists. reflexivity.
      - intros r Hr _. cbn [rethrow] in Hr. injection Hr as <-. now repeat split. }
  destruct (trim t) as [|c' t'] eqn:Ht.
  { split; [split |].
    - intros _. repeat split; try discriminate; [now exists stats |].
      exists limit. split; [reflexivity | now left].
    - intros _. eexists. reflexivity.
    - intros r Hr _. cbn [rethrow] in Hr. injection Hr as <-. now repeat split. }
  split; [| intros r _ Hblank; discriminate Hblank].
  destruct (getAllFiles E (c :: p)) as [m | allFiles].
  { split; [intros [r Hr]; discriminate Hr |].
    intros (_ & _ & _ & (l & _ & [H | (a & H & _)])); discriminate H. }
  pose proof (all_info_returns_iff E (c :: p) (rank E (c' :: t') limit allFiles)) as Hiff.
  destruct (all_info E (c :: p) _) as [selected | m |] eqn:Hall; cbn [rethrow].
  - split; [| intros _; eexists; reflexivity].
    intros _. repeat split; try discriminate; [now exists stats |].
    exists limit. split; [reflexivity |]. right. exists allFiles.
    split; [reflexivity |]. apply Hiff. now exists selected.
  - split; [intros [r Hr]; discriminate Hr |].
    intros (_ & _ & _ & (l & Hl & [H | (a & Ha & Hst)])); [discriminate H |].
    injection Hl as <-. injection Ha as <-.
    apply Hiff in Hst as [sel Hsel]. discriminate Hsel.
  - split; [intros [r Hr]; discriminate Hr |].
    intros (_ & _ & _ & (l & Hl & [H | (a & Ha & Hst)])); [discriminate H |].
    injection Hl as <-. injection Ha as <-.
    apply Hiff in Hst as [sel Hsel]. discriminate Hsel.
Qed.

(** The request of the small project returns; with [maxFiles] 0 it does
    not. *)
Lemma selection_returns_iff_witness :
  (exists r, smartFileSelection SelectionWorlds.project (SelectionWorlds.request 2)
             = Returned r)
  /\ ~ (exists r, smartFileSelection SelectionWorlds.project (SelectionWorlds.request 0)
                  = Returned r).
Proof.
  split.
  - apply (proj1 (selection_returns_iff SelectionWorlds.project
                    (SelectionWorlds.request 2))).
    repeat split; try discriminate; [eexists; split; reflexivity |].
    exists 2%Z. split; [reflexivity |]. right. eexists. split; [reflexivity |].
    vm_compute. repeat (constructor; [eexists; reflexivity |]). constructor.
  - intros Hr.
    apply (proj1 (selection_returns_iff SelectionWorlds.project
                    (SelectionWorlds.request 0))) in Hr
      as (_ & _ & _ & (limit & Hlim & _)).
    discriminate Hlim.
Defined.

End SmartSelectionFacts.
Module ProjectResourceFacts.
Import JS ProjectStructure ProjectResource.

(** X29. The project structure resource calls the tool with the path
    alone. When the tool returns, the reply is passed on: the depth is
    not limited and no name in the tree, at any level, begins with a dot,
    whatever else the URI says. When the tool throws, the later revision
    puts the tool's prefix before a message that already begins with it,
    so that the prefix comes twice; the earlier revision passes the
    tool's message on as it is. *)
Theorem project_resource_composes E uri_ projectPath :
  parse_path_param E uri_ = inr (Some projectPath) ->
  projectPath <> [] ->
  (forall reply,
     getProjectStructure (tool E) (tool_args projectPath) = Returned reply ->
     getProjectResource E uri_
     = Returned {| uri := uri_; mimeType := str "application/json"; text := reply |}
     /\ getProjectResource_earlier E uri_ = getProjectResource E uri_
     /\ maxDepth_shown reply = None
     /\ everywhere_in (fun _ n => startsWith (node_name n) [46%N] = false) [] (tree reply))
  /\ (forall m,
        getProjectStructure (tool E) (tool_args projectPath) = Thrown m ->
        exists m',
          m = ProjectStructure.failed_prefix ++ m'
          /\ getProjectResource_earlier E uri_
             = Thrown (ProjectStructure.failed_prefix ++ m')
          /\ getProjectResource E uri_
             = Thrown (ProjectStructure.failed_prefix
                         ++ ProjectStructure.failed_prefix ++ m')).
Proof.
  intros Hurl Hne.
  unfold getProjectResource, getProjectResource_earlier, getProjectResource_body.
  rewrite Hurl. destruct projectPath as [|c p]; [congruence |]. split.
  - intros reply Hr. rewrite Hr. cbn [rethrow]. repeat split.
    + unfold getProjectStructure, getProjectStructure_try in Hr. cbn [tool_args path
        maxDepth_arg includeHidden_arg] in Hr.
      destruct (stat_root (tool E) (c :: p)) as [m | [n s | n s err entries | n s]];
        try discriminate Hr.
      destruct (buildFileTree _ _ _ _ err entries [] 0) as [nodes | m |];
        try discriminate Hr.
      cbn [rethrow] in Hr. injection Hr as <-. reflexivity.
    + destruct (ProjectStructureFacts.getProjectStructure_returned _ _ _ Hr)
        as (n & s & err & entries & _ & Hb & _).
      cbn [tool_args path maxDepth_arg includeHidden_arg] in Hb.
      apply ProjectStructureFacts.everywhere_in_Forall.
      refine (ProjectStructureFacts.buildFileTree_everywhere _ _ _ _ _ _ _ _ _ _ _ Hb).
      intros e rel depth node Hn.
      destruct (ProjectStructureFacts.visit_node _ _ _ _ _ _ _ _ Hn) as (Hh & _ & Hname & _).
      rewrite Hname. now apply Hh.
  - intros m Hm. rewrite Hm. cbn [rethrow].
    unfold getProjectStructure in Hm.
    destruct (getProjectStructure_try (tool E) (tool_args (c :: p))) as [r | m0 |];
      try discriminate Hm.
    cbn [rethrow] in Hm. injection Hm as <-. exists m0. now repeat split.
Qed.

(** The project with the dangling link: the tool's message arrives with
    the prefix twice. *)
Lemma project_resource_composes_witness :
  (exists reply,
     getProjectResource (ResourceWorlds.over StructureWorlds.project)
       ResourceWorlds.structure_uri
     = Returned {| uri := ResourceWorlds.structure_uri;
                   mimeType := str "application/json"; text := reply |}
     /\ maxDepth_shown reply = None)
  /\ getProjectResource (ResourceWorlds.over StructureWorlds.project_with_dangling_link)
       ResourceWorlds.structure_uri
     = Thrown (str "Failed to get project structure: Failed to get project structure: "
                 ++ str "ENOENT: no such file or directory").
Proof.
  split.
  - eexists.
    destruct (proj1 (project_resource_composes
                       (ResourceWorlds.over StructureWorlds.project)
                       ResourceWorlds.structure_uri (str "/p") eq_refl
                       ltac:(discriminate)) _ eq_refl) as (Hres & _ & Hdepth & _).
    split; [exact Hres | exact Hdepth].
  - destruct (proj2 (project_resource_composes
                       (ResourceWorlds.over StructureWorlds.project_with_dangling_link)
                       ResourceWorlds.structure_uri (str "/p") eq_refl
                       ltac:(discriminate))
                (str "Failed to get project structure: ENOENT: no such file or directory")
                eq_refl) as (m' & Hm & _ & Hres).
    rewrite Hres. apply (app_inv_head ProjectStructure.failed_prefix) in Hm.
    now rewrite <- Hm.
Defined.

End ProjectResourceFacts.
